(** * Prometheus metrics wrapper for micro: a shallow embedding of
      [prometheus.go] and the properties of its decorators.

    The Go package keeps twelve metric families in package-level variables,
    creates and registers them in four [register...Metrics] functions, and
    decorates six call paths (CallFunc, Call, Stream, Publish, HandlerFunc,
    SubscriberFunc) with one ops counter increment and two latency
    observations.  The embedding threads the package state explicitly:
    a computation is a function from [State] to an outcome and a new state.
    Call paths may panic, start-up code may end the process; concurrent
    registration is a step relation over goroutines that share the state.
    The definitions come first, the lemmas and theorems after them, and a
    concrete process with prometheus's registry last. *)

From Stdlib Require Import ZArith.
From Stdlib Require Import Floats.PrimFloat Numbers.Cyclic.Int63.Uint63.
From stdpp Require Import base decidable countable option list strings gmap.

Local Open Scope Z_scope.

(** ** Values of the surrounding Go packages *)

(** Package [context]: the background context or any other context value. *)
Module context.
Inductive Context : Type :=
| Background
| WithValue (n : nat).
End context.

(** An address on the Go heap. *)
Definition ptr := nat.

(** A non-nil Go [error].  Registration distinguishes the dynamic type
    [prometheus.AlreadyRegisteredError] from every other error. *)
Inductive error_value : Type :=
| AlreadyRegisteredError (ExistingCollector NewCollector : ptr)
| errorString (s : string).

(** The interface type [error]: [None] is [nil]. *)
Definition error := option error_value.

(** [err.Error()] *)
Definition Error (e : error_value) : string :=
  match e with
  | AlreadyRegisteredError _ _ => "duplicate metrics collector registration attempted"
  | errorString s => s
  end.

(** [_, ok := err.(prometheus.AlreadyRegisteredError)] *)
Definition is_AlreadyRegisteredError (e : error_value) : bool :=
  match e with
  | AlreadyRegisteredError _ _ => true
  | errorString _ => false
  end.

(** Package [client]: what the decorators read of a request and a message. *)
Module client.
Record Request : Type := mkRequest {
  Service : string;
  Method : string;
  Endpoint : string;
  ContentType : string
}.
Record Message : Type := mkMessage {
  Topic : string;
  Payload : string
}.
(** [client.CallOption], [client.PublishOption]: opaque to this package. *)
Definition CallOption := nat.
Definition PublishOption := nat.
Definition CallOptions := list CallOption.
(** A [client.Stream] handle; [None] is the nil stream. *)
Definition Stream := option nat.
End client.

(** Package [server]. *)
Module server.
Record Request : Type := mkRequest {
  Service : string;
  Method : string;
  Endpoint : string;
  ContentType : string
}.
Record Message : Type := mkMessage {
  Topic : string;
  Payload : string
}.
End server.

(** The [rsp interface{}] argument: the address of the response slot. *)
Definition Value := nat.

(** ** Durations and float64 *)

Definition minDuration : Z := - 2 ^ 63.
Definition maxDuration : Z := 2 ^ 63 - 1.

(** [time.Time.Sub] saturates at the ends of the int64 range. *)
Definition saturate (d : Z) : Z := Z.max minDuration (Z.min maxDuration d).

(** [float64(n)] for an int64 [n] (round to nearest even, via the magnitude). *)
Definition float64_of_int64 (n : Z) : float :=
  if n <? 0 then PrimFloat.opp (PrimFloat.of_uint63 (Uint63.of_Z (- n)))
  else PrimFloat.of_uint63 (Uint63.of_Z n).

Definition Second : Z := 1000000000.

(** [time.Duration.Seconds]:
    [sec := d / Second; nsec := d % Second; float64(sec) + float64(nsec)/1e9]. *)
Definition Seconds (d : Z) : float :=
  let sec := Z.quot d Second in
  let nsec := Z.rem d Second in
  PrimFloat.add (float64_of_int64 sec)
                (PrimFloat.div (float64_of_int64 nsec) 1e9%float).

(** ** Package [prometheus] (client_golang): metric vectors and registerers *)

Module prometheus.

(** [prometheus.Desc]: what a collector describes itself with. *)
Record Desc : Type := mkDesc {
  fqName : string;
  help : string;
  variableLabels : list string
}.

#[global] Instance Desc_eq_dec : EqDecision Desc.
Proof. solve_decision. Defined.

(** [prometheus.CounterOpts], [SummaryOpts], [HistogramOpts]: the two fields
    the package sets. *)
Record Opts : Type := mkOpts {
  Name : string;
  Help : string
}.

(** The three vector types.  A counter vector maps a label-value tuple to its
    number of increments; a summary or histogram vector maps a tuple to the
    values observed under it, oldest first. *)
Record CounterVec : Type := mkCounterVec {
  counter_addr : ptr;
  counter_desc : Desc;
  counter_values : gmap (list string) nat
}.

Record SummaryVec : Type := mkSummaryVec {
  summary_addr : ptr;
  summary_desc : Desc;
  summary_observations : gmap (list string) (list float)
}.

Record HistogramVec : Type := mkHistogramVec {
  histogram_addr : ptr;
  histogram_desc : Desc;
  histogram_observations : gmap (list string) (list float)
}.

(** [prometheus.Collector]: what a registerer sees of a vector, its address
    and its descriptor. *)
Record Collector : Type := mkCollector {
  collector_addr : ptr;
  Describe : Desc
}.

(** [prometheus.Registerer]: the interface behind [prometheus.DefaultRegisterer].
    [Register r c] submits collector [c] to a registerer in state [r] and
    gives the error returned and the registerer's next state. *)
Class Registerer (R : Type) : Type :=
  Register : R → Collector → error * R.

End prometheus.

(** ** The package-level variables, by type *)
Inductive CounterVar : Type :=
| clientOpsCounter | serverOpsCounter | publishOpsCounter | subscribeOpsCounter.

Inductive SummaryVar : Type :=
| clientTimeCounterSummary | serverTimeCounterSummary
| publishTimeCounterSummary | subscribeTimeCounterSummary.

Inductive HistogramVar : Type :=
| clientTimeCounterHistogram | serverTimeCounterHistogram
| publishTimeCounterHistogram | subscribeTimeCounterHistogram.

#[global] Instance CounterVar_eq_dec : EqDecision CounterVar.
Proof. solve_decision. Defined.
#[global] Instance SummaryVar_eq_dec : EqDecision SummaryVar.
Proof. solve_decision. Defined.
#[global] Instance HistogramVar_eq_dec : EqDecision HistogramVar.
Proof. solve_decision. Defined.

#[global] Instance CounterVar_countable : Countable CounterVar.
Proof.
  refine (inj_countable'
    (λ x, match x with
          | clientOpsCounter => 0 | serverOpsCounter => 1
          | publishOpsCounter => 2 | subscribeOpsCounter => 3 end)%nat
    (λ n, match n with
          | 0 => clientOpsCounter | 1 => serverOpsCounter
          | 2 => publishOpsCounter | _ => subscribeOpsCounter end)%nat _).
  by intros [].
Defined.

#[global] Instance SummaryVar_countable : Countable SummaryVar.
Proof.
  refine (inj_countable'
    (λ x, match x with
          | clientTimeCounterSummary => 0 | serverTimeCounterSummary => 1
          | publishTimeCounterSummary => 2 | subscribeTimeCounterSummary => 3 end)%nat
    (λ n, match n with
          | 0 => clientTimeCounterSummary | 1 => serverTimeCounterSummary
          | 2 => publishTimeCounterSummary | _ => subscribeTimeCounterSummary end)%nat _).
  by intros [].
Defined.

#[global] Instance HistogramVar_countable : Countable HistogramVar.
Proof.
  refine (inj_countable'
    (λ x, match x with
          | clientTimeCounterHistogram => 0 | serverTimeCounterHistogram => 1
          | publishTimeCounterHistogram => 2 | subscribeTimeCounterHistogram => 3 end)%nat
    (λ n, match n with
          | 0 => clientTimeCounterHistogram | 1 => serverTimeCounterHistogram
          | 2 => publishTimeCounterHistogram | _ => subscribeTimeCounterHistogram end)%nat _).
  by intros [].
Defined.


(** ** Outcomes of a computation *)

(** A computation ends normally with a value or is cut short: a call path by
    a panic, start-up code by the termination of the process. *)
Inductive Outcome (E A : Type) : Type :=
| Ok (a : A)
| Abort (e : E).
Arguments Ok {E A} a.
Arguments Abort {E A} e.

(** A panic value. *)
Inductive Panic : Type :=
| NilPointerDereference
| PanicValue (v : string).

(** The ways start-up code ends the process: [logger.Fatal], which logs its
    message and exits, and a fatal error of the Go runtime. *)
Inductive Fatal : Type :=
| LoggerFatal (ctx : context.Context) (msg : string)
| RuntimeFatal (msg : string).

(** Whether deferred calls run when a computation is cut short: a panic
    unwinds the stack through them, an exit of the process does not. *)
Class Unwinds (E : Type) : Type := unwinds : E → bool.
#[global] Instance Panic_unwinds : Unwinds Panic := λ _, true.
#[global] Instance Fatal_unwinds : Unwinds Fatal := λ _, false.

(** ** Configuration *)

Record Options : Type := mkOptions {
  Name : string;
  Version : string;
  ID : string;
  Context : context.Context
}.

(** [type Option], a function on a pointer to [Options]: an option rewrites
    the options it is given. *)
Definition Option := Options → Options.

(** [func Context(ctx context.Context) Option]; the name [Context] is the
    field's here. *)
Definition ContextOption (ctx : context.Context) : Option :=
  λ o, {| Name := Name o; Version := Version o; ID := ID o; Context := ctx |}.

Definition ServiceName (name : string) : Option :=
  λ o, {| Name := name; Version := Version o; ID := ID o; Context := Context o |}.

Definition ServiceVersion (version : string) : Option :=
  λ o, {| Name := Name o; Version := version; ID := ID o; Context := Context o |}.

Definition ServiceID (id : string) : Option :=
  λ o, {| Name := Name o; Version := Version o; ID := id; Context := Context o |}.

(** [options := Options{Context: context.Background()}]
    [for _, o := range opts] applies [o] to [&options]. *)
Definition apply_options (opts : list Option) : Options :=
  foldl (λ options o, o options)
        {| Name := ""; Version := ""; ID := ""; Context := context.Background |}
        opts.

Section Prometheus.

Context {World R : Type} `{!prometheus.Registerer R}.

(** ** The state of the process

    The two exported prefixes, the twelve metric family variables (absent
    from a map when [nil]), the mutex, the number of vector objects
    allocated so far (the next fresh address), the registerer behind
    [prometheus.DefaultRegisterer], the monotonic clock in nanoseconds, and
    the rest of the program's memory. *)
Record State : Type := mkState {
  DefaultMetricPrefix : string;
  DefaultLabelPrefix : string;
  counters : gmap CounterVar prometheus.CounterVec;
  summaries : gmap SummaryVar prometheus.SummaryVec;
  histograms : gmap HistogramVar prometheus.HistogramVec;
  mu : bool;
  allocated : nat;
  DefaultRegisterer : R;
  clock : Z;
  world : World
}.

Definition set_counters (f : gmap CounterVar prometheus.CounterVec → gmap CounterVar prometheus.CounterVec) (st : State) : State :=
  mkState (DefaultMetricPrefix st) (DefaultLabelPrefix st) (f (counters st))
          (summaries st) (histograms st) (mu st) (allocated st)
          (DefaultRegisterer st) (clock st) (world st).

Definition set_summaries (f : gmap SummaryVar prometheus.SummaryVec → gmap SummaryVar prometheus.SummaryVec) (st : State) : State :=
  mkState (DefaultMetricPrefix st) (DefaultLabelPrefix st) (counters st)
          (f (summaries st)) (histograms st) (mu st) (allocated st)
          (DefaultRegisterer st) (clock st) (world st).

Definition set_histograms (f : gmap HistogramVar prometheus.HistogramVec → gmap HistogramVar prometheus.HistogramVec) (st : State) : State :=
  mkState (DefaultMetricPrefix st) (DefaultLabelPrefix st) (counters st)
          (summaries st) (f (histograms st)) (mu st) (allocated st)
          (DefaultRegisterer st) (clock st) (world st).

Definition set_mu (b : bool) (st : State) : State :=
  mkState (DefaultMetricPrefix st) (DefaultLabelPrefix st) (counters st)
          (summaries st) (histograms st) b (allocated st)
          (DefaultRegisterer st) (clock st) (world st).

Definition set_allocated (n : nat) (st : State) : State :=
  mkState (DefaultMetricPrefix st) (DefaultLabelPrefix st) (counters st)
          (summaries st) (histograms st) (mu st) n
          (DefaultRegisterer st) (clock st) (world st).

Definition set_registerer (r : R) (st : State) : State :=
  mkState (DefaultMetricPrefix st) (DefaultLabelPrefix st) (counters st)
          (summaries st) (histograms st) (mu st) (allocated st)
          r (clock st) (world st).

(** ** The monad of computations over the state *)

Definition M (E A : Type) : Type := State → Outcome E A * State.

#[global] Instance M_ret {E} : MRet (M E) := λ A a st, (Ok a, st).

#[global] Instance M_bind {E} : MBind (M E) := λ A B f m st,
  match m st with
  | (Ok a, st') => f a st'
  | (Abort e, st') => (Abort e, st')
  end.

(** Reading a package-level variable. *)
Definition gets {E A} (f : State → A) : M E A := λ st, (Ok (f st), st).

(** [defer d] before [body]: [d] runs when [body] returns, and also when it
    is cut short by something that unwinds the stack; what [d] returns is
    dropped, a panic of [d] replaces the pending one. *)
Definition defer {E} `{!Unwinds E} {A} (d : M E unit) (body : M E A) : M E A := λ st,
  match body st with
  | (Ok a, st1) =>
      match d st1 with
      | (Ok _, st2) => (Ok a, st2)
      | (Abort e, st2) => (Abort e, st2)
      end
  | (Abort e, st1) =>
      if unwinds e then
        match d st1 with
        | (Ok _, st2) => (Abort e, st2)
        | (Abort e', st2) => (Abort e', st2)
        end
      else (Abort e, st1)
  end.

(** [for _, x := range l { body }] *)
Fixpoint for_range {E A} (l : list A) (body : A → M E unit) : M E unit :=
  match l with
  | [] => mret tt
  | x :: l' => body x ;; for_range l' body
  end.

(** ** Primitives the package calls *)

(** [mu.Lock()] on the only goroutine: taking a mutex that is held can never
    succeed, the runtime ends the process. *)
Definition Lock : M Fatal unit := λ st,
  if mu st then (Abort (RuntimeFatal "all goroutines are asleep - deadlock!"), st)
  else (Ok tt, set_mu true st).

(** [mu.Unlock()] *)
Definition Unlock : M Fatal unit := λ st,
  if mu st then (Ok tt, set_mu false st)
  else (Abort (RuntimeFatal "sync: unlock of unlocked mutex"), st).

(** [prometheus.NewCounterVec(opts, labelNames)]: a fresh, empty vector. *)
Definition NewCounterVec {E} (opts : prometheus.Opts) (labelNames : list string) : M E prometheus.CounterVec := λ st,
  (Ok (prometheus.mkCounterVec (allocated st)
         (prometheus.mkDesc (prometheus.Name opts) (prometheus.Help opts) labelNames) ∅),
   set_allocated (S (allocated st)) st).

Definition NewSummaryVec {E} (opts : prometheus.Opts) (labelNames : list string) : M E prometheus.SummaryVec := λ st,
  (Ok (prometheus.mkSummaryVec (allocated st)
         (prometheus.mkDesc (prometheus.Name opts) (prometheus.Help opts) labelNames) ∅),
   set_allocated (S (allocated st)) st).

Definition NewHistogramVec {E} (opts : prometheus.Opts) (labelNames : list string) : M E prometheus.HistogramVec := λ st,
  (Ok (prometheus.mkHistogramVec (allocated st)
         (prometheus.mkDesc (prometheus.Name opts) (prometheus.Help opts) labelNames) ∅),
   set_allocated (S (allocated st)) st).

(** Assignment to a package-level variable. *)
Definition assign_counter {E} (x : CounterVar) (v : prometheus.CounterVec) : M E unit :=
  λ st, (Ok tt, set_counters <[x := v]> st).

Definition assign_summary {E} (x : SummaryVar) (v : prometheus.SummaryVec) : M E unit :=
  λ st, (Ok tt, set_summaries <[x := v]> st).

Definition assign_histogram {E} (x : HistogramVar) (v : prometheus.HistogramVec) : M E unit :=
  λ st, (Ok tt, set_histograms <[x := v]> st).

(** A vector seen through the [prometheus.Collector] interface. *)
Definition counter_collector (v : prometheus.CounterVec) : prometheus.Collector :=
  prometheus.mkCollector (prometheus.counter_addr v) (prometheus.counter_desc v).

Definition summary_collector (v : prometheus.SummaryVec) : prometheus.Collector :=
  prometheus.mkCollector (prometheus.summary_addr v) (prometheus.summary_desc v).

Definition histogram_collector (v : prometheus.HistogramVec) : prometheus.Collector :=
  prometheus.mkCollector (prometheus.histogram_addr v) (prometheus.histogram_desc v).

(** [prometheus.DefaultRegisterer.Register(collector)]; describing a nil
    vector is a nil dereference, which no one recovers from at start-up. *)
Definition DefaultRegisterer_Register (collector : option prometheus.Collector) : M Fatal error := λ st,
  match collector with
  | None => (Abort (RuntimeFatal "invalid memory address or nil pointer dereference"), st)
  | Some c =>
      let '(err, r) := prometheus.Register (DefaultRegisterer st) c in
      (Ok err, set_registerer r st)
  end.

(** [logger.Fatal(ctx, msg)]: logs the message and ends the process. *)
Definition logger_Fatal {A} (ctx : context.Context) (msg : string) : M Fatal A :=
  λ st, (Abort (LoggerFatal ctx msg), st).

(** ** Registration of the four groups of metric families *)
Definition registerServerMetrics (ctx : context.Context) : M Fatal unit :=
  Lock;;
  defer Unlock (
    x ← gets (λ st, counters st !! serverOpsCounter);
    (if x is None then
       prefix ← gets DefaultMetricPrefix;
       lp ← gets DefaultLabelPrefix;
       v ← NewCounterVec
             {| prometheus.Name := prefix +:+ "server_request_total";
                prometheus.Help := "Requests processed, partitioned by endpoint and status" |}
             [lp +:+ "name"; lp +:+ "version"; lp +:+ "id"; lp +:+ "endpoint"; lp +:+ "status"];
       assign_counter serverOpsCounter v
     else mret tt);;
    x ← gets (λ st, summaries st !! serverTimeCounterSummary);
    (if x is None then
       prefix ← gets DefaultMetricPrefix;
       lp ← gets DefaultLabelPrefix;
       v ← NewSummaryVec
             {| prometheus.Name := prefix +:+ "server_latency_microseconds";
                prometheus.Help := "Request latencies in microseconds, partitioned by endpoint" |}
             [lp +:+ "name"; lp +:+ "version"; lp +:+ "id"; lp +:+ "endpoint"];
       assign_summary serverTimeCounterSummary v
     else mret tt);;
    x ← gets (λ st, histograms st !! serverTimeCounterHistogram);
    (if x is None then
       prefix ← gets DefaultMetricPrefix;
       lp ← gets DefaultLabelPrefix;
       v ← NewHistogramVec
             {| prometheus.Name := prefix +:+ "server_request_duration_seconds";
                prometheus.Help := "Request time in seconds, partitioned by endpoint" |}
             [lp +:+ "name"; lp +:+ "version"; lp +:+ "id"; lp +:+ "endpoint"];
       assign_histogram serverTimeCounterHistogram v
     else mret tt);;
    a ← gets (λ st, counter_collector <$> counters st !! serverOpsCounter);
    b ← gets (λ st, summary_collector <$> summaries st !! serverTimeCounterSummary);
    c ← gets (λ st, histogram_collector <$> histograms st !! serverTimeCounterHistogram);
    for_range [a; b; c] (λ collector,
      err ← DefaultRegisterer_Register collector;
      match err with
      | Some e =>
          (* if already registered, skip fatal *)
          if negb (is_AlreadyRegisteredError e) then logger_Fatal ctx (Error e)
          else mret tt
      | None => mret tt
      end)).

Definition registerPublishMetrics (ctx : context.Context) : M Fatal unit :=
  Lock;;
  defer Unlock (
    x ← gets (λ st, counters st !! publishOpsCounter);
    (if x is None then
       prefix ← gets DefaultMetricPrefix;
       lp ← gets DefaultLabelPrefix;
       v ← NewCounterVec
             {| prometheus.Name := prefix +:+ "publish_message_total";
                prometheus.Help := "Messages sent, partitioned by endpoint and status" |}
             [lp +:+ "name"; lp +:+ "version"; lp +:+ "id"; lp +:+ "endpoint"; lp +:+ "status"];
       assign_counter publishOpsCounter v
     else mret tt);;
    x ← gets (λ st, summaries st !! publishTimeCounterSummary);
    (if x is None then
       prefix ← gets DefaultMetricPrefix;
       lp ← gets DefaultLabelPrefix;
       v ← NewSummaryVec
             {| prometheus.Name := prefix +:+ "publish_message_latency_microseconds";
                prometheus.Help := "Message latencies in microseconds, partitioned by endpoint" |}
             [lp +:+ "name"; lp +:+ "version"; lp +:+ "id"; lp +:+ "endpoint"];
       assign_summary publishTimeCounterSummary v
     else mret tt);;
    x ← gets (λ st, histograms st !! publishTimeCounterHistogram);
    (if x is None then
       prefix ← gets DefaultMetricPrefix;
       lp ← gets DefaultLabelPrefix;
       v ← NewHistogramVec
             {| prometheus.Name := prefix +:+ "publish_message_duration_seconds";
                prometheus.Help := "Message publish time in seconds, partitioned by endpoint" |}
             [lp +:+ "name"; lp +:+ "version"; lp +:+ "id"; lp +:+ "endpoint"];
       assign_histogram publishTimeCounterHistogram v
     else mret tt);;
    a ← gets (λ st, counter_collector <$> counters st !! publishOpsCounter);
    b ← gets (λ st, summary_collector <$> summaries st !! publishTimeCounterSummary);
    c ← gets (λ st, histogram_collector <$> histograms st !! publishTimeCounterHistogram);
    for_range [a; b; c] (λ collector,
      err ← DefaultRegisterer_Register collector;
      match err with
      | Some e =>
          (* if already registered, skip fatal *)
          if negb (is_AlreadyRegisteredError e) then logger_Fatal ctx (Error e)
          else mret tt
      | None => mret tt
      end)).

Definition registerSubscribeMetrics (ctx : context.Context) : M Fatal unit :=
  Lock;;
  defer Unlock (
    x ← gets (λ st, counters st !! subscribeOpsCounter);
    (if x is None then
       prefix ← gets DefaultMetricPrefix;
       lp ← gets DefaultLabelPrefix;
       v ← NewCounterVec
             {| prometheus.Name := prefix +:+ "subscribe_message_total";
                prometheus.Help := "Messages processed, partitioned by endpoint and status" |}
             [lp +:+ "name"; lp +:+ "version"; lp +:+ "id"; lp +:+ "endpoint"; lp +:+ "status"];
       assign_counter subscribeOpsCounter v
     else mret tt);;
    x ← gets (λ st, summaries st !! subscribeTimeCounterSummary);
    (if x is None then
       prefix ← gets DefaultMetricPrefix;
       lp ← gets DefaultLabelPrefix;
       v ← NewSummaryVec
             {| prometheus.Name := prefix +:+ "subscribe_message_latency_microseconds";
                prometheus.Help := "Message processing latencies in microseconds, partitioned by endpoint" |}
             [lp +:+ "name"; lp +:+ "version"; lp +:+ "id"; lp +:+ "endpoint"];
       assign_summary subscribeTimeCounterSummary v
     else mret tt);;
    x ← gets (λ st, histograms st !! subscribeTimeCounterHistogram);
    (if x is None then
       prefix ← gets DefaultMetricPrefix;
       lp ← gets DefaultLabelPrefix;
       v ← NewHistogramVec
             {| prometheus.Name := prefix +:+ "subscribe_message_duration_seconds";
                prometheus.Help := "Request time in seconds, partitioned by endpoint" |}
             [lp +:+ "name"; lp +:+ "version"; lp +:+ "id"; lp +:+ "endpoint"];
       assign_histogram subscribeTimeCounterHistogram v
     else mret tt);;
    a ← gets (λ st, counter_collector <$> counters st !! subscribeOpsCounter);
    b ← gets (λ st, summary_collector <$> summaries st !! subscribeTimeCounterSummary);
    c ← gets (λ st, histogram_collector <$> histograms st !! subscribeTimeCounterHistogram);
    for_range [a; b; c] (λ collector,
      err ← DefaultRegisterer_Register collector;
      match err with
      | Some e =>
          (* if already registered, skip fatal *)
          if negb (is_AlreadyRegisteredError e) then logger_Fatal ctx (Error e)
          else mret tt
      | None => mret tt
      end)).

Definition registerClientMetrics (ctx : context.Context) : M Fatal unit :=
  Lock;;
  defer Unlock (
    x ← gets (λ st, counters st !! clientOpsCounter);
    (if x is None then
       prefix ← gets DefaultMetricPrefix;
       lp ← gets DefaultLabelPrefix;
       v ← NewCounterVec
             {| prometheus.Name := prefix +:+ "request_total";
                prometheus.Help := "Requests processed, partitioned by endpoint and status" |}
             [lp +:+ "name"; lp +:+ "version"; lp +:+ "id"; lp +:+ "endpoint"; lp +:+ "status"];
       assign_counter clientOpsCounter v
     else mret tt);;
    x ← gets (λ st, summaries st !! clientTimeCounterSummary);
    (if x is None then
       prefix ← gets DefaultMetricPrefix;
       lp ← gets DefaultLabelPrefix;
       v ← NewSummaryVec
             {| prometheus.Name := prefix +:+ "latency_microseconds";
                prometheus.Help := "Request latencies in microseconds, partitioned by endpoint" |}
             [lp +:+ "name"; lp +:+ "version"; lp +:+ "id"; lp +:+ "endpoint"];
       assign_summary clientTimeCounterSummary v
     else mret tt);;
    x ← gets (λ st, histograms st !! clientTimeCounterHistogram);
    (if x is None then
       prefix ← gets DefaultMetricPrefix;
       lp ← gets DefaultLabelPrefix;
       v ← NewHistogramVec
             {| prometheus.Name := prefix +:+ "request_duration_seconds";
                prometheus.Help := "Request time in seconds, partitioned by endpoint" |}
             [lp +:+ "name"; lp +:+ "version"; lp +:+ "id"; lp +:+ "endpoint"];
       assign_histogram clientTimeCounterHistogram v
     else mret tt);;
    a ← gets (λ st, counter_collector <$> counters st !! clientOpsCounter);
    b ← gets (λ st, summary_collector <$> summaries st !! clientTimeCounterSummary);
    c ← gets (λ st, histogram_collector <$> histograms st !! clientTimeCounterHistogram);
    for_range [a; b; c] (λ collector,
      err ← DefaultRegisterer_Register collector;
      match err with
      | Some e =>
          (* if already registered, skip fatal *)
          if negb (is_AlreadyRegisteredError e) then logger_Fatal ctx (Error e)
          else mret tt
      | None => mret tt
      end)).

(** ** Primitives of the call paths *)

(** [x.WithLabelValues(lvs...).Inc()]; a nil vector is a nil dereference. *)
Definition counter_inc (lvs : list string) (v : prometheus.CounterVec) : prometheus.CounterVec :=
  prometheus.mkCounterVec (prometheus.counter_addr v) (prometheus.counter_desc v)
    (<[lvs := S (default 0%nat (prometheus.counter_values v !! lvs))]> (prometheus.counter_values v)).

Definition Inc (x : CounterVar) (lvs : list string) : M Panic unit := λ st,
  match counters st !! x with
  | None => (Abort NilPointerDereference, st)
  | Some v => (Ok tt, set_counters <[x := counter_inc lvs v]> st)
  end.

(** [x.WithLabelValues(lvs...).Observe(value)] *)
Definition summary_observe (lvs : list string) (value : float) (v : prometheus.SummaryVec) : prometheus.SummaryVec :=
  prometheus.mkSummaryVec (prometheus.summary_addr v) (prometheus.summary_desc v)
    (<[lvs := default [] (prometheus.summary_observations v !! lvs) ++ [value]]>
       (prometheus.summary_observations v)).

Definition histogram_observe (lvs : list string) (value : float) (v : prometheus.HistogramVec) : prometheus.HistogramVec :=
  prometheus.mkHistogramVec (prometheus.histogram_addr v) (prometheus.histogram_desc v)
    (<[lvs := default [] (prometheus.histogram_observations v !! lvs) ++ [value]]>
       (prometheus.histogram_observations v)).

Definition Observe_summary (x : SummaryVar) (lvs : list string) (value : float) : M Panic unit := λ st,
  match summaries st !! x with
  | None => (Abort NilPointerDereference, st)
  | Some v => (Ok tt, set_summaries <[x := summary_observe lvs value v]> st)
  end.

Definition Observe_histogram (x : HistogramVar) (lvs : list string) (value : float) : M Panic unit := λ st,
  match histograms st !! x with
  | None => (Abort NilPointerDereference, st)
  | Some v => (Ok tt, set_histograms <[x := histogram_observe lvs value v]> st)
  end.

(** [prometheus.Timer]: the time it was made at and its observer. *)
Record Timer : Type := mkTimer {
  begin : Z;
  observer : float → M Panic unit
}.

(** [prometheus.NewTimer(o)] reads the clock. *)
Definition NewTimer (o : float → M Panic unit) : M Panic Timer :=
  λ st, (Ok (mkTimer (clock st) o), st).

(** [timer.ObserveDuration()]: [d := time.Since(t.begin)], then
    [t.observer.Observe(d.Seconds())]. *)
Definition ObserveDuration (t : Timer) : M Panic unit := λ st,
  let d := saturate (clock st - begin t) in
  observer t (Seconds d) st.

(** Calling through a nil function value or a nil interface. *)
Definition nil_call {A} : M Panic A := λ st, (Abort NilPointerDereference, st).

(** ** The capabilities of the framework *)

(** [client.CallFunc] *)
Definition client_CallFunc : Type :=
  context.Context → string → client.Request → Value → client.CallOptions → M Panic error.

(** [client.Client], the three methods the wrapper overrides. *)
Record client_Client : Type := mkClient {
  client_Call : context.Context → client.Request → Value → list client.CallOption → M Panic error;
  client_Stream : context.Context → client.Request → list client.CallOption → M Panic (client.Stream * error);
  client_Publish : context.Context → client.Message → list client.PublishOption → M Panic error
}.

(** [server.HandlerFunc] and [server.SubscriberFunc] *)
Definition server_HandlerFunc : Type :=
  context.Context → server.Request → Value → M Panic error.

Definition server_SubscriberFunc : Type :=
  context.Context → server.Message → M Panic error.

(** ** The wrapper and its six decorated call paths *)

Record wrapper : Type := mkWrapper {
  options : Options;
  callFunc : option client_CallFunc;
  Client : option client_Client
}.

Definition CallFunc (w : wrapper) (ctx : context.Context) (addr : string) (req : client.Request) (rsp : Value) (opts : client.CallOptions) : M Panic error :=
  let endpoint := client.Service req +:+ "." +:+ client.Endpoint req in
  timer ← NewTimer (λ v,
    let us := PrimFloat.mul v 1000000 in (* make microseconds *)
    Observe_summary clientTimeCounterSummary [Name (options w); Version (options w); ID (options w); endpoint] us;;
    Observe_histogram clientTimeCounterHistogram [Name (options w); Version (options w); ID (options w); endpoint] v);
  defer (ObserveDuration timer) (
    err ← match callFunc w with Some fn => fn ctx addr req rsp opts | None => nil_call end;
    (if err is None then
       Inc clientOpsCounter [Name (options w); Version (options w); ID (options w); endpoint; "success"]
     else
       Inc clientOpsCounter [Name (options w); Version (options w); ID (options w); endpoint; "failure"]);;
    mret err).

Definition Call (w : wrapper) (ctx : context.Context) (req : client.Request) (rsp : Value) (opts : list client.CallOption) : M Panic error :=
  let endpoint := client.Service req +:+ "." +:+ client.Endpoint req in
  timer ← NewTimer (λ v,
    let us := PrimFloat.mul v 1000000 in (* make microseconds *)
    Observe_summary clientTimeCounterSummary [Name (options w); Version (options w); ID (options w); endpoint] us;;
    Observe_histogram clientTimeCounterHistogram [Name (options w); Version (options w); ID (options w); endpoint] v);
  defer (ObserveDuration timer) (
    err ← match Client w with Some c => client_Call c ctx req rsp opts | None => nil_call end;
    (if err is None then
       Inc clientOpsCounter [Name (options w); Version (options w); ID (options w); endpoint; "success"]
     else
       Inc clientOpsCounter [Name (options w); Version (options w); ID (options w); endpoint; "failure"]);;
    mret err).

Definition Stream (w : wrapper) (ctx : context.Context) (req : client.Request) (opts : list client.CallOption) : M Panic (client.Stream * error) :=
  let endpoint := client.Service req +:+ "." +:+ client.Endpoint req in
  timer ← NewTimer (λ v,
    let us := PrimFloat.mul v 1000000 in (* make microseconds *)
    Observe_summary clientTimeCounterSummary [Name (options w); Version (options w); ID (options w); endpoint] us;;
    Observe_histogram clientTimeCounterHistogram [Name (options w); Version (options w); ID (options w); endpoint] v);
  defer (ObserveDuration timer) (
    '(stream, err) ← match Client w with Some c => client_Stream c ctx req opts | None => nil_call end;
    (if err is None then
       Inc clientOpsCounter [Name (options w); Version (options w); ID (options w); endpoint; "success"]
     else
       Inc clientOpsCounter [Name (options w); Version (options w); ID (options w); endpoint; "failure"]);;
    mret (stream, err)).

Definition Publish (w : wrapper) (ctx : context.Context) (p : client.Message) (opts : list client.PublishOption) : M Panic error :=
  let endpoint := client.Topic p in
  timer ← NewTimer (λ v,
    let us := PrimFloat.mul v 1000000 in (* make microseconds *)
    Observe_summary publishTimeCounterSummary [Name (options w); Version (options w); ID (options w); endpoint] us;;
    Observe_histogram publishTimeCounterHistogram [Name (options w); Version (options w); ID (options w); endpoint] v);
  defer (ObserveDuration timer) (
    err ← match Client w with Some c => client_Publish c ctx p opts | None => nil_call end;
    (if err is None then
       Inc publishOpsCounter [Name (options w); Version (options w); ID (options w); endpoint; "success"]
     else
       Inc publishOpsCounter [Name (options w); Version (options w); ID (options w); endpoint; "failure"]);;
    mret err).

Definition HandlerFunc (w : wrapper) (fn : server_HandlerFunc) : server_HandlerFunc :=
  λ ctx req rsp,
  let endpoint := server.Endpoint req in
  timer ← NewTimer (λ v,
    let us := PrimFloat.mul v 1000000 in (* make microseconds *)
    Observe_summary serverTimeCounterSummary [Name (options w); Version (options w); ID (options w); endpoint] us;;
    Observe_histogram serverTimeCounterHistogram [Name (options w); Version (options w); ID (options w); endpoint] v);
  defer (ObserveDuration timer) (
    err ← fn ctx req rsp;
    (if err is None then
       Inc serverOpsCounter [Name (options w); Version (options w); ID (options w); endpoint; "success"]
     else
       Inc serverOpsCounter [Name (options w); Version (options w); ID (options w); endpoint; "failure"]);;
    mret err).

Definition SubscriberFunc (w : wrapper) (fn : server_SubscriberFunc) : server_SubscriberFunc :=
  λ ctx msg,
  let endpoint := server.Topic msg in
  timer ← NewTimer (λ v,
    let us := PrimFloat.mul v 1000000 in (* make microseconds *)
    Observe_summary subscribeTimeCounterSummary [Name (options w); Version (options w); ID (options w); endpoint] us;;
    Observe_histogram subscribeTimeCounterHistogram [Name (options w); Version (options w); ID (options w); endpoint] v);
  defer (ObserveDuration timer) (
    err ← fn ctx msg;
    (if err is None then
       Inc subscribeOpsCounter [Name (options w); Version (options w); ID (options w); endpoint; "success"]
     else
       Inc subscribeOpsCounter [Name (options w); Version (options w); ID (options w); endpoint; "failure"]);;
    mret err).

(** ** The four constructors *)

(** [NewClientWrapper] returns a function that wraps a client in a
    [*wrapper]; the wrapper is returned as it is built. *)
Definition NewClientWrapper (opts : list Option) : M Fatal (client_Client → wrapper) :=
  let options := apply_options opts in
  registerClientMetrics (Context options);;
  registerPublishMetrics (Context options);;
  mret (λ c, {| options := options; callFunc := None; Client := Some c |}).

Definition NewCallWrapper (opts : list Option) : M Fatal (client_CallFunc → client_CallFunc) :=
  let options := apply_options opts in
  registerClientMetrics (Context options);;
  mret (λ fn,
    let handler := {| options := options; callFunc := Some fn; Client := None |} in
    CallFunc handler).

Definition NewHandlerWrapper (opts : list Option) : M Fatal (server_HandlerFunc → server_HandlerFunc) :=
  let options := apply_options opts in
  registerServerMetrics (Context options);;
  let handler := {| options := options; callFunc := None; Client := None |} in
  mret (HandlerFunc handler).

Definition NewSubscriberWrapper (opts : list Option) : M Fatal (server_SubscriberFunc → server_SubscriberFunc) :=
  let options := apply_options opts in
  registerSubscribeMetrics (Context options);;
  let handler := {| options := options; callFunc := None; Client := None |} in
  mret (SubscriberFunc handler).

(** ** The four groups and what is read of their families *)

Inductive Group : Type :=
| ClientGroup | ServerGroup | PublishGroup | SubscribeGroup.

Definition ops_var (g : Group) : CounterVar :=
  match g with
  | ClientGroup => clientOpsCounter
  | ServerGroup => serverOpsCounter
  | PublishGroup => publishOpsCounter
  | SubscribeGroup => subscribeOpsCounter
  end.

Definition summary_var (g : Group) : SummaryVar :=
  match g with
  | ClientGroup => clientTimeCounterSummary
  | ServerGroup => serverTimeCounterSummary
  | PublishGroup => publishTimeCounterSummary
  | SubscribeGroup => subscribeTimeCounterSummary
  end.

Definition histogram_var (g : Group) : HistogramVar :=
  match g with
  | ClientGroup => clientTimeCounterHistogram
  | ServerGroup => serverTimeCounterHistogram
  | PublishGroup => publishTimeCounterHistogram
  | SubscribeGroup => subscribeTimeCounterHistogram
  end.

(** The three families of a group have been created. *)
Definition registered (g : Group) (st : State) : Prop :=
  is_Some (counters st !! ops_var g) ∧
  is_Some (summaries st !! summary_var g) ∧
  is_Some (histograms st !! histogram_var g).

#[global] Instance registered_dec g st : Decision (registered g st).
Proof. unfold registered. apply _. Defined.

(** What a scrape reads: the count under a label tuple, and the values
    observed under one. *)
Definition counter_value (x : CounterVar) (lvs : list string) (st : State) : nat :=
  match counters st !! x with
  | Some v => default 0%nat (prometheus.counter_values v !! lvs)
  | None => 0%nat
  end.

Definition summary_values (x : SummaryVar) (lvs : list string) (st : State) : list float :=
  match summaries st !! x with
  | Some v => default [] (prometheus.summary_observations v !! lvs)
  | None => []
  end.

Definition histogram_values (x : HistogramVar) (lvs : list string) (st : State) : list float :=
  match histograms st !! x with
  | Some v => default [] (prometheus.histogram_observations v !! lvs)
  | None => []
  end.

(** The value of the status label. *)
Definition status (err : error) : string :=
  if err is None then "success" else "failure".

(** ** The decoration the six call paths share *)

Definition instrument {A} (ops : CounterVar) (sm : SummaryVar) (hs : HistogramVar)
    (o : Options) (endpoint : string) (err_of : A → error) (body : M Panic A) : M Panic A :=
  timer ← NewTimer (λ v,
    let us := PrimFloat.mul v 1000000 in
    Observe_summary sm [Name o; Version o; ID o; endpoint] us;;
    Observe_histogram hs [Name o; Version o; ID o; endpoint] v);
  defer (ObserveDuration timer) (
    a ← body;
    (if err_of a is None then
       Inc ops [Name o; Version o; ID o; endpoint; "success"]
     else
       Inc ops [Name o; Version o; ID o; endpoint; "failure"]);;
    mret a).

(** The state a decorated call leaves, from the state [st1] its wrapped
    operation left and the seconds [v] the timer measured. *)
Definition counted (ops : CounterVar) (lvs : list string) (cv : prometheus.CounterVec) (st1 : State) : State :=
  set_counters <[ops := counter_inc lvs cv]> st1.

Definition timed (sm : SummaryVar) (hs : HistogramVar) (lvs : list string) (v : float)
    (sv : prometheus.SummaryVec) (hv : prometheus.HistogramVec) (st1 : State) : State :=
  set_histograms <[hs := histogram_observe lvs v hv]>
    (set_summaries <[sm := summary_observe lvs (PrimFloat.mul v 1000000) sv]> st1).

(** The seconds between a call that started in [st] and its end in [st1]. *)
Definition elapsed (st st1 : State) : float :=
  Seconds (saturate (clock st1 - clock st)).

(** ** Invocations of the decorated call paths *)

(** What a call path hands back: an error, or a stream and an error. *)
Inductive Result : Type :=
| ResultError (err : error)
| ResultStream (stream : client.Stream) (err : error).

Definition result_error (r : Result) : error :=
  match r with
  | ResultError err => err
  | ResultStream _ err => err
  end.

(** One invocation of one of the six decorated functions, with its receiver
    and arguments. *)
Inductive Invocation : Type :=
| InvokeCallFunc (w : wrapper) (ctx : context.Context) (addr : string)
    (req : client.Request) (rsp : Value) (opts : client.CallOptions)
| InvokeCall (w : wrapper) (ctx : context.Context)
    (req : client.Request) (rsp : Value) (opts : list client.CallOption)
| InvokeStream (w : wrapper) (ctx : context.Context)
    (req : client.Request) (opts : list client.CallOption)
| InvokePublish (w : wrapper) (ctx : context.Context)
    (p : client.Message) (opts : list client.PublishOption)
| InvokeHandler (w : wrapper) (fn : server_HandlerFunc) (ctx : context.Context)
    (req : server.Request) (rsp : Value)
| InvokeSubscriber (w : wrapper) (fn : server_SubscriberFunc) (ctx : context.Context)
    (msg : server.Message).

Definition M_map {E A B} (f : A → B) (m : M E A) : M E B :=
  a ← m; mret (f a).

(** The decorated function run on the invocation's arguments. *)
Definition decorated (i : Invocation) : M Panic Result :=
  match i with
  | InvokeCallFunc w ctx addr req rsp opts => M_map ResultError (CallFunc w ctx addr req rsp opts)
  | InvokeCall w ctx req rsp opts => M_map ResultError (Call w ctx req rsp opts)
  | InvokeStream w ctx req opts => M_map (λ x, ResultStream x.1 x.2) (Stream w ctx req opts)
  | InvokePublish w ctx p opts => M_map ResultError (Publish w ctx p opts)
  | InvokeHandler w fn ctx req rsp => M_map ResultError (HandlerFunc w fn ctx req rsp)
  | InvokeSubscriber w fn ctx msg => M_map ResultError (SubscriberFunc w fn ctx msg)
  end.

(** The operation the wrapper wraps, run on the same arguments. *)
Definition wrapped (i : Invocation) : M Panic Result :=
  match i with
  | InvokeCallFunc w ctx addr req rsp opts =>
      M_map ResultError
        (match callFunc w with Some fn => fn ctx addr req rsp opts | None => nil_call end)
  | InvokeCall w ctx req rsp opts =>
      M_map ResultError
        (match Client w with Some c => client_Call c ctx req rsp opts | None => nil_call end)
  | InvokeStream w ctx req opts =>
      M_map (λ x, ResultStream x.1 x.2)
        (match Client w with Some c => client_Stream c ctx req opts | None => nil_call end)
  | InvokePublish w ctx p opts =>
      M_map ResultError
        (match Client w with Some c => client_Publish c ctx p opts | None => nil_call end)
  | InvokeHandler w fn ctx req rsp => M_map ResultError (fn ctx req rsp)
  | InvokeSubscriber w fn ctx msg => M_map ResultError (fn ctx msg)
  end.

(** The group whose families an invocation updates. *)
Definition group (i : Invocation) : Group :=
  match i with
  | InvokeCallFunc _ _ _ _ _ _ | InvokeCall _ _ _ _ _ | InvokeStream _ _ _ _ => ClientGroup
  | InvokePublish _ _ _ _ => PublishGroup
  | InvokeHandler _ _ _ _ _ => ServerGroup
  | InvokeSubscriber _ _ _ _ => SubscribeGroup
  end.

(** The configuration of the wrapper invoked. *)
Definition config (i : Invocation) : Options :=
  match i with
  | InvokeCallFunc w _ _ _ _ _ | InvokeCall w _ _ _ _ | InvokeStream w _ _ _
  | InvokePublish w _ _ _ | InvokeHandler w _ _ _ _ | InvokeSubscriber w _ _ _ => options w
  end.

(** The endpoint label as the specification derives it: service and endpoint
    of an outbound request joined by a dot, the endpoint of an inbound
    request, the topic of a message. *)
Definition endpoint_label (i : Invocation) : string :=
  match i with
  | InvokeCallFunc _ _ _ req _ _ | InvokeCall _ _ req _ _ | InvokeStream _ _ req _ =>
      client.Service req +:+ "." +:+ client.Endpoint req
  | InvokePublish _ _ p _ => client.Topic p
  | InvokeHandler _ _ _ req _ => server.Endpoint req
  | InvokeSubscriber _ _ _ msg => server.Topic msg
  end.

(** The label tuple of the latency families: name, version, id, endpoint. *)
Definition labels (i : Invocation) : list string :=
  [Name (config i); Version (config i); ID (config i); endpoint_label i].

(** ** The four register functions as one

    The name and help of each family, as the four functions spell them. *)
Definition ops_name (g : Group) : string :=
  match g with
  | ClientGroup => "request_total"
  | ServerGroup => "server_request_total"
  | PublishGroup => "publish_message_total"
  | SubscribeGroup => "subscribe_message_total"
  end.

Definition ops_help (g : Group) : string :=
  match g with
  | ClientGroup => "Requests processed, partitioned by endpoint and status"
  | ServerGroup => "Requests processed, partitioned by endpoint and status"
  | PublishGroup => "Messages sent, partitioned by endpoint and status"
  | SubscribeGroup => "Messages processed, partitioned by endpoint and status"
  end.

Definition summary_name (g : Group) : string :=
  match g with
  | ClientGroup => "latency_microseconds"
  | ServerGroup => "server_latency_microseconds"
  | PublishGroup => "publish_message_latency_microseconds"
  | SubscribeGroup => "subscribe_message_latency_microseconds"
  end.

Definition summary_help (g : Group) : string :=
  match g with
  | ClientGroup => "Request latencies in microseconds, partitioned by endpoint"
  | ServerGroup => "Request latencies in microseconds, partitioned by endpoint"
  | PublishGroup => "Message latencies in microseconds, partitioned by endpoint"
  | SubscribeGroup => "Message processing latencies in microseconds, partitioned by endpoint"
  end.

Definition histogram_name (g : Group) : string :=
  match g with
  | ClientGroup => "request_duration_seconds"
  | ServerGroup => "server_request_duration_seconds"
  | PublishGroup => "publish_message_duration_seconds"
  | SubscribeGroup => "subscribe_message_duration_seconds"
  end.

Definition histogram_help (g : Group) : string :=
  match g with
  | ClientGroup => "Request time in seconds, partitioned by endpoint"
  | ServerGroup => "Request time in seconds, partitioned by endpoint"
  | PublishGroup => "Message publish time in seconds, partitioned by endpoint"
  | SubscribeGroup => "Request time in seconds, partitioned by endpoint"
  end.

Definition counter_labels (lp : string) : list string :=
  [lp +:+ "name"; lp +:+ "version"; lp +:+ "id"; lp +:+ "endpoint"; lp +:+ "status"].

Definition latency_labels (lp : string) : list string :=
  [lp +:+ "name"; lp +:+ "version"; lp +:+ "id"; lp +:+ "endpoint"].

Definition registerMetrics (g : Group) : context.Context → M Fatal unit :=
  match g with
  | ClientGroup => registerClientMetrics
  | ServerGroup => registerServerMetrics
  | PublishGroup => registerPublishMetrics
  | SubscribeGroup => registerSubscribeMetrics
  end.

(** The assignment [x = prometheus.New...Vec(...)] of each block. *)
Definition construct_counter (g : Group) (st : State) : State :=
  set_counters
    <[ops_var g :=
        prometheus.mkCounterVec (allocated st)
          (prometheus.mkDesc (DefaultMetricPrefix st +:+ ops_name g) (ops_help g)
             (counter_labels (DefaultLabelPrefix st))) ∅]>
    (set_allocated (S (allocated st)) st).

Definition construct_summary (g : Group) (st : State) : State :=
  set_summaries
    <[summary_var g :=
        prometheus.mkSummaryVec (allocated st)
          (prometheus.mkDesc (DefaultMetricPrefix st +:+ summary_name g) (summary_help g)
             (latency_labels (DefaultLabelPrefix st))) ∅]>
    (set_allocated (S (allocated st)) st).

Definition construct_histogram (g : Group) (st : State) : State :=
  set_histograms
    <[histogram_var g :=
        prometheus.mkHistogramVec (allocated st)
          (prometheus.mkDesc (DefaultMetricPrefix st +:+ histogram_name g) (histogram_help g)
             (latency_labels (DefaultLabelPrefix st))) ∅]>
    (set_allocated (S (allocated st)) st).

(** The state after the three [if x == nil] blocks of a register function. *)
Definition ensure_counter (g : Group) (st : State) : State :=
  match counters st !! ops_var g with
  | Some _ => st
  | None => construct_counter g st
  end.

Definition ensure_summary (g : Group) (st : State) : State :=
  match summaries st !! summary_var g with
  | Some _ => st
  | None => construct_summary g st
  end.

Definition ensure_histogram (g : Group) (st : State) : State :=
  match histograms st !! histogram_var g with
  | Some _ => st
  | None => construct_histogram g st
  end.

Definition ensure (g : Group) (st : State) : State :=
  ensure_histogram g (ensure_summary g (ensure_counter g st)).

(** The slice of collectors a register function ranges over. *)
Definition collectors (g : Group) (st : State) : list (option prometheus.Collector) :=
  [counter_collector <$> counters st !! ops_var g;
   summary_collector <$> summaries st !! summary_var g;
   histogram_collector <$> histograms st !! histogram_var g].

(** The loop over the collectors, on the registerer alone. *)
Fixpoint submit (ctx : context.Context) (r : R) (cs : list (option prometheus.Collector))
    : Outcome Fatal unit * R :=
  match cs with
  | [] => (Ok tt, r)
  | None :: _ => (Abort (RuntimeFatal "invalid memory address or nil pointer dereference"), r)
  | Some c :: cs' =>
      let '(err, r') := prometheus.Register r c in
      match err with
      | Some e =>
          if negb (is_AlreadyRegisteredError e) then (Abort (LoggerFatal ctx (Error e)), r')
          else submit ctx r' cs'
      | None => submit ctx r' cs'
      end
  end.

(** What the specification says of registration errors, as a relation
    between the registerer before, the collectors submitted in turn, the way
    the loop ends and the registerer after: a nil error and an
    [AlreadyRegisteredError] let the loop go on, any other error ends the
    process at once through [logger.Fatal] with the error's message; the loop
    itself hands back no error. *)
Inductive registration (ctx : context.Context) :
    R → list prometheus.Collector → Outcome Fatal unit → R → Prop :=
| registration_done r :
    registration ctx r [] (Ok tt) r
| registration_success r c cs r' out r'' :
    prometheus.Register r c = (None, r') →
    registration ctx r' cs out r'' →
    registration ctx r (c :: cs) out r''
| registration_already_registered r c cs existing new r' out r'' :
    prometheus.Register r c = (Some (AlreadyRegisteredError existing new), r') →
    registration ctx r' cs out r'' →
    registration ctx r (c :: cs) out r''
| registration_fatal r c cs msg r' :
    prometheus.Register r c = (Some (errorString msg), r') →
    registration ctx r (c :: cs) (Abort (LoggerFatal ctx msg)) r'.

(** A collector the registerer already holds: submitting it again is
    answered with [AlreadyRegisteredError] and changes nothing. *)
Definition known (r : R) (c : prometheus.Collector) : Prop :=
  ∃ existing new, prometheus.Register r c = (Some (AlreadyRegisteredError existing new), r).

(** The contract of a registerer such as prometheus's own registry: a
    collector that was accepted, or answered with [AlreadyRegisteredError],
    is held from then on, whatever else is submitted. *)
Definition lawful : Prop :=
  (∀ r c r', prometheus.Register r c = (None, r') → known r' c) ∧
  (∀ r c existing new r',
     prometheus.Register r c = (Some (AlreadyRegisteredError existing new), r') → known r' c) ∧
  (∀ r c c' err r', known r c → prometheus.Register r c' = (err, r') → known r' c).

(** The body of the loop of a register function. *)
Definition register_one (ctx : context.Context) (collector : option prometheus.Collector) : M Fatal unit :=
  err ← DefaultRegisterer_Register collector;
  match err with
  | Some e =>
      if negb (is_AlreadyRegisteredError e) then logger_Fatal ctx (Error e)
      else mret tt
  | None => mret tt
  end.

(** The four register functions, with the group as a parameter. *)
Definition register_generic (g : Group) (ctx : context.Context) : M Fatal unit :=
  Lock;;
  defer Unlock (
    x ← gets (λ st, counters st !! ops_var g);
    (if x is None then
       prefix ← gets DefaultMetricPrefix;
       lp ← gets DefaultLabelPrefix;
       v ← NewCounterVec
             {| prometheus.Name := prefix +:+ ops_name g; prometheus.Help := ops_help g |}
             (counter_labels lp);
       assign_counter (ops_var g) v
     else mret tt);;
    x ← gets (λ st, summaries st !! summary_var g);
    (if x is None then
       prefix ← gets DefaultMetricPrefix;
       lp ← gets DefaultLabelPrefix;
       v ← NewSummaryVec
             {| prometheus.Name := prefix +:+ summary_name g; prometheus.Help := summary_help g |}
             (latency_labels lp);
       assign_summary (summary_var g) v
     else mret tt);;
    x ← gets (λ st, histograms st !! histogram_var g);
    (if x is None then
       prefix ← gets DefaultMetricPrefix;
       lp ← gets DefaultLabelPrefix;
       v ← NewHistogramVec
             {| prometheus.Name := prefix +:+ histogram_name g; prometheus.Help := histogram_help g |}
             (latency_labels lp);
       assign_histogram (histogram_var g) v
     else mret tt);;
    a ← gets (λ st, counter_collector <$> counters st !! ops_var g);
    b ← gets (λ st, summary_collector <$> summaries st !! summary_var g);
    c ← gets (λ st, histogram_collector <$> histograms st !! histogram_var g);
    for_range [a; b; c] (register_one ctx)).

(** ** Registering again *)

(** The families of a group exist and the registerer holds their collectors. *)
Definition settled (g : Group) (st : State) : Prop :=
  ∃ cs, collectors g st = Some <$> cs ∧ Forall (known (DefaultRegisterer st)) cs.

(** ** The constructors as a family *)

Inductive Constructor : Type :=
| ClientWrapper | CallWrapper | HandlerWrapper | SubscriberWrapper.

(** The effect of a constructor on the state, the wrapper it returns apart. *)
Definition construct (k : Constructor) (opts : list Option) : M Fatal unit :=
  match k with
  | ClientWrapper => NewClientWrapper opts;; mret tt
  | CallWrapper => NewCallWrapper opts;; mret tt
  | HandlerWrapper => NewHandlerWrapper opts;; mret tt
  | SubscriberWrapper => NewSubscriberWrapper opts;; mret tt
  end.

(** The groups whose register functions a constructor calls, in order. *)
Definition groups_of (k : Constructor) : list Group :=
  match k with
  | ClientWrapper => [ClientGroup; PublishGroup]
  | CallWrapper => [ClientGroup]
  | HandlerWrapper => [ServerGroup]
  | SubscriberWrapper => [SubscribeGroup]
  end.

(** The registerer after the collectors were submitted one after another,
    whatever it answered. *)
Definition submitted (r : R) (cs : list (option prometheus.Collector)) : R :=
  foldl (λ r c, match c with Some c => (prometheus.Register r c).2 | None => r end) r cs.

(** ** Goroutines that register concurrently

    Each goroutine runs one register function.  Its steps are the atomic
    actions of the function's text: taking the mutex, each nil check, each
    construction with its assignment, the evaluation of the slice of
    collectors, each call of the registerer, the fatal log, the release of
    the mutex.  A scheduler picks any goroutine that can take a step.  A
    constructor that calls two register functions in a row is two such
    goroutines, the second of which the scheduler starts after the first has
    returned; what holds of every execution holds of those. *)

Inductive Family : Type := Ops | Summary | Histogram.

#[global] Instance Family_eq_dec : EqDecision Family.
Proof. solve_decision. Defined.

#[global] Instance Group_eq_dec : EqDecision Group.
Proof. solve_decision. Defined.

(** Where a goroutine stands in its register function. *)
Inductive PC : Type :=
| AtLock
| AtCheck (f : Family)
| AtConstruct (f : Family)
| AtRange
| AtRegister (cs : list (option prometheus.Collector))
| AtFatal (msg : string)
| AtUnlock
| Returned
| Exited (e : Fatal).

Record Goroutine : Type := mkGoroutine {
  its_group : Group;
  its_ctx : context.Context;
  pc : PC
}.

(** What a step does. *)
Inductive Action : Type :=
| ActLock
| ActCheck (f : Family) (is_nil : bool)
| ActConstruct (g : Group) (f : Family)
| ActRange
| ActRegister (c : prometheus.Collector) (err : error)
| ActLoopEnd
| ActFatal (msg : string)
| ActCrash
| ActUnlock.

(** Whether the variable of a family is non-nil. *)
Definition present (g : Group) (f : Family) (st : State) : bool :=
  match f with
  | Ops => bool_decide (is_Some (counters st !! ops_var g))
  | Summary => bool_decide (is_Some (summaries st !! summary_var g))
  | Histogram => bool_decide (is_Some (histograms st !! histogram_var g))
  end.

Definition construct_family (g : Group) (f : Family) (st : State) : State :=
  match f with
  | Ops => construct_counter g st
  | Summary => construct_summary g st
  | Histogram => construct_histogram g st
  end.

(** The statement after the block of a family. *)
Definition after_block (f : Family) : PC :=
  match f with
  | Ops => AtCheck Summary
  | Summary => AtCheck Histogram
  | Histogram => AtRange
  end.

Definition at_pc (th : Goroutine) (p : PC) : Goroutine :=
  mkGoroutine (its_group th) (its_ctx th) p.

(** One step of a goroutine on the shared state; [None] when it cannot take
    a step: it waits for the mutex, it has returned, or the process has
    ended under it. *)
Definition goroutine_step (st : State) (th : Goroutine) : option (Action * State * Goroutine) :=
  match pc th with
  | AtLock =>
      if mu st then None
      else Some (ActLock, set_mu true st, at_pc th (AtCheck Ops))
  | AtCheck f =>
      if present (its_group th) f st
      then Some (ActCheck f false, st, at_pc th (after_block f))
      else Some (ActCheck f true, st, at_pc th (AtConstruct f))
  | AtConstruct f =>
      Some (ActConstruct (its_group th) f, construct_family (its_group th) f st,
            at_pc th (after_block f))
  | AtRange =>
      Some (ActRange, st, at_pc th (AtRegister (collectors (its_group th) st)))
  | AtRegister [] =>
      Some (ActLoopEnd, st, at_pc th AtUnlock)
  | AtRegister (None :: _) =>
      Some (ActCrash, st,
            at_pc th (Exited (RuntimeFatal "invalid memory address or nil pointer dereference")))
  | AtRegister (Some c :: cs) =>
      let '(err, r) := prometheus.Register (DefaultRegisterer st) c in
      Some (ActRegister c err, set_registerer r st,
            at_pc th
              match err with
              | Some e =>
                  if negb (is_AlreadyRegisteredError e) then AtFatal (Error e)
                  else AtRegister cs
              | None => AtRegister cs
              end)
  | AtFatal msg =>
      Some (ActFatal msg, st, at_pc th (Exited (LoggerFatal (its_ctx th) msg)))
  | AtUnlock =>
      if mu st then Some (ActUnlock, set_mu false st, at_pc th Returned)
      else Some (ActCrash, st, at_pc th (Exited (RuntimeFatal "sync: unlock of unlocked mutex")))
  | Returned => None
  | Exited _ => None
  end.

(** The process: the shared state and its goroutines. *)
Record Process : Type := mkProcess {
  shared : State;
  goroutines : list Goroutine
}.

Definition exited (th : Goroutine) : bool :=
  match pc th with Exited _ => true | _ => false end.

(** The process runs as long as no goroutine has ended it. *)
Definition alive (p : Process) : Prop :=
  Forall (λ th, exited th = false) (goroutines p).

(** An event: the goroutine that stepped and what it did. *)
Definition Event : Type := nat * Action.

Inductive step : Process → Event → Process → Prop :=
| step_goroutine p tid th a st' th' :
    alive p →
    goroutines p !! tid = Some th →
    goroutine_step (shared p) th = Some (a, st', th') →
    step p (tid, a) (mkProcess st' (<[tid := th']> (goroutines p))).

(** An execution and the events it went through. *)
Inductive exec : Process → list Event → Process → Prop :=
| exec_start p : exec p [] p
| exec_step p tr p' ev p'' :
    exec p tr p' → step p' ev p'' → exec p (tr ++ [ev]) p''.

(** Every goroutine is about to call its register function and the mutex
    is free. *)
Definition starting (p : Process) : Prop :=
  mu (shared p) = false ∧ Forall (λ th, pc th = AtLock) (goroutines p).

(** The number of constructions of a family in a trace. *)
Definition is_construction (g : Group) (f : Family) (ev : Event) : bool :=
  match ev.2 with
  | ActConstruct g' f' => bool_decide (g' = g ∧ f' = f)
  | _ => false
  end.

Definition constructions (g : Group) (f : Family) (tr : list Event) : nat :=
  length (filter (λ ev, is_construction g f ev = true) tr).

(** The steps the specification names, and those a goroutine takes about
    one family of its group. *)
Inductive StepName : Type :=
| StepCheckNull | StepLock | StepConstruct | StepUnlock.

#[global] Instance StepName_eq_dec : EqDecision StepName.
Proof. solve_decision. Defined.

Definition step_name (f : Family) (a : Action) : option StepName :=
  match a with
  | ActLock => Some StepLock
  | ActCheck f' _ => if decide (f' = f) then Some StepCheckNull else None
  | ActConstruct _ f' => if decide (f' = f) then Some StepConstruct else None
  | ActUnlock => Some StepUnlock
  | _ => None
  end.

Definition steps_of (tid : nat) (f : Family) (tr : list Event) : list StepName :=
  omap (λ ev : Event, if decide (ev.1 = tid) then step_name f ev.2 else None) tr.

(** Double-checked locking as the specification spells it. *)
Definition double_checked_locking : list StepName :=
  [StepCheckNull; StepLock; StepCheckNull; StepConstruct; StepUnlock].

(** What the register functions do: the mutex is taken first and the one
    nil check is made under it. *)
Definition check_under_lock : list StepName :=
  [StepLock; StepCheckNull; StepConstruct; StepUnlock].

Definition check_under_lock_present : list StepName :=
  [StepLock; StepCheckNull; StepUnlock].

(** A scheduler: the goroutines to step, in order; a goroutine that cannot
    step is passed over. *)
Fixpoint run (schedule : list nat) (p : Process) : list Event * Process :=
  match schedule with
  | [] => ([], p)
  | tid :: schedule' =>
      match goroutines p !! tid with
      | Some th =>
          if forallb (λ th, negb (exited th)) (goroutines p) then
            match goroutine_step (shared p) th with
            | Some (a, st', th') =>
                let '(tr, p') :=
                  run schedule' (mkProcess st' (<[tid := th']> (goroutines p))) in
                ((tid, a) :: tr, p')
            | None => run schedule' p
            end
          else run schedule' p
      | None => run schedule' p
      end
  end.

(** *** Where a goroutine stands *)

Definition inside (p : PC) : bool :=
  match p with
  | AtLock | Returned => false
  | _ => true
  end.

Definition before (f f' : Family) : bool :=
  match f, f' with
  | Ops, Summary | Ops, Histogram | Summary, Histogram => true
  | _, _ => false
  end.

(** The goroutine is past the block of family [f]. *)
Definition passed (p : PC) (f : Family) : bool :=
  match p with
  | AtLock => false
  | AtCheck f' | AtConstruct f' => before f f'
  | _ => true
  end.

Definition same_families (st st' : State) : Prop :=
  counters st' = counters st ∧ summaries st' = summaries st ∧
  histograms st' = histograms st.

(** The six kinds of step. *)
Inductive StepKind (st : State) (th : Goroutine) (a : Action) (st' : State) (th' : Goroutine) : Prop :=
| kind_lock :
    pc th = AtLock → mu st = false → a = ActLock → st' = set_mu true st →
    pc th' = AtCheck Ops → StepKind st th a st' th'
| kind_check_present f :
    pc th = AtCheck f → present (its_group th) f st = true → a = ActCheck f false →
    st' = st → pc th' = after_block f → StepKind st th a st' th'
| kind_check_nil f :
    pc th = AtCheck f → present (its_group th) f st = false → a = ActCheck f true →
    st' = st → pc th' = AtConstruct f → StepKind st th a st' th'
| kind_construct f :
    pc th = AtConstruct f → a = ActConstruct (its_group th) f →
    st' = construct_family (its_group th) f st → pc th' = after_block f →
    StepKind st th a st' th'
| kind_late :
    (∀ f, passed (pc th) f = true) → (∀ f, passed (pc th') f = true) →
    pc th ≠ Returned → pc th' ≠ Returned →
    (∀ f, step_name f a = None) → (∀ g f, a ≠ ActConstruct g f) →
    same_families st st' → mu st' = mu st → StepKind st th a st' th'
| kind_unlock :
    pc th = AtUnlock → mu st = true → a = ActUnlock → st' = set_mu false st →
    pc th' = Returned → StepKind st th a st' th'.

(** *** The invariant of an execution *)

Record Invariant (p0 : Process) (tr : list Event) (p : Process) : Prop := mkInvariant {
  holder_has_mutex : ∀ tid th,
    goroutines p !! tid = Some th → inside (pc th) = true → mu (shared p) = true;
  one_holder : ∀ tid1 tid2 th1 th2,
    goroutines p !! tid1 = Some th1 → goroutines p !! tid2 = Some th2 →
    inside (pc th1) = true → inside (pc th2) = true → tid1 = tid2;
  constructs_nil : ∀ tid th f,
    goroutines p !! tid = Some th → pc th = AtConstruct f →
    present (its_group th) f (shared p) = false;
  passed_present : ∀ tid th f,
    goroutines p !! tid = Some th → passed (pc th) f = true →
    present (its_group th) f (shared p) = true;
  constructions_counted : ∀ g f,
    (constructions g f tr + Nat.b2n (present g f (shared p0)))%nat =
    Nat.b2n (present g f (shared p))
}.

(** *** The steps of one goroutine about one family *)

(** The steps a goroutine at [p] has taken about family [f], which it has
    built or not. *)
Definition steps_at (p : PC) (f : Family) (built : bool) : list StepName :=
  match p with
  | AtLock => []
  | Returned =>
      [StepLock; StepCheckNull] ++ (if built then [StepConstruct] else []) ++ [StepUnlock]
  | _ =>
      if passed p f then [StepLock; StepCheckNull] ++ (if built then [StepConstruct] else [])
      else
        match p with
        | AtConstruct f' => if decide (f' = f) then [StepLock; StepCheckNull] else [StepLock]
        | _ => [StepLock]
        end
  end.

(** *** A goroutine alone runs the register function *)

Inductive reaches : State → Goroutine → State → Goroutine → Prop :=
| reaches_here st th : reaches st th st th
| reaches_step st th a st1 th1 st2 th2 :
    goroutine_step st th = Some (a, st1, th1) →
    reaches st1 th1 st2 th2 → reaches st th st2 th2.

Definition ensure_family (g : Group) (f : Family) (st : State) : State :=
  match f with
  | Ops => ensure_counter g st
  | Summary => ensure_summary g st
  | Histogram => ensure_histogram g st
  end.

(** *** Completion and order of the goroutines *)

(** The steps a goroutine has left at most before it has returned or ended
    the process. *)
Definition remaining (p : PC) : nat :=
  match p with
  | AtLock => 13
  | AtCheck Ops => 12
  | AtConstruct Ops => 11
  | AtCheck Summary => 10
  | AtConstruct Summary => 9
  | AtCheck Histogram => 8
  | AtConstruct Histogram => 7
  | AtRange => 6
  | AtRegister cs => 2 + length cs
  | AtFatal _ => 1
  | AtUnlock => 1
  | Returned => 0
  | Exited _ => 0
  end.

Definition remaining_steps (p : Process) : nat :=
  sum_list (remaining ∘ pc <$> goroutines p).

(** The goroutines that took the mutex, in the order they took it. *)
Definition lock_order (tr : list Event) : list nat :=
  omap (λ ev : Event, match ev.2 with ActLock => Some ev.1 | _ => None end) tr.

(** The register functions of the goroutines [ths], called one after
    another on one goroutine. *)
Definition run_in_turn (ths : list Goroutine) : M Fatal unit :=
  for_range ths (λ th, registerMetrics (its_group th) (its_ctx th)).

(** The goroutines of [p] with the numbers [order], in that order. *)
Definition goroutines_in (p : Process) (order : list nat) : list Goroutine :=
  omap (λ tid, goroutines p !! tid) order.

(** Every goroutine but [holder] is outside the mutex: it has returned, and
    is one of [done], or it has not taken the mutex yet. *)
Definition others_outside (p0 p : Process) (tr : list Event) (done : list nat)
    (holder : option nat) : Prop :=
  ∀ tid th, Some tid ≠ holder → goroutines p !! tid = Some th →
    goroutines p0 !! tid = Some (at_pc th AtLock) ∧
    ((pc th = Returned ∧ tid ∈ done) ∨ (pc th = AtLock ∧ tid ∉ lock_order tr)).

(** An execution seen as calls made in turn: either the mutex is free and
    the shared state is the one the register functions of the goroutines
    that took the mutex leave when called in that order; or one goroutine
    holds the mutex, those before it have left such a state [st_d], and the
    holder is somewhere on the way of its register function from [st_d]. *)
Inductive Serial (p0 : Process) (tr : list Event) (p : Process) : Prop :=
| serial_free :
    NoDup (lock_order tr) →
    run_in_turn (goroutines_in p0 (lock_order tr)) (shared p0) = (Ok tt, shared p) →
    mu (shared p) = false →
    others_outside p0 p tr (lock_order tr) None →
    Serial p0 tr p
| serial_held done tid th0 th st_d :
    NoDup (lock_order tr) →
    lock_order tr = done ++ [tid] →
    run_in_turn (goroutines_in p0 done) (shared p0) = (Ok tt, st_d) →
    mu st_d = false →
    goroutines p0 !! tid = Some th0 →
    pc th0 = AtLock →
    goroutines p !! tid = Some th →
    inside (pc th) = true →
    reaches st_d th0 (shared p) th →
    mu (shared p) = true →
    others_outside p0 p tr done (Some tid) →
    Serial p0 tr p.

(** ** Descriptions of the families *)

(** One family of a group through the [prometheus.Collector] interface,
    [None] when its variable is nil. *)
Definition collector_of (g : Group) (f : Family) (st : State) : option prometheus.Collector :=
  match f with
  | Ops => counter_collector <$> counters st !! ops_var g
  | Summary => summary_collector <$> summaries st !! summary_var g
  | Histogram => histogram_collector <$> histograms st !! histogram_var g
  end.

(** The descriptor the register function of group [g] gives family [f]
    when the two exported prefixes are [prefix] and [lp]. *)
Definition family_desc (prefix lp : string) (g : Group) (f : Family) : prometheus.Desc :=
  match f with
  | Ops =>
      prometheus.mkDesc (prefix +:+ ops_name g) (ops_help g) (counter_labels lp)
  | Summary =>
      prometheus.mkDesc (prefix +:+ summary_name g) (summary_help g) (latency_labels lp)
  | Histogram =>
      prometheus.mkDesc (prefix +:+ histogram_name g) (histogram_help g) (latency_labels lp)
  end.

(** Every family that exists is described the way the register functions
    describe it under the prefixes the state holds. *)
Definition described (st : State) : Prop :=
  ∀ g f c, collector_of g f st = Some c →
    prometheus.Describe c =
    family_desc (DefaultMetricPrefix st) (DefaultLabelPrefix st) g f.

(** The three variables of group [g] hold in [st'] what they hold in [st]. *)
Definition same_group (g : Group) (st st' : State) : Prop :=
  counters st' !! ops_var g = counters st !! ops_var g ∧
  summaries st' !! summary_var g = summaries st !! summary_var g ∧
  histograms st' !! histogram_var g = histograms st !! histogram_var g.

(** A scrape reads the same from both states: every count and every list
    of observations, of every family under every label tuple. *)
Definition same_values (st st' : State) : Prop :=
  (∀ x lvs, counter_value x lvs st' = counter_value x lvs st) ∧
  (∀ x lvs, summary_values x lvs st' = summary_values x lvs st) ∧
  (∀ x lvs, histogram_values x lvs st' = histogram_values x lvs st).

(** No family exists yet: a process that has constructed no wrapper. *)
Definition fresh (st : State) : Prop :=
  counters st = ∅ ∧ summaries st = ∅ ∧ histograms st = ∅.

(** ** Invocations on a nil capability *)


(** * Lemmas and theorems *)

(** ** The shared decoration, run *)

Lemma instrument_returns {A} ops sm hs o endpoint (err_of : A → error) body st a st1 cv sv hv :
  body st = (Ok a, st1) →
  counters st1 !! ops = Some cv →
  summaries st1 !! sm = Some sv →
  histograms st1 !! hs = Some hv →
  instrument ops sm hs o endpoint err_of body st =
    (Ok a, timed sm hs [Name o; Version o; ID o; endpoint] (elapsed st st1) sv hv
             (counted ops ([Name o; Version o; ID o; endpoint] ++ [status (err_of a)]) cv st1)).
Proof.
  intros Hb Hc Hs Hh.
  unfold instrument, NewTimer, defer, ObserveDuration, mbind, M_bind, mret, M_ret; simpl.
  rewrite Hb. unfold status.
  destruct (err_of a); unfold Inc; rewrite Hc; simpl;
    unfold Observe_summary; simpl; rewrite Hs; simpl;
    unfold Observe_histogram; simpl; rewrite Hh; reflexivity.
Qed.

Lemma instrument_panics {A} ops sm hs o endpoint (err_of : A → error) body st e st1 sv hv :
  body st = (Abort e, st1) →
  summaries st1 !! sm = Some sv →
  histograms st1 !! hs = Some hv →
  instrument ops sm hs o endpoint err_of body st =
    (Abort e, timed sm hs [Name o; Version o; ID o; endpoint] (elapsed st st1) sv hv st1).
Proof.
  intros Hb Hs Hh.
  unfold instrument, NewTimer, defer, ObserveDuration, mbind, M_bind, mret, M_ret; simpl.
  rewrite Hb. simpl.
  unfold Observe_summary; simpl; rewrite Hs; simpl.
  unfold Observe_histogram; simpl; rewrite Hh; reflexivity.
Qed.

(** Each decorated call path is the shared decoration of its wrapped
    operation, for its group's variables and its endpoint. *)
Lemma CallFunc_instrument w ctx addr req rsp opts :
  CallFunc w ctx addr req rsp opts =
  instrument clientOpsCounter clientTimeCounterSummary clientTimeCounterHistogram
    (options w) (client.Service req +:+ "." +:+ client.Endpoint req) id
    (match callFunc w with Some fn => fn ctx addr req rsp opts | None => nil_call end).
Proof. reflexivity. Qed.

Lemma Call_instrument w ctx req rsp opts :
  Call w ctx req rsp opts =
  instrument clientOpsCounter clientTimeCounterSummary clientTimeCounterHistogram
    (options w) (client.Service req +:+ "." +:+ client.Endpoint req) id
    (match Client w with Some c => client_Call c ctx req rsp opts | None => nil_call end).
Proof. reflexivity. Qed.

Lemma Stream_instrument w ctx req opts st :
  Stream w ctx req opts st =
  instrument clientOpsCounter clientTimeCounterSummary clientTimeCounterHistogram
    (options w) (client.Service req +:+ "." +:+ client.Endpoint req) snd
    (match Client w with Some c => client_Stream c ctx req opts | None => nil_call end) st.
Proof.
  unfold Stream, instrument, NewTimer, defer, mbind, M_bind; simpl.
  destruct (Client w) as [c|]; [|reflexivity].
  destruct (client_Stream c ctx req opts st) as [[[stream err]|e] st1]; simpl; [|reflexivity].
  destruct err; reflexivity.
Qed.

Lemma Publish_instrument w ctx p opts :
  Publish w ctx p opts =
  instrument publishOpsCounter publishTimeCounterSummary publishTimeCounterHistogram
    (options w) (client.Topic p) id
    (match Client w with Some c => client_Publish c ctx p opts | None => nil_call end).
Proof. reflexivity. Qed.

Lemma HandlerFunc_instrument w fn ctx req rsp :
  HandlerFunc w fn ctx req rsp =
  instrument serverOpsCounter serverTimeCounterSummary serverTimeCounterHistogram
    (options w) (server.Endpoint req) id (fn ctx req rsp).
Proof. reflexivity. Qed.

Lemma SubscriberFunc_instrument w fn ctx msg :
  SubscriberFunc w fn ctx msg =
  instrument subscribeOpsCounter subscribeTimeCounterSummary subscribeTimeCounterHistogram
    (options w) (server.Topic msg) id (fn ctx msg).
Proof. reflexivity. Qed.

(** Case analysis on the next metric call of a goal. *)
Ltac run_metric_call :=
  match goal with
  | |- context [Inc ?x ?l ?s] =>
      destruct (Inc x l s) as [[[]|?] ?]; simpl
  | |- context [Observe_summary ?x ?l ?v ?s] =>
      destruct (Observe_summary x l v s) as [[[]|?] ?]; simpl
  | |- context [Observe_histogram ?x ?l ?v ?s] =>
      destruct (Observe_histogram x l v s) as [[[]|?] ?]; simpl
  end.

Lemma instrument_map {A B} (f : A → B) ops sm hs o endpoint (err_of : A → error)
    (err_of' : B → error) body st :
  (∀ a, err_of' (f a) = err_of a) →
  M_map f (instrument ops sm hs o endpoint err_of body) st =
  instrument ops sm hs o endpoint err_of' (M_map f body) st.
Proof.
  intros Herr.
  unfold M_map, instrument, NewTimer, defer, ObserveDuration, mbind, M_bind, mret, M_ret; simpl.
  destruct (body st) as [[a|e] st1]; simpl;
    [rewrite Herr; destruct (err_of a); simpl|];
    repeat run_metric_call; reflexivity.
Qed.

(** Every decorated call path is the shared decoration of its wrapped
    operation under its group's variables and its label tuple. *)
Lemma decorated_instrument i st :
  decorated i st =
  instrument (ops_var (group i)) (summary_var (group i)) (histogram_var (group i))
    (config i) (endpoint_label i) result_error (wrapped i) st.
Proof.
  destruct i; simpl.
  - rewrite CallFunc_instrument. by apply instrument_map.
  - rewrite Call_instrument. by apply instrument_map.
  - unfold M_map at 1, mbind, M_bind. rewrite Stream_instrument.
    by apply (instrument_map (λ x, ResultStream x.1 x.2)).
  - rewrite Publish_instrument. by apply instrument_map.
  - rewrite HandlerFunc_instrument. by apply instrument_map.
  - rewrite SubscriberFunc_instrument. by apply instrument_map.
Qed.

(** ** What a decorated invocation leaves in the state *)

Lemma decorated_returns i st r st1 :
  wrapped i st = (Ok r, st1) →
  registered (group i) st1 →
  ∃ cv sv hv,
    counters st1 !! ops_var (group i) = Some cv ∧
    summaries st1 !! summary_var (group i) = Some sv ∧
    histograms st1 !! histogram_var (group i) = Some hv ∧
    decorated i st =
      (Ok r, timed (summary_var (group i)) (histogram_var (group i)) (labels i)
               (elapsed st st1) sv hv
               (counted (ops_var (group i)) (labels i ++ [status (result_error r)]) cv st1)).
Proof.
  intros Hw ([cv Hc] & [sv Hs] & [hv Hh]).
  exists cv, sv, hv. repeat split; try done.
  rewrite decorated_instrument.
  by apply instrument_returns.
Qed.

Lemma decorated_panics i st e st1 :
  wrapped i st = (Abort e, st1) →
  registered (group i) st1 →
  ∃ sv hv,
    summaries st1 !! summary_var (group i) = Some sv ∧
    histograms st1 !! histogram_var (group i) = Some hv ∧
    decorated i st =
      (Abort e, timed (summary_var (group i)) (histogram_var (group i)) (labels i)
                  (elapsed st st1) sv hv st1).
Proof.
  intros Hw (_ & [sv Hs] & [hv Hh]).
  exists sv, hv. repeat split; try done.
  rewrite decorated_instrument.
  by apply instrument_panics.
Qed.

Lemma counter_value_counted ops l cv st1 x lvs :
  counters st1 !! ops = Some cv →
  counter_value x lvs (counted ops l cv st1) =
  (counter_value x lvs st1 + (if decide (x = ops ∧ lvs = l) then 1 else 0))%nat.
Proof.
  intros Hc. unfold counter_value, counted; simpl.
  destruct (decide (x = ops)) as [->|Hx].
  - rewrite lookup_insert_eq, Hc; simpl.
    destruct (decide (lvs = l)) as [->|Hl].
    + rewrite lookup_insert_eq; simpl.
      rewrite decide_True by done. lia.
    + rewrite lookup_insert_ne by done.
      rewrite decide_False by tauto. lia.
  - rewrite lookup_insert_ne by done.
    rewrite decide_False by tauto. lia.
Qed.

Lemma counter_value_timed sm hs l v sv hv st x lvs :
  counter_value x lvs (timed sm hs l v sv hv st) = counter_value x lvs st.
Proof. reflexivity. Qed.

Lemma summary_values_counted ops l cv st x lvs :
  summary_values x lvs (counted ops l cv st) = summary_values x lvs st.
Proof. reflexivity. Qed.

Lemma histogram_values_counted ops l cv st x lvs :
  histogram_values x lvs (counted ops l cv st) = histogram_values x lvs st.
Proof. reflexivity. Qed.

Lemma summary_values_timed sm hs l v sv hv st x lvs :
  summaries st !! sm = Some sv →
  summary_values x lvs (timed sm hs l v sv hv st) =
  summary_values x lvs st ++
    (if decide (x = sm ∧ lvs = l) then [PrimFloat.mul v 1000000] else []).
Proof.
  intros Hs. unfold summary_values, timed; simpl.
  destruct (decide (x = sm)) as [->|Hx].
  - rewrite lookup_insert_eq, Hs; simpl.
    destruct (decide (lvs = l)) as [->|Hl].
    + rewrite lookup_insert_eq; simpl. by rewrite decide_True.
    + rewrite lookup_insert_ne by done.
      rewrite decide_False by tauto. by rewrite app_nil_r.
  - rewrite lookup_insert_ne by done.
    rewrite decide_False by tauto. by rewrite app_nil_r.
Qed.

Lemma histogram_values_timed sm hs l v sv hv st x lvs :
  histograms st !! hs = Some hv →
  histogram_values x lvs (timed sm hs l v sv hv st) =
  histogram_values x lvs st ++ (if decide (x = hs ∧ lvs = l) then [v] else []).
Proof.
  intros Hh. unfold histogram_values, timed; simpl.
  destruct (decide (x = hs)) as [->|Hx].
  - rewrite lookup_insert_eq, Hh; simpl.
    destruct (decide (lvs = l)) as [->|Hl].
    + rewrite lookup_insert_eq; simpl. by rewrite decide_True.
    + rewrite lookup_insert_ne by done.
      rewrite decide_False by tauto. by rewrite app_nil_r.
  - rewrite lookup_insert_ne by done.
    rewrite decide_False by tauto. by rewrite app_nil_r.
Qed.

(** The ops counter after a decorated invocation, against the state the
    wrapped operation left. *)
Lemma decorated_counter_value (i : Invocation) (st : State) (lvs : list string) :
  registered (group i) (wrapped i st).2 →
  counter_value (ops_var (group i)) lvs (decorated i st).2 =
  (counter_value (ops_var (group i)) lvs (wrapped i st).2 +
   match (wrapped i st).1 with
   | Ok r => if decide (lvs = labels i ++ [status (result_error r)]) then 1 else 0
   | Abort _ => 0
   end)%nat.
Proof.
  intros Hreg.
  destruct (wrapped i st) as [[r|e] st1] eqn:Hw; cbn [fst snd] in *.
  - destruct (decorated_returns i st r st1 Hw Hreg) as (cv & sv & hv & Hc & _ & _ & ->).
    cbn [fst snd].
    rewrite counter_value_timed, (counter_value_counted _ _ _ _ _ _ Hc).
    f_equal.
    destruct (decide (lvs = _)) as [->|Hne].
    + by rewrite decide_True.
    + by rewrite decide_False by tauto.
  - destruct (decorated_panics i st e st1 Hw Hreg) as (sv & hv & _ & _ & ->).
    cbn [fst snd]. rewrite counter_value_timed. lia.
Qed.

(** The latency families after a decorated invocation. *)
Lemma decorated_latency_values (i : Invocation) (st : State) (lvs : list string) :
  registered (group i) (wrapped i st).2 →
  summary_values (summary_var (group i)) lvs (decorated i st).2 =
    summary_values (summary_var (group i)) lvs (wrapped i st).2 ++
    (if decide (lvs = labels i)
     then [PrimFloat.mul (elapsed st (wrapped i st).2) 1000000] else []) ∧
  histogram_values (histogram_var (group i)) lvs (decorated i st).2 =
    histogram_values (histogram_var (group i)) lvs (wrapped i st).2 ++
    (if decide (lvs = labels i) then [elapsed st (wrapped i st).2] else []).
Proof.
  intros Hreg.
  destruct (wrapped i st) as [[r|e] st1] eqn:Hw; cbn [fst snd] in *.
  - destruct (decorated_returns i st r st1 Hw Hreg) as (cv & sv & hv & _ & Hs & Hh & ->).
    cbn [fst snd].
    rewrite summary_values_timed by exact Hs. rewrite summary_values_counted.
    rewrite histogram_values_timed by exact Hh. rewrite histogram_values_counted.
    destruct (decide (lvs = labels i)) as [->|Hne].
    + by rewrite !decide_True.
    + by rewrite !decide_False by tauto.
  - destruct (decorated_panics i st e st1 Hw Hreg) as (sv & hv & Hs & Hh & ->).
    cbn [fst snd].
    rewrite summary_values_timed by exact Hs.
    rewrite histogram_values_timed by exact Hh.
    destruct (decide (lvs = labels i)) as [->|Hne].
    + by rewrite !decide_True.
    + by rewrite !decide_False by tauto.
Qed.

(** The outcome and the rest of the state after a decorated invocation. *)
Lemma decorated_frame (i : Invocation) (st : State) :
  registered (group i) (wrapped i st).2 →
  (decorated i st).1 = (wrapped i st).1 ∧
  world (decorated i st).2 = world (wrapped i st).2 ∧
  clock (decorated i st).2 = clock (wrapped i st).2 ∧
  DefaultRegisterer (decorated i st).2 = DefaultRegisterer (wrapped i st).2 ∧
  allocated (decorated i st).2 = allocated (wrapped i st).2 ∧
  mu (decorated i st).2 = mu (wrapped i st).2 ∧
  DefaultMetricPrefix (decorated i st).2 = DefaultMetricPrefix (wrapped i st).2 ∧
  DefaultLabelPrefix (decorated i st).2 = DefaultLabelPrefix (wrapped i st).2.
Proof.
  intros Hreg.
  destruct (wrapped i st) as [[r|e] st1] eqn:Hw; cbn [fst snd] in *.
  - destruct (decorated_returns i st r st1 Hw Hreg) as (cv & sv & hv & _ & _ & _ & ->).
    done.
  - destruct (decorated_panics i st e st1 Hw Hreg) as (sv & hv & _ & _ & ->).
    done.
Qed.


(** ** Properties of the decorated call paths *)






(** ** How a register function runs *)

Lemma set_registerer_same (st : State) : set_registerer (DefaultRegisterer st) st = st.
Proof. by destruct st. Qed.

(** Each register function of the source is the generic one at its group. *)
Lemma registerMetrics_generic g : registerMetrics g = register_generic g.
Proof. by destruct g. Qed.

Lemma register_one_run ctx c st :
  register_one ctx (Some c) st =
  (match (prometheus.Register (DefaultRegisterer st) c).1 with
   | Some e =>
       if negb (is_AlreadyRegisteredError e) then Abort (LoggerFatal ctx (Error e))
       else Ok tt
   | None => Ok tt
   end,
   set_registerer (prometheus.Register (DefaultRegisterer st) c).2 st).
Proof.
  unfold register_one, mbind, M_bind, DefaultRegisterer_Register, logger_Fatal.
  destruct (prometheus.Register (DefaultRegisterer st) c) as [[e|] r']; simpl; [|done].
  by destruct (is_AlreadyRegisteredError e).
Qed.

(** The loop of a register function is [submit] on the registerer. *)
Lemma for_range_submit ctx cs st :
  for_range cs (register_one ctx) st =
  ((submit ctx (DefaultRegisterer st) cs).1,
   set_registerer (submit ctx (DefaultRegisterer st) cs).2 st).
Proof.
  revert st. induction cs as [|[c|] cs IH]; intros st; simpl.
  - by rewrite set_registerer_same.
  - unfold mbind, M_bind. rewrite register_one_run.
    destruct (prometheus.Register (DefaultRegisterer st) c) as [[e|] r'] eqn:Hr; simpl.
    + destruct (is_AlreadyRegisteredError e); simpl; [|done].
      rewrite IH. by destruct st.
    + rewrite IH. by destruct st.
  - by rewrite set_registerer_same.
Qed.

(** Reduction of the fields of a state that was built by setters. *)
Ltac state_fields :=
  cbn [fst snd DefaultRegisterer set_mu set_registerer set_counters set_summaries
       set_histograms set_allocated mu counters summaries histograms allocated
       DefaultMetricPrefix DefaultLabelPrefix clock world
       prometheus.Name prometheus.Help].

(** A register function, run: with the mutex held the goroutine can never
    go on; otherwise the three families are made sure of, the three
    collectors are submitted, and the mutex is released unless the process
    has ended. *)
Lemma registerMetrics_run g ctx st :
  registerMetrics g ctx st =
  if mu st then (Abort (RuntimeFatal "all goroutines are asleep - deadlock!"), st)
  else
    let st' := ensure g (set_mu true st) in
    let res := submit ctx (DefaultRegisterer st) (collectors g st') in
    match res.1 with
    | Ok _ => (Ok tt, set_mu false (set_registerer res.2 st'))
    | Abort e => (Abort e, set_registerer res.2 st')
    end.
Proof.
  rewrite registerMetrics_generic.
  cbv [register_generic mbind M_bind Lock defer gets mret M_ret
       NewCounterVec NewSummaryVec NewHistogramVec
       assign_counter assign_summary assign_histogram].
  destruct (mu st) eqn:Hmu; [done|].
  cbv [ensure ensure_counter ensure_summary ensure_histogram collectors
       construct_counter construct_summary construct_histogram]; state_fields.
  destruct (counters st !! ops_var g) eqn:Hc; state_fields;
  destruct (summaries st !! summary_var g) eqn:Hs; state_fields;
  destruct (histograms st !! histogram_var g) eqn:Hh; state_fields;
  rewrite for_range_submit; state_fields;
  rewrite ?Hc, ?Hs, ?Hh, ?lookup_insert_eq;
  match goal with
  | |- context [submit ?c ?r ?l] => destruct (submit c r l) as [[[]|e] r']
  end; cbn [fst snd Unlock unwinds Fatal_unwinds]; state_fields; reflexivity.
Qed.

(** ** Facts about the creation of families *)

Lemma ops_var_inj g g' : ops_var g = ops_var g' → g = g'.
Proof. by destruct g, g'. Qed.

Lemma summary_var_inj g g' : summary_var g = summary_var g' → g = g'.
Proof. by destruct g, g'. Qed.

Lemma histogram_var_inj g g' : histogram_var g = histogram_var g' → g = g'.
Proof. by destruct g, g'. Qed.

(** Unfolding of [ensure] and case analysis on the three variables. *)
Ltac ensure_cases g st :=
  unfold ensure, ensure_counter, ensure_summary, ensure_histogram,
    construct_counter, construct_summary, construct_histogram; state_fields;
  destruct (counters st !! ops_var g) eqn:?; state_fields;
  destruct (summaries st !! summary_var g) eqn:?; state_fields;
  destruct (histograms st !! histogram_var g) eqn:?; state_fields.

Lemma ensure_set_mu g b st : ensure g (set_mu b st) = set_mu b (ensure g st).
Proof. ensure_cases g st; reflexivity. Qed.

Lemma ensure_frame g st :
  mu (ensure g st) = mu st ∧
  DefaultRegisterer (ensure g st) = DefaultRegisterer st ∧
  clock (ensure g st) = clock st ∧
  world (ensure g st) = world st ∧
  DefaultMetricPrefix (ensure g st) = DefaultMetricPrefix st ∧
  DefaultLabelPrefix (ensure g st) = DefaultLabelPrefix st.
Proof. ensure_cases g st; done. Qed.

Lemma ensure_registered g st : registered g (ensure g st).
Proof.
  unfold registered. ensure_cases g st;
    rewrite ?lookup_insert_eq; repeat split; eauto.
Qed.

Lemma ensure_id g st : registered g st → ensure g st = st.
Proof.
  intros ([cv Hc] & [sv Hs] & [hv Hh]).
  unfold ensure, ensure_counter, ensure_summary, ensure_histogram.
  rewrite Hc, Hs, Hh. reflexivity.
Qed.

(** A family that exists is kept as it is, whichever group is made sure of. *)
Lemma ensure_keeps_counter g st x v :
  counters st !! x = Some v → counters (ensure g st) !! x = Some v.
Proof.
  intros Hx. ensure_cases g st; try done.
  all: destruct (decide (ops_var g = x)) as [<-|Hne]; [congruence|];
    by rewrite lookup_insert_ne.
Qed.

Lemma ensure_keeps_summary g st x v :
  summaries st !! x = Some v → summaries (ensure g st) !! x = Some v.
Proof.
  intros Hx. ensure_cases g st; try done.
  all: destruct (decide (summary_var g = x)) as [<-|Hne]; [congruence|];
    by rewrite lookup_insert_ne.
Qed.

Lemma ensure_keeps_histogram g st x v :
  histograms st !! x = Some v → histograms (ensure g st) !! x = Some v.
Proof.
  intros Hx. ensure_cases g st; try done.
  all: destruct (decide (histogram_var g = x)) as [<-|Hne]; [congruence|];
    by rewrite lookup_insert_ne.
Qed.

(** The variables of the other groups are not touched. *)
Lemma ensure_other_group g g' st :
  g ≠ g' →
  counters (ensure g st) !! ops_var g' = counters st !! ops_var g' ∧
  summaries (ensure g st) !! summary_var g' = summaries st !! summary_var g' ∧
  histograms (ensure g st) !! histogram_var g' = histograms st !! histogram_var g'.
Proof.
  intros Hne.
  assert (ops_var g ≠ ops_var g') by (intros ?%ops_var_inj; done).
  assert (summary_var g ≠ summary_var g') by (intros ?%summary_var_inj; done).
  assert (histogram_var g ≠ histogram_var g') by (intros ?%histogram_var_inj; done).
  ensure_cases g st; rewrite ?lookup_insert_ne by done; done.
Qed.

Lemma ensure_keeps_registered g g' st : registered g' st → registered g' (ensure g st).
Proof.
  intros ([cv Hc] & [sv Hs] & [hv Hh]). unfold registered.
  rewrite (ensure_keeps_counter _ _ _ _ Hc), (ensure_keeps_summary _ _ _ _ Hs),
    (ensure_keeps_histogram _ _ _ _ Hh). eauto.
Qed.

(** The collectors of a group whose families exist. *)
Lemma registered_collectors g st :
  registered g st →
  ∃ c1 c2 c3, collectors g st = [Some c1; Some c2; Some c3].
Proof.
  intros ([cv Hc] & [sv Hs] & [hv Hh]). unfold collectors.
  rewrite Hc, Hs, Hh. simpl. eauto.
Qed.

Lemma collectors_ensure_keeps g g' st :
  registered g' st → collectors g' (ensure g st) = collectors g' st.
Proof.
  intros ([cv Hc] & [sv Hs] & [hv Hh]). unfold collectors.
  rewrite (ensure_keeps_counter _ _ _ _ Hc), (ensure_keeps_summary _ _ _ _ Hs),
    (ensure_keeps_histogram _ _ _ _ Hh).
  by rewrite Hc, Hs, Hh.
Qed.

(** ** A register function on a free mutex *)

Lemma set_mu_release r (st : State) :
  mu st = false →
  set_mu false (set_registerer r (set_mu true st)) = set_registerer r st.
Proof. destruct st; simpl; intros ->; reflexivity. Qed.

Lemma registerMetrics_free g ctx st :
  mu st = false →
  registerMetrics g ctx st =
  let res := submit ctx (DefaultRegisterer st) (collectors g (ensure g st)) in
  match res.1 with
  | Ok _ => (Ok tt, set_registerer res.2 (ensure g st))
  | Abort e => (Abort e, set_registerer res.2 (set_mu true (ensure g st)))
  end.
Proof.
  intros Hmu. rewrite registerMetrics_run, Hmu. cbn zeta.
  rewrite ensure_set_mu.
  change (collectors g (set_mu true (ensure g st))) with (collectors g (ensure g st)).
  destruct (submit _ _ _) as [[[]|e] r']; cbn [fst snd]; [|done].
  rewrite set_mu_release; [done|].
  by destruct (ensure_frame g st) as (-> & _).
Qed.

(** The loop, against the relation of the specification. *)
Lemma submit_registration ctx r cs :
  registration ctx r cs (submit ctx r (Some <$> cs)).1 (submit ctx r (Some <$> cs)).2.
Proof.
  revert r. induction cs as [|c cs IH]; intros r; simpl.
  - constructor.
  - destruct (prometheus.Register r c) as [[[existing new|msg]|] r'] eqn:Hr; simpl.
    + eapply registration_already_registered; eauto.
    + by eapply registration_fatal.
    + eapply registration_success; eauto.
Qed.

Lemma registration_outcome ctx r cs out r' :
  registration ctx r cs out r' →
  out = Ok tt ∨ ∃ msg, out = Abort (LoggerFatal ctx msg).
Proof. induction 1; eauto. Qed.

(** ** Registering again *)

Lemma settled_registered g st : settled g st → registered g st.
Proof.
  intros (cs & Hcs & _). unfold collectors in Hcs. unfold registered.
  destruct cs as [|c1 [|c2 [|c3 cs]]]; try discriminate.
  simpl in Hcs. injection Hcs as H1 H2 H3 _.
  destruct (counters st !! ops_var g); [|discriminate].
  destruct (summaries st !! summary_var g); [|discriminate].
  destruct (histograms st !! histogram_var g); [|discriminate].
  eauto.
Qed.

Lemma known_submit ctx r cs c :
  lawful → known r c → known (submit ctx r cs).2 c.
Proof.
  intros (_ & _ & Hkeep). revert r.
  induction cs as [|[c'|] cs IH]; intros r Hk; simpl; try done.
  destruct (prometheus.Register r c') as [err r'] eqn:Hr.
  pose proof (Hkeep _ _ _ _ _ Hk Hr) as Hk'.
  destruct err as [e|]; [|by apply IH].
  destruct (negb (is_AlreadyRegisteredError e)); [done|by apply IH].
Qed.

Lemma submit_known_id ctx r cs :
  Forall (known r) cs → submit ctx r (Some <$> cs) = (Ok tt, r).
Proof.
  induction 1 as [|c cs (existing & new & Hc) _ IH]; simpl; [done|].
  by rewrite Hc.
Qed.

Lemma submit_ok_known ctx r cs :
  lawful →
  (submit ctx r (Some <$> cs)).1 = Ok tt →
  Forall (known (submit ctx r (Some <$> cs)).2) cs.
Proof.
  intros Hlaw. pose proof Hlaw as (Hnew & Hdup & _). revert r.
  induction cs as [|c cs IH]; intros r Hok; simpl in *; [constructor|].
  destruct (prometheus.Register r c) as [[[existing new|msg]|] r'] eqn:Hr; simpl in *.
  - constructor; [|by apply IH].
    apply known_submit; [done|]. by eapply Hdup.
  - discriminate.
  - constructor; [|by apply IH].
    apply known_submit; [done|]. by eapply Hnew.
Qed.

Lemma register_settled_id g ctx st :
  settled g st → mu st = false → registerMetrics g ctx st = (Ok tt, st).
Proof.
  intros Hs Hmu. pose proof (settled_registered _ _ Hs) as Hreg.
  destruct Hs as (cs & Hcs & Hk).
  rewrite registerMetrics_free by done. cbn zeta.
  rewrite (ensure_id _ _ Hreg), Hcs, (submit_known_id _ _ _ Hk). cbn [fst snd].
  by rewrite set_registerer_same.
Qed.

Lemma register_settles g ctx st st' :
  lawful → mu st = false →
  registerMetrics g ctx st = (Ok tt, st') →
  settled g st' ∧ mu st' = false ∧ ∀ g', settled g' st → settled g' st'.
Proof.
  intros Hlaw Hmu. rewrite registerMetrics_free by done. cbn zeta.
  destruct (registered_collectors g _ (ensure_registered g st)) as (c1 & c2 & c3 & Hcs).
  rewrite Hcs.
  change [Some c1; Some c2; Some c3] with (Some <$> [c1; c2; c3]).
  destruct (submit ctx (DefaultRegisterer st) (Some <$> [c1; c2; c3])) as [[[]|e] r'] eqn:Hsub;
    cbn [fst snd]; [|discriminate].
  intros [= <-]. split; [|split].
  - exists [c1; c2; c3]. split; [done|]. state_fields.
    pose proof (submit_ok_known ctx (DefaultRegisterer st) [c1; c2; c3] Hlaw) as Hk.
    rewrite Hsub in Hk. by apply Hk.
  - destruct (ensure_frame g st) as (Hm & _). state_fields. by rewrite Hm.
  - intros g' Hs'. pose proof (settled_registered _ _ Hs') as Hreg'.
    destruct Hs' as (cs & Hcs' & Hk). exists cs. split.
    + change (collectors g' (set_registerer r' (ensure g st)))
        with (collectors g' (ensure g st)).
      by rewrite collectors_ensure_keeps.
    + state_fields.
      replace r' with (submit ctx (DefaultRegisterer st) (Some <$> [c1; c2; c3])).2
        by (by rewrite Hsub).
      eapply Forall_impl; [exact Hk|]. intros c Hc. by apply known_submit.
Qed.

(** Running a register function a second time changes nothing. *)
Lemma registerMetrics_twice g ctx ctx' st :
  lawful → mu st = false →
  (registerMetrics g ctx;; registerMetrics g ctx') st = registerMetrics g ctx st.
Proof.
  intros Hlaw Hmu. unfold mbind, M_bind.
  destruct (registerMetrics g ctx st) as [[[]|e] st'] eqn:Hrun; [|done].
  destruct (register_settles _ _ _ _ Hlaw Hmu Hrun) as (Hs & Hmu' & _).
  by apply register_settled_id.
Qed.

(** Families that exist are the same objects after a register function. *)
Lemma registerMetrics_keeps_objects g ctx st :
  registered g st →
  counters (registerMetrics g ctx st).2 = counters st ∧
  summaries (registerMetrics g ctx st).2 = summaries st ∧
  histograms (registerMetrics g ctx st).2 = histograms st ∧
  allocated (registerMetrics g ctx st).2 = allocated st.
Proof.
  intros Hreg. rewrite registerMetrics_run.
  destruct (mu st); [done|]. cbn zeta.
  rewrite ensure_set_mu, (ensure_id _ _ Hreg).
  by destruct (submit _ _ _) as [[[]|e] r'].
Qed.

(** ** The constructors *)

Lemma construct_run k opts st :
  construct k opts st =
  for_range (groups_of k) (λ g, registerMetrics g (Context (apply_options opts))) st.
Proof.
  destruct k; cbv [construct NewClientWrapper NewCallWrapper NewHandlerWrapper
    NewSubscriberWrapper groups_of for_range mbind M_bind mret M_ret];
    change registerClientMetrics with (registerMetrics ClientGroup);
    change registerPublishMetrics with (registerMetrics PublishGroup);
    change registerServerMetrics with (registerMetrics ServerGroup);
    change registerSubscribeMetrics with (registerMetrics SubscribeGroup);
    repeat match goal with
    | |- context [registerMetrics ?g ?c ?s] =>
        destruct (registerMetrics g c s) as [[[]|?] ?]
    end; reflexivity.
Qed.

Lemma register_all_settles gs ctx st st' :
  lawful → mu st = false →
  for_range gs (λ g, registerMetrics g ctx) st = (Ok tt, st') →
  mu st' = false ∧ Forall (λ g, settled g st') gs ∧ ∀ g, settled g st → settled g st'.
Proof.
  intros Hlaw. revert st.
  induction gs as [|g gs IH]; intros st Hmu; simpl.
  - intros [= <-]. by repeat split.
  - unfold mbind, M_bind.
    destruct (registerMetrics g ctx st) as [[[]|e] st1] eqn:Hrun; [|discriminate].
    intros Hrest.
    destruct (register_settles _ _ _ _ Hlaw Hmu Hrun) as (Hs & Hmu1 & Hkeep1).
    destruct (IH _ Hmu1 Hrest) as (Hmu' & Hall & Hkeep).
    split; [done|]. split; [|by auto].
    constructor; [by apply Hkeep|done].
Qed.

Lemma register_all_settled_id gs ctx st :
  Forall (λ g, settled g st) gs → mu st = false →
  for_range gs (λ g, registerMetrics g ctx) st = (Ok tt, st).
Proof.
  induction 1 as [|g gs Hg _ IH]; intros Hmu; simpl; [done|].
  unfold mbind, M_bind. rewrite (register_settled_id _ _ _ Hg Hmu). by apply IH.
Qed.

Lemma construct_twice k opts opts' st :
  lawful → mu st = false →
  (construct k opts;; construct k opts') st = construct k opts st.
Proof.
  intros Hlaw Hmu. unfold mbind, M_bind. rewrite !construct_run.
  destruct (for_range _ _ st) as [[[]|e] st'] eqn:Hrun; [|done].
  destruct (register_all_settles _ _ _ _ Hlaw Hmu Hrun) as (Hmu' & Hall & _).
  rewrite construct_run. by apply register_all_settled_id.
Qed.

(** Once a constructor has returned, the families of its groups exist. *)
Lemma construct_registered k opts st st' :
  construct k opts st = (Ok tt, st') →
  ∀ g, g ∈ groups_of k → registered g st'.
Proof.
  rewrite construct_run.
  assert (Hgen : ∀ gs ctx s s',
    for_range gs (λ g, registerMetrics g ctx) s = (Ok tt, s') →
    (∀ g, registered g s → registered g s') ∧ ∀ g, g ∈ gs → registered g s').
  { induction gs as [|g gs IH]; intros ctx s s'; simpl.
    - intros [= <-]. split; [done|]. intros g Hg. by apply elem_of_nil in Hg.
    - unfold mbind, M_bind. rewrite registerMetrics_run.
      destruct (mu s); [discriminate|]. cbn zeta.
      destruct (submit _ _ _) as [[[]|e] r']; cbn [fst snd]; [|discriminate].
      intros Hrest. destruct (IH _ _ _ Hrest) as (Hkeep & Hin).
      assert (Hstep : ∀ g', registered g' (ensure g s) →
        registered g' (set_mu false (set_registerer r' (ensure g (set_mu true s))))).
      { intros g' Hg'. rewrite ensure_set_mu. exact Hg'. }
      split.
      + intros g' Hg'. apply Hkeep, Hstep. by apply ensure_keeps_registered.
      + intros g' [->|Hg']%elem_of_cons; [|by apply Hin].
        apply Hkeep, Hstep, ensure_registered. }
  intros Hrun. by apply (Hgen _ _ _ _ Hrun).
Qed.

Lemma submit_ok_submitted ctx r cs :
  (submit ctx r cs).1 = Ok tt → (submit ctx r cs).2 = submitted r cs.
Proof.
  revert r. induction cs as [|[c|] cs IH]; intros r; simpl; [done| |discriminate].
  destruct (prometheus.Register r c) as [[e|] r']; simpl; [|by apply IH].
  destruct (negb (is_AlreadyRegisteredError e)); [discriminate|by apply IH].
Qed.

Lemma submitted_app r cs cs' :
  submitted r (cs ++ cs') = submitted (submitted r cs) cs'.
Proof. unfold submitted. apply foldl_app. Qed.

(** The state a register function returns in. *)
Lemma registerMetrics_returns g ctx st st' :
  registerMetrics g ctx st = (Ok tt, st') →
  mu st = false ∧
  st' = set_registerer (submitted (DefaultRegisterer st) (collectors g (ensure g st)))
          (ensure g st).
Proof.
  intros Hrun.
  assert (Hmu : mu st = false).
  { rewrite registerMetrics_run in Hrun. by destruct (mu st). }
  split; [done|]. revert Hrun.
  rewrite registerMetrics_free by done. cbn zeta.
  pose proof (submit_ok_submitted ctx (DefaultRegisterer st) (collectors g (ensure g st))) as Hsub.
  destruct (submit _ _ _) as [[[]|e] r']; cbn [fst snd] in *; [|discriminate].
  intros [= <-]. by rewrite <- Hsub.
Qed.

(** ** Properties of registration and construction *)

(** C5. In each of the four register functions, run with the mutex free, the
    three collectors of the group are submitted in turn; an
    [AlreadyRegisteredError] is passed over like a nil error, any other error
    ends the process at once through [logger.Fatal] with the error's message;
    the function returns nothing, so it either returns normally or the
    process has ended, and no error reaches the caller. *)
Theorem registration_errors_ignored_or_fatal (g : Group) (ctx : context.Context) (st : State) :
  mu st = false →
  ∃ c1 c2 c3,
    collectors g (ensure g st) = [Some c1; Some c2; Some c3] ∧
    registration ctx (DefaultRegisterer st) [c1; c2; c3]
      (registerMetrics g ctx st).1 (DefaultRegisterer (registerMetrics g ctx st).2) ∧
    ((registerMetrics g ctx st).1 = Ok tt ∨
     ∃ msg, (registerMetrics g ctx st).1 = Abort (LoggerFatal ctx msg)).
Proof.
  intros Hmu.
  destruct (registered_collectors g _ (ensure_registered g st)) as (c1 & c2 & c3 & Hcs).
  exists c1, c2, c3. split; [done|].
  assert (Hreg : registration ctx (DefaultRegisterer st) [c1; c2; c3]
    (registerMetrics g ctx st).1 (DefaultRegisterer (registerMetrics g ctx st).2)).
  { rewrite registerMetrics_free by done. cbn zeta. rewrite Hcs.
    pose proof (submit_registration ctx (DefaultRegisterer st) [c1; c2; c3]) as Hsub.
    change (Some <$> [c1; c2; c3]) with [Some c1; Some c2; Some c3] in Hsub.
    destruct (submit ctx (DefaultRegisterer st) [Some c1; Some c2; Some c3])
      as [[[]|e] r']; exact Hsub. }
  split; [done|]. by eapply registration_outcome.
Qed.

(** C6. Registration belongs to construction and is idempotent.  With a
    registerer that keeps what it accepted and the mutex free: constructing
    a second wrapper through the same constructor leaves the state of the
    first construction; once a constructor has returned, the families of its
    groups exist; a register function run twice gives what one run gives;
    families that exist are left the same objects by a register function;
    and a decorated invocation neither registers nor creates anything. *)
Theorem registration_at_construction_idempotent (k : Constructor)
    (opts opts' : list Option) (st : State) :
  lawful →
  mu st = false →
  (construct k opts;; construct k opts') st = construct k opts st ∧
  (∀ st', construct k opts st = (Ok tt, st') → ∀ g, g ∈ groups_of k → registered g st') ∧
  (∀ g ctx ctx',
     (registerMetrics g ctx;; registerMetrics g ctx') st = registerMetrics g ctx st) ∧
  (∀ g ctx, registered g st →
     counters (registerMetrics g ctx st).2 = counters st ∧
     summaries (registerMetrics g ctx st).2 = summaries st ∧
     histograms (registerMetrics g ctx st).2 = histograms st ∧
     allocated (registerMetrics g ctx st).2 = allocated st) ∧
  (∀ i, registered (group i) (wrapped i st).2 →
     DefaultRegisterer (decorated i st).2 = DefaultRegisterer (wrapped i st).2 ∧
     allocated (decorated i st).2 = allocated (wrapped i st).2).
Proof.
  intros Hlaw Hmu. split; [|split; [|split; [|split]]].
  - by apply construct_twice.
  - intros st' Hrun. by eapply construct_registered.
  - intros g ctx ctx'. by apply registerMetrics_twice.
  - intros g ctx Hreg. by apply registerMetrics_keeps_objects.
  - intros i Hreg. destruct (decorated_frame i st Hreg) as (_ & _ & _ & Hr & Ha & _). done.
Qed.

(** C9. With no options the configuration has empty name, version and id and
    the background context; the options are applied in order, each of the
    four named options sets its own field and keeps the other three; and the
    wrapper each constructor returns holds the resulting configuration. *)
Theorem options_default_and_captured :
  apply_options [] =
    {| Name := ""; Version := ""; ID := ""; Context := context.Background |} ∧
  (∀ opts o, apply_options (opts ++ [o]) = o (apply_options opts)) ∧
  (∀ name o, Name (ServiceName name o) = name ∧ Version (ServiceName name o) = Version o ∧
     ID (ServiceName name o) = ID o ∧ Context (ServiceName name o) = Context o) ∧
  (∀ version o, Name (ServiceVersion version o) = Name o ∧
     Version (ServiceVersion version o) = version ∧
     ID (ServiceVersion version o) = ID o ∧ Context (ServiceVersion version o) = Context o) ∧
  (∀ id o, Name (ServiceID id o) = Name o ∧ Version (ServiceID id o) = Version o ∧
     ID (ServiceID id o) = id ∧ Context (ServiceID id o) = Context o) ∧
  (∀ ctx o, Name (ContextOption ctx o) = Name o ∧ Version (ContextOption ctx o) = Version o ∧
     ID (ContextOption ctx o) = ID o ∧ Context (ContextOption ctx o) = ctx) ∧
  (∀ opts st mk st', NewClientWrapper opts st = (Ok mk, st') →
     ∀ c, mk c = {| options := apply_options opts; callFunc := None; Client := Some c |}) ∧
  (∀ opts st mk st', NewCallWrapper opts st = (Ok mk, st') →
     ∀ fn, mk fn =
       CallFunc {| options := apply_options opts; callFunc := Some fn; Client := None |}) ∧
  (∀ opts st mk st', NewHandlerWrapper opts st = (Ok mk, st') →
     mk = HandlerFunc {| options := apply_options opts; callFunc := None; Client := None |}) ∧
  (∀ opts st mk st', NewSubscriberWrapper opts st = (Ok mk, st') →
     mk = SubscriberFunc {| options := apply_options opts; callFunc := None; Client := None |}).
Proof.
  split; [done|]. split; [intros; unfold apply_options; by rewrite foldl_snoc|].
  do 4 (split; [done|]).
  split; [|split; [|split]].
  - intros opts st mk st'. unfold NewClientWrapper, mbind, M_bind, mret, M_ret.
    destruct (registerClientMetrics _ st) as [[[]|e] st1]; [|discriminate].
    destruct (registerPublishMetrics _ st1) as [[[]|e] st2]; [|discriminate].
    by intros [= <- _].
  - intros opts st mk st'. unfold NewCallWrapper, mbind, M_bind, mret, M_ret.
    destruct (registerClientMetrics _ st) as [[[]|e] st1]; [|discriminate].
    by intros [= <- _].
  - intros opts st mk st'. unfold NewHandlerWrapper, mbind, M_bind, mret, M_ret.
    destruct (registerServerMetrics _ st) as [[[]|e] st1]; [|discriminate].
    by intros [= <- _].
  - intros opts st mk st'. unfold NewSubscriberWrapper, mbind, M_bind, mret, M_ret.
    destruct (registerSubscribeMetrics _ st) as [[[]|e] st1]; [|discriminate].
    by intros [= <- _].
Qed.

(** C10. When [NewClientWrapper] returns, the families of the client group
    and of the publish group exist and the registerer has been handed the
    three client collectors and then the three publish collectors; when
    [NewCallWrapper] returns, the families of the client group exist, the
    registerer has been handed the three client collectors only, and the
    variables of the publish group (and of the server and subscribe groups)
    are as they were, nil if they were nil. *)
Theorem client_wrapper_registers_publish_too (opts : list Option) (st : State) :
  (∀ mk st', NewClientWrapper opts st = (Ok mk, st') →
     registered ClientGroup st' ∧ registered PublishGroup st' ∧
     DefaultRegisterer st' =
       submitted (DefaultRegisterer st)
         (collectors ClientGroup st' ++ collectors PublishGroup st') ∧
     ∀ g, g ≠ ClientGroup → g ≠ PublishGroup →
       counters st' !! ops_var g = counters st !! ops_var g ∧
       summaries st' !! summary_var g = summaries st !! summary_var g ∧
       histograms st' !! histogram_var g = histograms st !! histogram_var g) ∧
  (∀ mk st', NewCallWrapper opts st = (Ok mk, st') →
     registered ClientGroup st' ∧
     DefaultRegisterer st' =
       submitted (DefaultRegisterer st) (collectors ClientGroup st') ∧
     ∀ g, g ≠ ClientGroup →
       counters st' !! ops_var g = counters st !! ops_var g ∧
       summaries st' !! summary_var g = summaries st !! summary_var g ∧
       histograms st' !! histogram_var g = histograms st !! histogram_var g).
Proof.
  split.
  - intros mk st'. unfold NewClientWrapper, mbind, M_bind, mret, M_ret.
    change registerClientMetrics with (registerMetrics ClientGroup).
    change registerPublishMetrics with (registerMetrics PublishGroup).
    destruct (registerMetrics ClientGroup _ st) as [[[]|e] st1] eqn:Hc; [|discriminate].
    destruct (registerMetrics PublishGroup _ st1) as [[[]|e] st2] eqn:Hp; [|discriminate].
    intros [= _ <-].
    apply registerMetrics_returns in Hc as (_ & ->).
    apply registerMetrics_returns in Hp as (_ & ->).
    set (st1 := set_registerer _ (ensure ClientGroup st)).
    assert (Hreg1 : registered ClientGroup st1) by apply ensure_registered.
    assert (Hcs : collectors ClientGroup (ensure PublishGroup st1) =
                  collectors ClientGroup (ensure ClientGroup st))
      by (by rewrite collectors_ensure_keeps).
    split; [by apply (ensure_keeps_registered PublishGroup ClientGroup st1)|].
    split; [by apply (ensure_registered PublishGroup st1)|].
    split.
    + rewrite submitted_app.
      change (collectors ClientGroup (set_registerer _ (ensure PublishGroup st1)))
        with (collectors ClientGroup (ensure PublishGroup st1)).
      change (collectors PublishGroup (set_registerer _ (ensure PublishGroup st1)))
        with (collectors PublishGroup (ensure PublishGroup st1)).
      rewrite Hcs. reflexivity.
    + intros g Hgc Hgp. state_fields.
      destruct (ensure_other_group PublishGroup g st1) as (-> & -> & ->); [done|].
      subst st1. state_fields.
      by apply ensure_other_group.
  - intros mk st'. unfold NewCallWrapper, mbind, M_bind, mret, M_ret.
    change registerClientMetrics with (registerMetrics ClientGroup).
    destruct (registerMetrics ClientGroup _ st) as [[[]|e] st1] eqn:Hc; [|discriminate].
    intros [= _ <-].
    apply registerMetrics_returns in Hc as (_ & ->).
    split; [by apply ensure_registered|].
    split; [done|].
    intros g Hg. state_fields. by apply ensure_other_group.
Qed.

(** ** One step of a goroutine *)

Lemma present_same st st' g f :
  same_families st st' → present g f st' = present g f st.
Proof. intros (Hc & Hs & Hh). unfold present. by rewrite Hc, Hs, Hh. Qed.

Lemma present_construct g f st : present g f (construct_family g f st) = true.
Proof.
  destruct f; unfold present, construct_family, construct_counter, construct_summary,
    construct_histogram; state_fields; rewrite lookup_insert_eq;
    by apply bool_decide_eq_true.
Qed.

Lemma present_construct_other g f g' f' st :
  ¬ (g' = g ∧ f' = f) →
  present g' f' (construct_family g f st) = present g' f' st.
Proof.
  intros Hne.
  destruct f, f'; unfold present, construct_family, construct_counter, construct_summary,
    construct_histogram; state_fields; try reflexivity;
    (rewrite lookup_insert_ne; [reflexivity|]);
    [intros ?%ops_var_inj|intros ?%summary_var_inj|intros ?%histogram_var_inj];
    by apply Hne.
Qed.

Lemma present_monotone_construct g f g' f' st :
  present g' f' st = true → present g' f' (construct_family g f st) = true.
Proof.
  intros Hp. destruct (decide (g' = g ∧ f' = f)) as [[-> ->]|Hne].
  - apply present_construct.
  - by rewrite present_construct_other.
Qed.

Lemma mu_construct_family g f st : mu (construct_family g f st) = mu st.
Proof. by destruct f. Qed.

Lemma passed_after_block f f' :
  passed (after_block f) f' = (before f' f || bool_decide (f' = f)).
Proof. by destruct f, f'. Qed.

Lemma goroutine_step_kind st th a st' th' :
  goroutine_step st th = Some (a, st', th') →
  its_group th' = its_group th ∧ StepKind st th a st' th'.
Proof.
  unfold goroutine_step. destruct th as [g ctx p]; simpl.
  destruct p as [|f|f| |[|[c|] cs]|msg| | |e]; try discriminate.
  - destruct (mu st) eqn:Hmu; [discriminate|]. intros [= <- <- <-].
    split; [done|]. by apply kind_lock.
  - destruct (present g f st) eqn:Hp; intros [= <- <- <-]; (split; [done|]).
    + by eapply kind_check_present.
    + by eapply kind_check_nil.
  - intros [= <- <- <-]. split; [done|]. by eapply kind_construct.
  - intros [= <- <- <-]. split; [done|]. by apply kind_late.
  - intros [= <- <- <-]. split; [done|]. by apply kind_late.
  - destruct (prometheus.Register (DefaultRegisterer st) c) as [err r].
    intros [= <- <- <-]. split; [done|].
    apply kind_late; try done; simpl.
    + intros f. destruct err as [e|]; [|done]. by destruct (negb _).
    + destruct err as [e|]; [|done]. by destruct (negb _).
  - intros [= <- <- <-]. split; [done|]. by apply kind_late.
  - intros [= <- <- <-]. split; [done|]. by apply kind_late.
  - destruct (mu st) eqn:Hmu; intros [= <- <- <-]; (split; [done|]).
    + by apply kind_unlock.
    + by apply kind_late.
Qed.

(** ** The invariant of an execution *)

Lemma constructions_snoc g f tr ev :
  constructions g f (tr ++ [ev]) =
  (constructions g f tr + Nat.b2n (is_construction g f ev))%nat.
Proof.
  unfold constructions. rewrite filter_app, length_app. f_equal.
  destruct (is_construction g f ev) eqn:He.
  - by rewrite filter_cons_True.
  - rewrite filter_cons_False; [done|]. by rewrite He.
Qed.

Lemma Invariant_start p0 : starting p0 → Invariant p0 [] p0.
Proof.
  intros [Hmu Hall].
  assert (Hpc : ∀ tid th, goroutines p0 !! tid = Some th → pc th = AtLock).
  { intros tid th Hth. by eapply (Forall_lookup_1 _ _ _ _ Hall). }
  split.
  - intros tid th Hth. by rewrite (Hpc _ _ Hth).
  - intros tid1 tid2 th1 th2 H1 _. by rewrite (Hpc _ _ H1).
  - intros tid th f Hth. by rewrite (Hpc _ _ Hth).
  - intros tid th f Hth. by rewrite (Hpc _ _ Hth).
  - done.
Qed.

Lemma inside_passed p f : passed p f = true → p ≠ Returned → inside p = true.
Proof. by destruct p. Qed.

(** What a step of a goroutine keeps and changes, from what held of the
    goroutine before. *)
Lemma StepKind_facts st th a st' th' tid :
  its_group th' = its_group th →
  StepKind st th a st' th' →
  (inside (pc th) = true → mu st = true) →
  (∀ f, pc th = AtConstruct f → present (its_group th) f st = false) →
  (∀ f, passed (pc th) f = true → present (its_group th) f st = true) →
  (inside (pc th) = true ∨ mu st = false) ∧
  (inside (pc th') = true → mu st' = true) ∧
  (∀ f, pc th' = AtConstruct f → present (its_group th') f st' = false) ∧
  (∀ f, passed (pc th') f = true → present (its_group th') f st' = true) ∧
  (∀ g f, (Nat.b2n (is_construction g f (tid, a)) + Nat.b2n (present g f st))%nat =
          Nat.b2n (present g f st')).
Proof.
  intros Hgroup Hkind Hmutex Hnil Hpassed. rewrite Hgroup.
  destruct Hkind as
    [Hpc Hmu -> -> Hpc'
    |f0 Hpc Hpres -> -> Hpc'
    |f0 Hpc Hpres -> -> Hpc'
    |f0 Hpc -> -> Hpc'
    |Hpast Hpast' Hnr Hnr' Hname Hact Hsame Hmu
    |Hpc Hmu -> -> Hpc'].
  - (* lock *)
    rewrite Hpc'. split; [by right|]. split; [done|]. split; [done|]. split; [by intros []|done].
  - (* nil check on a family that exists *)
    rewrite Hpc in *. rewrite Hpc'. split; [|split; [|split; [|split]]].
    + by left.
    + intros _. by apply Hmutex.
    + intros f. by destruct f0.
    + intros f. rewrite passed_after_block. intros [Hb| ->%bool_decide_eq_true]%orb_true_iff.
      * by apply Hpassed.
      * done.
    + done.
  - (* nil check on a nil family *)
    rewrite Hpc in *. rewrite Hpc'. split; [|split; [|split; [|split]]].
    + by left.
    + intros _. by apply Hmutex.
    + by intros f [= <-].
    + intros f Hb. by apply Hpassed.
    + done.
  - (* construction *)
    rewrite Hpc in *. rewrite Hpc'. split; [|split; [|split; [|split]]].
    + by left.
    + intros _. rewrite mu_construct_family. by apply Hmutex.
    + intros f. by destruct f0.
    + intros f. rewrite passed_after_block. intros [Hb| ->%bool_decide_eq_true]%orb_true_iff.
      * apply present_monotone_construct. by apply Hpassed.
      * apply present_construct.
    + intros g f. unfold is_construction. simpl.
      destruct (decide (its_group th = g ∧ f0 = f)) as [[<- <-]|Hne].
      * rewrite bool_decide_eq_true_2 by done.
        rewrite (Hnil f0 eq_refl), present_construct. done.
      * rewrite bool_decide_eq_false_2 by done.
        rewrite present_construct_other; [done|]. intros [-> ->]. by apply Hne.
  - (* the loop, the fatal log, a crash *)
    assert (Hin : inside (pc th) = true) by (by apply (inside_passed _ Ops)).
    assert (Hin' : inside (pc th') = true) by (by apply (inside_passed _ Ops)).
    split; [|split; [|split; [|split]]].
    + by left.
    + intros _. rewrite Hmu. by apply Hmutex.
    + intros f Hc. specialize (Hpast' f). rewrite Hc in Hpast'. by destruct f.
    + intros f _. rewrite (present_same _ _ _ _ Hsame). by apply Hpassed.
    + intros g f. rewrite (present_same _ _ _ _ Hsame).
      unfold is_construction. simpl. destruct a; try done. by destruct (Hact g0 f0).
  - (* unlock *)
    rewrite Hpc in *. rewrite Hpc'. split; [by left|]. split; [done|]. split; [done|].
    split; [|done]. intros f _. by apply (Hpassed f).
Qed.

Lemma Invariant_step p0 tr p ev p' :
  Invariant p0 tr p → step p ev p' → Invariant p0 (tr ++ [ev]) p'.
Proof.
  intros [Hmutex Hone Hnil Hpassed Hcount] Hstep.
  destruct Hstep as [p tid th a st' th' _ Hth Hgo].
  apply goroutine_step_kind in Hgo as [Hgroup Hkind].
  assert (Hlen : (tid < length (goroutines p))%nat) by (by eapply lookup_lt_Some).
  destruct (StepKind_facts _ _ _ _ _ tid Hgroup Hkind (Hmutex _ _ Hth)
              (λ f, Hnil _ _ f Hth) (λ f, Hpassed _ _ f Hth))
    as (Hturn & Hmutex' & Hnil' & Hpassed' & Hcount').
  (* while this goroutine steps, every other one is outside *)
  assert (Hothers : ∀ tid2 th2,
    tid2 ≠ tid → goroutines p !! tid2 = Some th2 → inside (pc th2) = false).
  { intros tid2 th2 Hne Hth2. destruct (inside (pc th2)) eqn:Hin2; [|done].
    destruct Hturn as [Hin|Hfree].
    - by destruct Hne; apply (Hone tid2 tid th2 th).
    - rewrite (Hmutex _ _ Hth2 Hin2) in Hfree. discriminate. }
  assert (Hwho : ∀ tid2 th2,
    <[tid := th']> (goroutines p) !! tid2 = Some th2 → inside (pc th2) = true →
    tid2 = tid ∧ th2 = th').
  { intros tid2 th2 Hth2 Hin2. destruct (decide (tid2 = tid)) as [->|Hne].
    - rewrite list_lookup_insert_eq in Hth2 by done. by injection Hth2.
    - rewrite list_lookup_insert_ne in Hth2 by done.
      rewrite (Hothers _ _ Hne Hth2) in Hin2. discriminate. }
  split; simpl.
  - intros tid2 th2 Hth2 Hin2.
    destruct (Hwho _ _ Hth2 Hin2) as [-> ->]. by apply Hmutex'.
  - intros tid1 tid2 th1 th2 H1 H2 Hin1 Hin2.
    destruct (Hwho _ _ H1 Hin1) as [-> _]. by destruct (Hwho _ _ H2 Hin2) as [-> _].
  - intros tid2 th2 f Hth2 Hc.
    destruct (Hwho _ _ Hth2) as [-> ->]; [by rewrite Hc|]. by apply Hnil'.
  - intros tid2 th2 f Hth2 Hp. destruct (decide (tid2 = tid)) as [->|Hne].
    + rewrite list_lookup_insert_eq in Hth2 by done. injection Hth2 as <-.
      by apply Hpassed'.
    + rewrite list_lookup_insert_ne in Hth2 by done.
      pose proof (Hpassed _ _ f Hth2 Hp) as Hbefore.
      pose proof (Hcount' (its_group th2) f) as Hc. rewrite Hbefore in Hc.
      destruct (present (its_group th2) f st'); [done|simpl in Hc; lia].
  - intros g f. rewrite constructions_snoc, <- Hcount', <- Hcount. lia.
Qed.

Lemma Invariant_exec p0 tr p : starting p0 → exec p0 tr p → Invariant p0 tr p.
Proof.
  intros Hstart. induction 1 as [|p0 tr p ev p' _ IH Hstep].
  - by apply Invariant_start.
  - eapply Invariant_step; [by apply IH|done].
Qed.

(** ** The steps of one goroutine about one family *)

Lemma steps_at_prefix p f built :
  steps_at p f built `prefix_of` check_under_lock ∨
  steps_at p f built `prefix_of` check_under_lock_present.
Proof.
  unfold check_under_lock, check_under_lock_present, steps_at.
  destruct p as [|f'|f'| | | | | |]; try destruct f'; destruct f, built; simpl;
    first [left; by eexists|right; by eexists].
Qed.

Lemma steps_of_snoc tid f tr tid' a :
  steps_of tid f (tr ++ [(tid', a)]) =
  steps_of tid f tr ++
  (if decide (tid' = tid) then option_list (step_name f a) else []).
Proof.
  unfold steps_of. rewrite omap_app. f_equal. simpl.
  destruct (decide (tid' = tid)); [|done]. by destruct (step_name f a).
Qed.

Lemma StepKind_steps st th a st' th' f built :
  StepKind st th a st' th' →
  ∃ built', steps_at (pc th) f built ++ option_list (step_name f a) =
            steps_at (pc th') f built'.
Proof.
  intros Hkind.
  destruct Hkind as
    [Hpc Hmu -> -> Hpc'
    |f0 Hpc Hpres -> -> Hpc'
    |f0 Hpc Hpres -> -> Hpc'
    |f0 Hpc -> -> Hpc'
    |Hpast Hpast' Hnr Hnr' Hname Hact Hsame Hmu
    |Hpc Hmu -> -> Hpc'].
  - rewrite Hpc, Hpc'. exists built. by destruct f.
  - rewrite Hpc, Hpc'. destruct f, f0; simpl; rewrite ?app_nil_r;
      first [by exists built|by exists false].
  - rewrite Hpc, Hpc'. destruct f, f0; simpl; rewrite ?app_nil_r;
      first [by exists built|by exists false].
  - rewrite Hpc, Hpc'. destruct f, f0; simpl; rewrite ?app_nil_r;
      first [by exists built|by exists true].
  - exists built. rewrite Hname. simpl. rewrite app_nil_r.
    specialize (Hpast f). specialize (Hpast' f).
    destruct (pc th); try done; destruct (pc th'); try done; simpl in *;
      by rewrite ?Hpast, ?Hpast'.
  - rewrite Hpc, Hpc'. exists built. simpl. by destruct built.
Qed.

Lemma steps_exec p0 tr p :
  starting p0 → exec p0 tr p →
  ∀ tid th f, goroutines p !! tid = Some th →
    ∃ built, steps_of tid f tr = steps_at (pc th) f built.
Proof.
  intros [_ Hall]. induction 1 as [|p0 tr p ev p' _ IH Hstep]; intros tid th f Hth.
  - exists false. by rewrite (Forall_lookup_1 _ _ _ _ Hall Hth).
  - specialize (IH Hall).
    destruct Hstep as [p tid' th0 a st' th' _ Hth0 Hgo]. simpl in Hth.
    apply goroutine_step_kind in Hgo as [_ Hkind].
    rewrite steps_of_snoc.
    destruct (decide (tid' = tid)) as [->|Hne].
    + rewrite list_lookup_insert_eq in Hth by (by eapply lookup_lt_Some).
      injection Hth as <-.
      destruct (IH _ _ f Hth0) as [built ->].
      destruct (StepKind_steps _ _ _ _ _ f built Hkind) as [built' ->]. eauto.
    + rewrite list_lookup_insert_ne in Hth by done.
      rewrite app_nil_r. by apply IH.
Qed.

(** ** The scheduler gives executions *)

Lemma exec_cons p ev p1 tr p2 :
  step p ev p1 → exec p1 tr p2 → exec p (ev :: tr) p2.
Proof.
  intros Hstep. induction 1 as [|p1 tr p2 ev' p3 _ IH Hstep'].
  - apply (exec_step p [] p); [constructor|done].
  - rewrite app_comm_cons. eapply exec_step; [by apply IH|done].
Qed.

Lemma alive_forallb p :
  forallb (λ th, negb (exited th)) (goroutines p) = true → alive p.
Proof.
  unfold alive. induction (goroutines p) as [|th l IH]; simpl; [constructor|].
  intros [Hth Hl]%andb_true_iff. constructor; [|by apply IH].
  by destruct (exited th).
Qed.

Lemma run_exec schedule p : exec p (run schedule p).1 (run schedule p).2.
Proof.
  revert p. induction schedule as [|tid schedule IH]; intros p; simpl; [constructor|].
  destruct (goroutines p !! tid) as [th|] eqn:Hth; [|apply IH].
  destruct (forallb _ _) eqn:Halive; [|apply IH].
  destruct (goroutine_step (shared p) th) as [[[a st'] th']|] eqn:Hgo; [|apply IH].
  specialize (IH (mkProcess st' (<[tid := th']> (goroutines p)))).
  destruct (run schedule _) as [tr p']. simpl in *.
  eapply exec_cons; [|exact IH].
  destruct p as [st ths]. eapply (step_goroutine (mkProcess st ths)); eauto.
  by apply alive_forallb.
Qed.

(** ** A goroutine alone runs the register function *)

Lemma reaches_trans st th st1 th1 st2 th2 :
  reaches st th st1 th1 → reaches st1 th1 st2 th2 → reaches st th st2 th2.
Proof. induction 1; [done|]. intros. eapply reaches_step; eauto. Qed.

Lemma block_reaches g ctx f st :
  reaches st (mkGoroutine g ctx (AtCheck f))
    (ensure_family g f st) (mkGoroutine g ctx (after_block f)).
Proof.
  assert (Hcases :
    (present g f st = true ∧ ensure_family g f st = st) ∨
    (present g f st = false ∧ ensure_family g f st = construct_family g f st)).
  { destruct f; unfold present, ensure_family, construct_family, ensure_counter,
      ensure_summary, ensure_histogram.
    - destruct (counters st !! ops_var g) eqn:Hx; [left|right]; (split; [|done]);
        [apply bool_decide_eq_true; eauto|apply bool_decide_eq_false; by intros [??]].
    - destruct (summaries st !! summary_var g) eqn:Hx; [left|right]; (split; [|done]);
        [apply bool_decide_eq_true; eauto|apply bool_decide_eq_false; by intros [??]].
    - destruct (histograms st !! histogram_var g) eqn:Hx; [left|right]; (split; [|done]);
        [apply bool_decide_eq_true; eauto|apply bool_decide_eq_false; by intros [??]]. }
  destruct Hcases as [[Hp ->]|[Hp ->]].
  - eapply reaches_step; [|apply reaches_here].
    unfold goroutine_step; simpl. by rewrite Hp.
  - eapply reaches_step; [unfold goroutine_step; simpl; by rewrite Hp|].
    eapply reaches_step; [|apply reaches_here]. done.
Qed.

Lemma set_registerer_twice r r' (st : State) :
  set_registerer r' (set_registerer r st) = set_registerer r' st.
Proof. done. Qed.

Lemma loop_reaches g ctx cs st :
  reaches st (mkGoroutine g ctx (AtRegister cs))
    (set_registerer (submit ctx (DefaultRegisterer st) cs).2 st)
    (mkGoroutine g ctx
       match (submit ctx (DefaultRegisterer st) cs).1 with
       | Ok _ => AtUnlock
       | Abort e => Exited e
       end).
Proof.
  revert st. induction cs as [|[c|] cs IH]; intros st; simpl.
  - rewrite set_registerer_same. eapply reaches_step; [|apply reaches_here]. done.
  - destruct (prometheus.Register (DefaultRegisterer st) c) as [err r] eqn:Hr.
    eapply reaches_step; [unfold goroutine_step; simpl; by rewrite Hr|].
    unfold at_pc; simpl.
    assert (Hnext : reaches (set_registerer r st) (mkGoroutine g ctx (AtRegister cs))
      (set_registerer (submit ctx r cs).2 st)
      (mkGoroutine g ctx
         match (submit ctx r cs).1 with Ok _ => AtUnlock | Abort e => Exited e end)).
    { specialize (IH (set_registerer r st)).
      by rewrite set_registerer_twice in IH. }
    destruct err as [e|]; [|exact Hnext].
    destruct (negb (is_AlreadyRegisteredError e)); [|exact Hnext].
    simpl. eapply reaches_step; [|apply reaches_here]. done.
  - rewrite set_registerer_same. eapply reaches_step; [|apply reaches_here]. done.
Qed.

(** A goroutine that runs alone from a free mutex ends where its register
    function ends: returned in the state the function returns in, or with
    the process ended the way the function ends it. *)
Lemma register_reaches g ctx st :
  mu st = false →
  reaches st (mkGoroutine g ctx AtLock)
    (registerMetrics g ctx st).2
    (mkGoroutine g ctx
       match (registerMetrics g ctx st).1 with
       | Ok _ => Returned
       | Abort e => Exited e
       end).
Proof.
  intros Hmu. rewrite registerMetrics_run, Hmu. cbn zeta.
  eapply reaches_step; [unfold goroutine_step; cbn [pc]; by rewrite Hmu|].
  unfold at_pc; cbn [its_group its_ctx].
  eapply reaches_trans; [apply (block_reaches g ctx Ops)|].
  eapply reaches_trans; [apply (block_reaches g ctx Summary)|].
  eapply reaches_trans; [apply (block_reaches g ctx Histogram)|].
  cbn [ensure_family after_block].
  change (ensure_histogram g (ensure_summary g (ensure_counter g (set_mu true st))))
    with (ensure g (set_mu true st)).
  set (st' := ensure g (set_mu true st)).
  eapply reaches_step; [reflexivity|]. unfold at_pc; cbn [its_group its_ctx].
  eapply reaches_trans; [apply loop_reaches|].
  assert (Hr : DefaultRegisterer st' = DefaultRegisterer st).
  { subst st'. by destruct (ensure_frame g (set_mu true st)) as (_ & -> & _). }
  assert (Hm : mu st' = true).
  { subst st'. by destruct (ensure_frame g (set_mu true st)) as (-> & _). }
  rewrite Hr.
  destruct (submit ctx (DefaultRegisterer st) (collectors g st')) as [[[]|e] r'];
    cbn [fst snd].
  - eapply reaches_step; [|apply reaches_here].
    unfold goroutine_step; cbn [pc mu set_registerer]. by rewrite Hm.
  - apply reaches_here.
Qed.

(** ** Properties of concurrent registration *)

(** C7, as amended.  In every execution of goroutines that each run a
    register function, from a process where the mutex is free: each family
    that was nil is constructed exactly as many times as it has become
    non-nil, that is at most once, and never if it existed; once a goroutine
    has returned, the families of its group exist, each constructed exactly
    once if it was nil at the start; at most one goroutine is
    between taking and releasing the mutex; and the steps of each goroutine
    about a family are a prefix of lock, check-null, construct, unlock, or of
    lock, check-null, unlock: one nil check, made under the mutex. *)
Theorem one_construction_per_family (p0 : Process) (tr : list Event) (p : Process) :
  starting p0 →
  exec p0 tr p →
  (∀ g f, (constructions g f tr + Nat.b2n (present g f (shared p0)))%nat =
          Nat.b2n (present g f (shared p))) ∧
  (∀ g f, (constructions g f tr ≤ 1)%nat) ∧
  (∀ tid th f, goroutines p !! tid = Some th → pc th = Returned →
     present (its_group th) f (shared p) = true ∧
     (present (its_group th) f (shared p0) = false →
      constructions (its_group th) f tr = 1%nat)) ∧
  (∀ tid1 tid2 th1 th2,
     goroutines p !! tid1 = Some th1 → goroutines p !! tid2 = Some th2 →
     inside (pc th1) = true → inside (pc th2) = true → tid1 = tid2) ∧
  (∀ tid th f, goroutines p !! tid = Some th →
     steps_of tid f tr `prefix_of` check_under_lock ∨
     steps_of tid f tr `prefix_of` check_under_lock_present).
Proof.
  intros Hstart Hexec.
  destruct (Invariant_exec _ _ _ Hstart Hexec) as [Hmutex Hone Hnil Hpassed Hcount].
  split; [done|]. split; [|split; [|split; [done|]]].
  - intros g f. specialize (Hcount g f).
    destruct (present g f (shared p0)), (present g f (shared p)); simpl in Hcount; lia.
  - intros tid th f Hth Hpc.
    assert (Hnow : present (its_group th) f (shared p) = true)
      by (apply (Hpassed tid th f Hth); by rewrite Hpc).
    split; [done|]. intros Hnil0. specialize (Hcount (its_group th) f).
    rewrite Hnow, Hnil0 in Hcount. simpl in Hcount. lia.
  - intros tid th f Hth.
    destruct (steps_exec _ _ _ Hstart Hexec tid th f Hth) as [built ->].
    apply steps_at_prefix.
Qed.

(** ** What a decorated call can change *)

(** The shared decoration changes three maps at most, each by one update of
    the vector its variable holds, and nothing else of the state its body
    left. *)
Lemma instrument_changes {A} ops sm hs o endpoint (err_of : A → error) body st :
  (counters (instrument ops sm hs o endpoint err_of body st).2 = counters (body st).2 ∨
   ∃ lvs cv, counters (body st).2 !! ops = Some cv ∧
     counters (instrument ops sm hs o endpoint err_of body st).2 =
       <[ops := counter_inc lvs cv]> (counters (body st).2)) ∧
  (summaries (instrument ops sm hs o endpoint err_of body st).2 = summaries (body st).2 ∨
   ∃ lvs v sv, summaries (body st).2 !! sm = Some sv ∧
     summaries (instrument ops sm hs o endpoint err_of body st).2 =
       <[sm := summary_observe lvs v sv]> (summaries (body st).2)) ∧
  (histograms (instrument ops sm hs o endpoint err_of body st).2 = histograms (body st).2 ∨
   ∃ lvs v hv, histograms (body st).2 !! hs = Some hv ∧
     histograms (instrument ops sm hs o endpoint err_of body st).2 =
       <[hs := histogram_observe lvs v hv]> (histograms (body st).2)) ∧
  mu (instrument ops sm hs o endpoint err_of body st).2 = mu (body st).2 ∧
  DefaultMetricPrefix (instrument ops sm hs o endpoint err_of body st).2 =
    DefaultMetricPrefix (body st).2 ∧
  DefaultLabelPrefix (instrument ops sm hs o endpoint err_of body st).2 =
    DefaultLabelPrefix (body st).2 ∧
  DefaultRegisterer (instrument ops sm hs o endpoint err_of body st).2 =
    DefaultRegisterer (body st).2 ∧
  allocated (instrument ops sm hs o endpoint err_of body st).2 = allocated (body st).2 ∧
  clock (instrument ops sm hs o endpoint err_of body st).2 = clock (body st).2 ∧
  world (instrument ops sm hs o endpoint err_of body st).2 = world (body st).2.
Proof.
  unfold instrument, NewTimer, defer, ObserveDuration, mbind, M_bind, mret, M_ret;
    cbn [begin observer].
  destruct (body st) as [[a|e] st1]; cbn [fst snd unwinds Panic_unwinds].
  - destruct (err_of a); unfold Inc;
      (destruct (counters st1 !! ops) as [cv|] eqn:Hc; cbn [fst snd unwinds Panic_unwinds]);
      unfold Observe_summary; state_fields;
      (destruct (summaries st1 !! sm) as [sv|] eqn:Hs; cbn [fst snd]);
      unfold Observe_histogram; state_fields;
      (destruct (histograms st1 !! hs) as [hv|] eqn:Hh; cbn [fst snd]); state_fields;
      (split; [first [by left|right; by eauto]|]);
      (split; [first [by left|right; by eauto]|]);
      (split; [first [by left|right; by eauto]|]); done.
  - unfold Observe_summary; state_fields;
      (destruct (summaries st1 !! sm) as [sv|] eqn:Hs; cbn [fst snd]);
      unfold Observe_histogram; state_fields;
      (destruct (histograms st1 !! hs) as [hv|] eqn:Hh; cbn [fst snd]); state_fields;
      (split; [first [by left|right; by eauto]|]);
      (split; [first [by left|right; by eauto]|]);
      (split; [first [by left|right; by eauto]|]); done.
Qed.

Lemma decorated_changes (i : Invocation) (st : State) :
  (counters (decorated i st).2 = counters (wrapped i st).2 ∨
   ∃ lvs cv, counters (wrapped i st).2 !! ops_var (group i) = Some cv ∧
     counters (decorated i st).2 =
       <[ops_var (group i) := counter_inc lvs cv]> (counters (wrapped i st).2)) ∧
  (summaries (decorated i st).2 = summaries (wrapped i st).2 ∨
   ∃ lvs v sv, summaries (wrapped i st).2 !! summary_var (group i) = Some sv ∧
     summaries (decorated i st).2 =
       <[summary_var (group i) := summary_observe lvs v sv]> (summaries (wrapped i st).2)) ∧
  (histograms (decorated i st).2 = histograms (wrapped i st).2 ∨
   ∃ lvs v hv, histograms (wrapped i st).2 !! histogram_var (group i) = Some hv ∧
     histograms (decorated i st).2 =
       <[histogram_var (group i) := histogram_observe lvs v hv]>
         (histograms (wrapped i st).2)) ∧
  mu (decorated i st).2 = mu (wrapped i st).2 ∧
  DefaultMetricPrefix (decorated i st).2 = DefaultMetricPrefix (wrapped i st).2 ∧
  DefaultLabelPrefix (decorated i st).2 = DefaultLabelPrefix (wrapped i st).2 ∧
  DefaultRegisterer (decorated i st).2 = DefaultRegisterer (wrapped i st).2 ∧
  allocated (decorated i st).2 = allocated (wrapped i st).2 ∧
  clock (decorated i st).2 = clock (wrapped i st).2 ∧
  world (decorated i st).2 = world (wrapped i st).2.
Proof. rewrite decorated_instrument. apply instrument_changes. Qed.

(** The collector of a family after a decorated invocation is the one the
    wrapped operation left: same address, same descriptor. *)
Lemma decorated_collector_of (i : Invocation) (st : State) g f :
  collector_of g f (decorated i st).2 = collector_of g f (wrapped i st).2.
Proof.
  destruct (decorated_changes i st) as (Hc & Hs & Hh & _).
  destruct f; unfold collector_of.
  - destruct Hc as [->|(lvs & cv & Hcv & ->)]; [done|].
    destruct (decide (ops_var (group i) = ops_var g)) as [<-|Hne].
    + by rewrite lookup_insert_eq, Hcv.
    + by rewrite lookup_insert_ne.
  - destruct Hs as [->|(lvs & v & sv & Hsv & ->)]; [done|].
    destruct (decide (summary_var (group i) = summary_var g)) as [<-|Hne].
    + by rewrite lookup_insert_eq, Hsv.
    + by rewrite lookup_insert_ne.
  - destruct Hh as [->|(lvs & v & hv & Hhv & ->)]; [done|].
    destruct (decide (histogram_var (group i) = histogram_var g)) as [<-|Hne].
    + by rewrite lookup_insert_eq, Hhv.
    + by rewrite lookup_insert_ne.
Qed.

(** X1. A decorated invocation changes nothing but the three families of
    its own group: the variables of every other group hold what the wrapped
    operation left, values included; the families of its own group stay the
    same objects under the same descriptors, nil if they were nil; and the
    mutex, the two prefixes, the registerer and the number of vectors
    allocated are as the wrapped operation left them.  This holds whether
    or not the families exist and however the wrapped operation ends. *)
Theorem invocation_changes_only_its_group (i : Invocation) (st : State) :
  (∀ g, g ≠ group i →
     counters (decorated i st).2 !! ops_var g = counters (wrapped i st).2 !! ops_var g ∧
     summaries (decorated i st).2 !! summary_var g =
       summaries (wrapped i st).2 !! summary_var g ∧
     histograms (decorated i st).2 !! histogram_var g =
       histograms (wrapped i st).2 !! histogram_var g) ∧
  (∀ g f, collector_of g f (decorated i st).2 = collector_of g f (wrapped i st).2) ∧
  mu (decorated i st).2 = mu (wrapped i st).2 ∧
  DefaultMetricPrefix (decorated i st).2 = DefaultMetricPrefix (wrapped i st).2 ∧
  DefaultLabelPrefix (decorated i st).2 = DefaultLabelPrefix (wrapped i st).2 ∧
  DefaultRegisterer (decorated i st).2 = DefaultRegisterer (wrapped i st).2 ∧
  allocated (decorated i st).2 = allocated (wrapped i st).2.
Proof.
  split; [|split; [intros g f; apply decorated_collector_of|]].
  - intros g Hne.
    assert (ops_var (group i) ≠ ops_var g) by (intros ?%ops_var_inj; done).
    assert (summary_var (group i) ≠ summary_var g) by (intros ?%summary_var_inj; done).
    assert (histogram_var (group i) ≠ histogram_var g) by (intros ?%histogram_var_inj; done).
    destruct (decorated_changes i st) as (Hc & Hs & Hh & _).
    split; [|split].
    + destruct Hc as [->|(lvs & cv & _ & ->)]; [done|]. by rewrite lookup_insert_ne.
    + destruct Hs as [->|(lvs & v & sv & _ & ->)]; [done|]. by rewrite lookup_insert_ne.
    + destruct Hh as [->|(lvs & v & hv & _ & ->)]; [done|]. by rewrite lookup_insert_ne.
  - destruct (decorated_changes i st) as (_ & _ & _ & Hm & Hp & Hl & Hr & Ha & _). done.
Qed.

(** ** The descriptions of the families are kept *)

Lemma described_same (st st' : State) :
  counters st' = counters st → summaries st' = summaries st →
  histograms st' = histograms st →
  DefaultMetricPrefix st' = DefaultMetricPrefix st →
  DefaultLabelPrefix st' = DefaultLabelPrefix st →
  described st → described st'.
Proof.
  intros Hc Hs Hh Hp Hl Hd g f c. rewrite Hp, Hl.
  destruct f; unfold collector_of; rewrite ?Hc, ?Hs, ?Hh;
    [apply (Hd g Ops c)|apply (Hd g Summary c)|apply (Hd g Histogram c)].
Qed.

Lemma described_fresh (st : State) : fresh st → described st.
Proof.
  intros (Hc & Hs & Hh) g f c.
  destruct f; unfold collector_of; rewrite ?Hc, ?Hs, ?Hh, lookup_empty; discriminate.
Qed.

Lemma described_ensure_counter g st : described st → described (ensure_counter g st).
Proof.
  intros Hd. unfold ensure_counter.
  destruct (counters st !! ops_var g) eqn:Hx; [done|].
  intros g' f c. destruct f; unfold collector_of, construct_counter; state_fields.
  - destruct (decide (ops_var g = ops_var g')) as [Heq|Hne].
    + apply ops_var_inj in Heq as <-. rewrite lookup_insert_eq. by intros [= <-].
    + rewrite lookup_insert_ne by done. apply (Hd g' Ops c).
  - apply (Hd g' Summary c).
  - apply (Hd g' Histogram c).
Qed.

Lemma described_ensure_summary g st : described st → described (ensure_summary g st).
Proof.
  intros Hd. unfold ensure_summary.
  destruct (summaries st !! summary_var g) eqn:Hx; [done|].
  intros g' f c. destruct f; unfold collector_of, construct_summary; state_fields.
  - apply (Hd g' Ops c).
  - destruct (decide (summary_var g = summary_var g')) as [Heq|Hne].
    + apply summary_var_inj in Heq as <-. rewrite lookup_insert_eq. by intros [= <-].
    + rewrite lookup_insert_ne by done. apply (Hd g' Summary c).
  - apply (Hd g' Histogram c).
Qed.

Lemma described_ensure_histogram g st : described st → described (ensure_histogram g st).
Proof.
  intros Hd. unfold ensure_histogram.
  destruct (histograms st !! histogram_var g) eqn:Hx; [done|].
  intros g' f c. destruct f; unfold collector_of, construct_histogram; state_fields.
  - apply (Hd g' Ops c).
  - apply (Hd g' Summary c).
  - destruct (decide (histogram_var g = histogram_var g')) as [Heq|Hne].
    + apply histogram_var_inj in Heq as <-. rewrite lookup_insert_eq. by intros [= <-].
    + rewrite lookup_insert_ne by done. apply (Hd g' Histogram c).
Qed.

Lemma described_ensure g st : described st → described (ensure g st).
Proof.
  intros Hd. unfold ensure.
  by apply described_ensure_histogram, described_ensure_summary, described_ensure_counter.
Qed.

Lemma described_registerMetrics g ctx st :
  described st → described (registerMetrics g ctx st).2.
Proof.
  intros Hd. rewrite registerMetrics_run.
  destruct (mu st); [done|]. cbn zeta.
  assert (Hens : described (ensure g (set_mu true st))).
  { apply described_ensure. by apply (described_same st). }
  destruct (submit _ _ _) as [[[]|e] r']; cbn [fst snd];
    by apply (described_same (ensure g (set_mu true st))).
Qed.

Lemma described_for_range gs ctx st :
  described st → described (for_range gs (λ g, registerMetrics g ctx) st).2.
Proof.
  revert st. induction gs as [|g gs IH]; intros st Hd; simpl; [done|].
  unfold mbind, M_bind.
  pose proof (described_registerMetrics g ctx st Hd) as Hd1.
  destruct (registerMetrics g ctx st) as [[[]|e] st1]; [|done].
  by apply IH.
Qed.

Lemma described_construct k opts st : described st → described (construct k opts st).2.
Proof. intros Hd. rewrite construct_run. by apply described_for_range. Qed.

Lemma described_decorated i st : described (wrapped i st).2 → described (decorated i st).2.
Proof.
  intros Hd g f c. rewrite decorated_collector_of.
  destruct (decorated_changes i st) as (_ & _ & _ & _ & -> & -> & _).
  apply Hd.
Qed.

(** X2. The description of the families is an invariant of the package.
    In a process that has constructed no wrapper it holds for want of
    families; every register function and every constructor keeps it,
    however they end; and a decorated invocation keeps it when its wrapped
    operation has.  So as long as nothing outside the package rewrites the
    two prefixes, every family ever created carries the name, the help text
    and the label names its register function spells out. *)
Theorem description_is_invariant :
  (∀ st, fresh st → described st) ∧
  (∀ g ctx st, described st → described (registerMetrics g ctx st).2) ∧
  (∀ k opts st, described st → described (construct k opts st).2) ∧
  (∀ i st, described (wrapped i st).2 → described (decorated i st).2).
Proof.
  split; [exact described_fresh|]. split; [exact described_registerMetrics|].
  split; [exact described_construct|exact described_decorated].
Qed.

(** ** The names of the families *)

Lemma append_inj_prefix (p a b : string) : p +:+ a = p +:+ b → a = b.
Proof. induction p as [|ch p IH]; simpl; [done|]. intros [= Heq]. by apply IH. Qed.

(** The bare names of the twelve families are pairwise distinct. *)
Lemma family_desc_name_inj prefix lp lp' g f g' f' :
  prometheus.fqName (family_desc prefix lp g f) =
  prometheus.fqName (family_desc prefix lp' g' f') →
  g = g' ∧ f = f'.
Proof.
  destruct f, f'; cbn [family_desc prometheus.fqName];
    intros Heq%append_inj_prefix; destruct g, g'; first [done|discriminate Heq].
Qed.

(** X3. No two families of the package share a fully-qualified name,
    whatever the metric prefix is: when the families are described as the
    register functions describe them, the collectors of two different
    families, of one group or of two, have different names.  The twelve
    families can thus sit side by side in one registry. *)
Theorem family_names_never_collide (st : State) (g g' : Group) (f f' : Family)
    (c c' : prometheus.Collector) :
  described st →
  collector_of g f st = Some c →
  collector_of g' f' st = Some c' →
  (g, f) ≠ (g', f') →
  prometheus.fqName (prometheus.Describe c) ≠ prometheus.fqName (prometheus.Describe c').
Proof.
  intros Hd Hc Hc' Hne Heq. apply Hne.
  rewrite (Hd _ _ _ Hc), (Hd _ _ _ Hc') in Heq.
  by apply family_desc_name_inj in Heq as [-> ->].
Qed.

(** The number of label names of a family as the register functions
    describe it. *)
Lemma family_desc_arity prefix lp g f :
  length (prometheus.variableLabels (family_desc prefix lp g f)) =
  match f with Ops => 5%nat | _ => 4%nat end.
Proof. by destruct f. Qed.

(** X4. Every label tuple under which a decorated invocation changes a
    family has exactly as many values as the family has label names: five
    for the ops counter, four for the summary and the histogram.  The
    check that [WithLabelValues] makes of the number of values therefore
    never fails in a decorated call. *)
Theorem label_values_match_label_names (i : Invocation) (st : State) :
  described (wrapped i st).2 →
  registered (group i) (wrapped i st).2 →
  (∀ lvs c,
     collector_of (group i) Ops (wrapped i st).2 = Some c →
     counter_value (ops_var (group i)) lvs (decorated i st).2 ≠
     counter_value (ops_var (group i)) lvs (wrapped i st).2 →
     length lvs = length (prometheus.variableLabels (prometheus.Describe c))) ∧
  (∀ lvs c,
     collector_of (group i) Summary (wrapped i st).2 = Some c →
     summary_values (summary_var (group i)) lvs (decorated i st).2 ≠
     summary_values (summary_var (group i)) lvs (wrapped i st).2 →
     length lvs = length (prometheus.variableLabels (prometheus.Describe c))) ∧
  (∀ lvs c,
     collector_of (group i) Histogram (wrapped i st).2 = Some c →
     histogram_values (histogram_var (group i)) lvs (decorated i st).2 ≠
     histogram_values (histogram_var (group i)) lvs (wrapped i st).2 →
     length lvs = length (prometheus.variableLabels (prometheus.Describe c))).
Proof.
  intros Hd Hreg. split; [|split]; intros lvs c Hc Hne;
    rewrite (Hd _ _ _ Hc), family_desc_arity.
  - rewrite (decorated_counter_value i st lvs Hreg) in Hne.
    destruct (wrapped i st).1 as [r|e]; [|lia].
    destruct (decide (lvs = _)) as [->|]; [done|lia].
  - destruct (decorated_latency_values i st lvs Hreg) as [Hs _]. rewrite Hs in Hne.
    destruct (decide (lvs = labels i)) as [->|]; [done|].
    by rewrite app_nil_r in Hne.
  - destruct (decorated_latency_values i st lvs Hreg) as [_ Hh]. rewrite Hh in Hne.
    destruct (decide (lvs = labels i)) as [->|]; [done|].
    by rewrite app_nil_r in Hne.
Qed.

(** ** Concurrent registration completes *)

Lemma goroutine_step_inside st th :
  inside (pc th) = true → exited th = false → is_Some (goroutine_step st th).
Proof.
  unfold goroutine_step, exited.
  destruct (pc th) as [|f|f| |[|[c|] cs]|msg| | |e]; try done; intros _ _; eauto.
  - destruct (present _ _ _); eauto.
  - destruct (prometheus.Register _ _); eauto.
  - destruct (mu st); eauto.
Qed.

Lemma goroutine_step_remaining st th a st' th' :
  goroutine_step st th = Some (a, st', th') →
  (remaining (pc th') < remaining (pc th))%nat.
Proof.
  unfold goroutine_step.
  destruct (pc th) as [|f|f| |[|[c|] cs]|msg| | |e]; try discriminate.
  - destruct (mu st); [discriminate|]. intros [= <- <- <-]. simpl. lia.
  - destruct (present _ _ _); intros [= <- <- <-]; destruct f; simpl; lia.
  - intros [= <- <- <-]. destruct f; simpl; lia.
  - intros [= <- <- <-]. simpl. lia.
  - intros [= <- <- <-]. simpl. lia.
  - destruct (prometheus.Register _ _) as [err r]. intros [= <- <- <-].
    destruct err as [e|]; [destruct (negb _)|]; simpl; lia.
  - intros [= <- <- <-]. simpl. lia.
  - intros [= <- <- <-]. simpl. lia.
  - destruct (mu st); intros [= <- <- <-]; simpl; lia.
Qed.

Lemma sum_list_insert {A} (f : A → nat) (l : list A) (i : nat) (x y : A) :
  l !! i = Some x →
  (sum_list (f <$> <[i := y]> l) + f x = sum_list (f <$> l) + f y)%nat.
Proof.
  revert i. induction l as [|z l IH]; intros [|i]; csimpl; try discriminate.
  - intros [= ->]. lia.
  - intros Hi. specialize (IH i Hi). lia.
Qed.

Lemma remaining_steps_start p0 :
  starting p0 → remaining_steps p0 = (13 * length (goroutines p0))%nat.
Proof.
  intros [_ Hall]. unfold remaining_steps.
  induction Hall as [|th l Hth _ IH]; csimpl; [done|].
  rewrite Hth, IH. simpl. lia.
Qed.

Lemma step_remaining p ev p' :
  step p ev p' →
  (remaining_steps p' < remaining_steps p)%nat ∧
  length (goroutines p') = length (goroutines p).
Proof.
  intros [p0 tid th a st' th' _ Hth Hgo]. unfold remaining_steps; simpl.
  pose proof (goroutine_step_remaining _ _ _ _ _ Hgo) as Hlt.
  pose proof (sum_list_insert (remaining ∘ pc) _ _ _ th' Hth) as Hsum. simpl in Hsum.
  split; [lia|]. by rewrite length_insert.
Qed.

Lemma exec_remaining p0 tr p :
  exec p0 tr p →
  (length tr + remaining_steps p ≤ remaining_steps p0)%nat ∧
  length (goroutines p) = length (goroutines p0).
Proof.
  induction 1 as [|p0 tr p ev p' _ [IH IHlen] Hstep]; [done|].
  destruct (step_remaining _ _ _ Hstep) as [Hlt Hlen].
  rewrite length_app. simpl. split; [lia|congruence].
Qed.

(** While the mutex is held, one of the goroutines is the holder. *)
Lemma StepKind_holder st th a st' th' :
  StepKind st th a st' th' → mu st' = true → inside (pc th') = true.
Proof.
  intros Hkind Hmu.
  destruct Hkind as
    [Hpc Hm -> -> Hpc'
    |f0 Hpc Hpres -> -> Hpc'
    |f0 Hpc Hpres -> -> Hpc'
    |f0 Hpc -> -> Hpc'
    |Hpast Hpast' Hnr Hnr' Hname Hact Hsame Hm
    |Hpc Hm -> -> Hpc'].
  - by rewrite Hpc'.
  - rewrite Hpc'. by destruct f0.
  - by rewrite Hpc'.
  - rewrite Hpc'. by destruct f0.
  - by apply (inside_passed _ Ops).
  - discriminate.
Qed.

Lemma holder_exec p0 tr p :
  starting p0 → exec p0 tr p → mu (shared p) = true →
  ∃ tid th, goroutines p !! tid = Some th ∧ inside (pc th) = true.
Proof.
  intros Hstart. induction 1 as [|p0 tr p ev p' _ _ Hstep]; intros Hmu.
  - destruct Hstart as [Hfree _]. congruence.
  - destruct Hstep as [p tid th a st' th' _ Hth Hgo]. simpl in *.
    apply goroutine_step_kind in Hgo as [_ Hkind].
    exists tid, th'. split; [|by eapply StepKind_holder].
    apply list_lookup_insert_eq. by eapply lookup_lt_Some.
Qed.

Lemma progress_exec p0 tr p :
  starting p0 → exec p0 tr p → alive p →
  (∃ tid th, goroutines p !! tid = Some th ∧ pc th ≠ Returned) →
  ∃ ev p', step p ev p'.
Proof.
  intros Hstart Hexec Halive (tid & th & Hth & Hnr).
  assert (Hgo : ∃ tid th, goroutines p !! tid = Some th ∧ is_Some (goroutine_step (shared p) th)).
  { destruct (mu (shared p)) eqn:Hmu.
    - destruct (holder_exec _ _ _ Hstart Hexec Hmu) as (tid2 & th2 & Hth2 & Hin2).
      exists tid2, th2. split; [done|]. apply goroutine_step_inside; [done|].
      by apply (Forall_lookup_1 _ _ _ _ Halive Hth2).
    - exists tid, th. split; [done|].
      destruct (Invariant_exec _ _ _ Hstart Hexec) as [Hmutex _ _ _ _].
      destruct (inside (pc th)) eqn:Hin.
      + rewrite (Hmutex _ _ Hth Hin) in Hmu. discriminate.
      + unfold goroutine_step. destruct (pc th); try done. rewrite Hmu. eauto. }
  destruct Hgo as (tid2 & th2 & Hth2 & [[[a st'] th'] Hgo]).
  eexists _, _. by eapply step_goroutine.
Qed.

Lemma returned_dec (ths : list Goroutine) :
  Forall (λ th, pc th = Returned) ths ∨
  ∃ tid th, ths !! tid = Some th ∧ pc th ≠ Returned.
Proof.
  induction ths as [|th ths [IH|(tid & th' & Hth & Hnr)]].
  - left. constructor.
  - destruct (pc th) eqn:Hpc;
      first [left; by constructor|right; exists 0%nat, th; split; [done|by rewrite Hpc]].
  - right. by exists (S tid), th'.
Qed.

Lemma alive_dec (p : Process) : alive p ∨ ¬ alive p.
Proof. unfold alive. destruct (decide (Forall (λ th, exited th = false) (goroutines p))); eauto. Qed.

Lemma completion_exec p0 tr p :
  starting p0 → exec p0 tr p →
  ∃ tr' p', exec p0 (tr ++ tr') p' ∧
    (Forall (λ th, pc th = Returned) (goroutines p') ∨ ¬ alive p').
Proof.
  intros Hstart.
  remember (remaining_steps p) as n eqn:Hn. revert tr p Hn.
  induction (lt_wf n) as [n _ IH]. intros tr p -> Hexec.
  destruct (alive_dec p) as [Halive|Hdead];
    [|exists [], p; rewrite app_nil_r; by eauto].
  destruct (returned_dec (goroutines p)) as [Hall|Hsome];
    [exists [], p; rewrite app_nil_r; by eauto|].
  destruct (progress_exec _ _ _ Hstart Hexec Halive Hsome) as (ev & p1 & Hstep).
  destruct (step_remaining _ _ _ Hstep) as [Hlt _].
  destruct (IH _ Hlt (tr ++ [ev]) p1 eq_refl) as (tr' & p' & Hexec' & Hend).
  { by eapply exec_step. }
  exists (ev :: tr'), p'. split; [|done].
  by rewrite <- app_assoc in Hexec'.
Qed.

(** X5. Concurrent registration always completes.  In every execution of
    goroutines that each run a register function, from a free mutex: the
    execution has at most thirteen steps for each goroutine; as long as the
    process has not been ended and some goroutine has not returned, some
    goroutine can take a step, so that no goroutine is left waiting for the
    mutex for good; and the execution can be continued until every
    goroutine has returned or a fatal registration error has ended the
    process. *)
Theorem concurrent_registration_completes (p0 : Process) (tr : list Event) (p : Process) :
  starting p0 →
  exec p0 tr p →
  (length tr + remaining_steps p ≤ 13 * length (goroutines p0))%nat ∧
  (alive p → (∃ tid th, goroutines p !! tid = Some th ∧ pc th ≠ Returned) →
   ∃ ev p', step p ev p') ∧
  (∃ tr' p', exec p0 (tr ++ tr') p' ∧
     (Forall (λ th, pc th = Returned) (goroutines p') ∨ ¬ alive p')).
Proof.
  intros Hstart Hexec. split; [|split].
  - rewrite <- remaining_steps_start by done. by apply exec_remaining.
  - by apply (progress_exec p0 tr).
  - by apply (completion_exec p0 tr p).
Qed.

(** ** Concurrent registration is registration in turn *)

(** A goroutine's steps are determined: two ways from the same start that
    both end where no step is left end at the same place. *)
Lemma reaches_terminal st th st1 th1 st2 th2 :
  reaches st th st1 th1 → reaches st th st2 th2 →
  goroutine_step st1 th1 = None → goroutine_step st2 th2 = None →
  st1 = st2 ∧ th1 = th2.
Proof.
  intros H1. revert st2 th2.
  induction H1 as [st th|st th a sa tha st1 th1 Hgo _ IH]; intros st2 th2 H2 Hn1 Hn2.
  - inversion H2; subst; [done|congruence].
  - inversion H2 as [|? ? a' sb thb ? ? Hgo' Hrest]; subst; [congruence|].
    rewrite Hgo in Hgo'. injection Hgo' as <- <- <-. by apply IH.
Qed.

Lemma reaches_snoc st th st1 th1 a st2 th2 :
  reaches st th st1 th1 → goroutine_step st1 th1 = Some (a, st2, th2) →
  reaches st th st2 th2.
Proof.
  intros Hr Hgo. eapply reaches_trans; [exact Hr|].
  eapply reaches_step; [exact Hgo|apply reaches_here].
Qed.

Lemma goroutine_step_lock st th st' th' :
  goroutine_step st th = Some (ActLock, st', th') → pc th = AtLock.
Proof.
  unfold goroutine_step.
  destruct (pc th) as [|f|f| |[|[c|] cs]|msg| | |e]; try done.
  - destruct (present _ _ _); discriminate.
  - destruct (prometheus.Register _ _); discriminate.
  - destruct (mu st); discriminate.
Qed.

Lemma lock_order_snoc tr tid a :
  lock_order (tr ++ [(tid, a)]) =
  lock_order tr ++ (if a is ActLock then [tid] else []).
Proof. unfold lock_order. rewrite omap_app. f_equal. by destruct a. Qed.

Lemma for_range_app {E A} (l l' : list A) (body : A → M E unit) st :
  for_range (l ++ l') body st = (for_range l body;; for_range l' body) st.
Proof.
  revert st. induction l as [|x l IH]; intros st; simpl; [done|].
  unfold mbind, M_bind in *.
  destruct (body x st) as [[[]|e] st1]; [apply IH|done].
Qed.

Lemma goroutines_in_snoc p order tid th :
  goroutines p !! tid = Some th →
  goroutines_in p (order ++ [tid]) = goroutines_in p order ++ [th].
Proof. intros Hth. unfold goroutines_in. rewrite omap_app. simpl. by rewrite Hth. Qed.

Lemma run_in_turn_snoc ths th st st_d :
  run_in_turn ths st = (Ok tt, st_d) →
  run_in_turn (ths ++ [th]) st = registerMetrics (its_group th) (its_ctx th) st_d.
Proof.
  intros Hrun. unfold run_in_turn in *. rewrite for_range_app.
  unfold mbind, M_bind. rewrite Hrun. simpl. unfold mbind, M_bind.
  by destruct (registerMetrics _ _ st_d) as [[[]|e] s].
Qed.

(** Where the holder of the mutex ends is where its register function
    ends, called on the state the holder found. *)
Lemma holder_finishes st_d th0 st th :
  mu st_d = false → pc th0 = AtLock →
  reaches st_d th0 st th → goroutine_step st th = None →
  st = (registerMetrics (its_group th0) (its_ctx th0) st_d).2 ∧
  th = mkGoroutine (its_group th0) (its_ctx th0)
         match (registerMetrics (its_group th0) (its_ctx th0) st_d).1 with
         | Ok _ => Returned
         | Abort e => Exited e
         end.
Proof.
  intros Hmu Hpc Hreach Hend.
  destruct th0 as [g ctx p0]. simpl in Hpc. subst p0. cbn [its_group its_ctx].
  eapply reaches_terminal; [exact Hreach|by apply register_reaches|exact Hend|].
  unfold goroutine_step. cbn [pc].
  by destruct (registerMetrics g ctx st_d).1.
Qed.

Lemma Serial_start p0 : starting p0 → Serial p0 [] p0.
Proof.
  intros [Hmu Hall]. apply serial_free; simpl; [constructor|done|done|].
  intros tid th _ Hth.
  pose proof (Forall_lookup_1 _ _ _ _ Hall Hth) as Hpc.
  split; [|right; split; [done|apply not_elem_of_nil]].
  rewrite Hth. f_equal. destruct th as [g ctx p]. simpl in Hpc. by subst p.
Qed.

Lemma Serial_step p0 tr p ev p' :
  Serial p0 tr p → step p ev p' → Serial p0 (tr ++ [ev]) p'.
Proof.
  intros Hser Hstep. destruct Hstep as [p tid th a st' th' _ Hth Hgo].
  assert (Hlen : (tid < length (goroutines p))%nat) by (by eapply lookup_lt_Some).
  destruct Hser as
    [Hnd Hrun Hmu Hout
    |done tid0 th0 thh st_d Hnd Hord Hrun Hmud Hth0 Hpc0 Hthh Hin Hreach Hmu Hout].
  - (* the mutex is free: the step takes it *)
    destruct (Hout tid th) as [Hp0 [[Hpc Hdone]|[Hpc Hnew]]]; [done|done|..].
    { unfold goroutine_step in Hgo. rewrite Hpc in Hgo. discriminate. }
    unfold goroutine_step in Hgo. rewrite Hpc, Hmu in Hgo. injection Hgo as <- <- <-.
    apply (serial_held _ _ _ (lock_order tr) tid (at_pc th AtLock)
             (at_pc th (AtCheck Ops)) (shared p)); cbn [shared goroutines]; try done.
    + rewrite lock_order_snoc. apply NoDup_app. split; [done|].
      split; [|apply NoDup_singleton]. by intros x Hx ->%list_elem_of_singleton.
    + by rewrite lock_order_snoc.
    + by apply list_lookup_insert_eq.
    + eapply reaches_step; [|apply reaches_here].
      unfold goroutine_step. cbn [pc at_pc]. by rewrite Hmu.
    + intros tid' th2 Hne Hth2. cbn [goroutines] in Hth2.
      rewrite list_lookup_insert_ne in Hth2 by congruence.
      destruct (Hout tid' th2) as [Hp2 Hcase]; [done|done|]. split; [done|].
      destruct Hcase as [[? ?]|[? Hn2]]; [by left|right]. split; [done|].
      rewrite lock_order_snoc, elem_of_app, list_elem_of_singleton.
      intros [?| ->]; [done|congruence].
  - (* the mutex is held: its holder steps *)
    assert (tid = tid0) as <-.
    { destruct (decide (tid = tid0)) as [|Hne]; [done|].
      destruct (Hout tid th) as [_ [[Hpc _]|[Hpc _]]]; [congruence|done|..];
        unfold goroutine_step in Hgo; rewrite Hpc in Hgo; [discriminate|].
      rewrite Hmu in Hgo. discriminate. }
    rewrite Hth in Hthh. injection Hthh as <-.
    pose proof (reaches_snoc _ _ _ _ _ _ _ Hreach Hgo) as Hreach'.
    assert (Hsame : lock_order (tr ++ [(tid, a) : Event]) = lock_order tr).
    { rewrite lock_order_snoc. destruct a; try apply app_nil_r.
      apply goroutine_step_lock in Hgo. by rewrite Hgo in Hin. }
    apply goroutine_step_kind in Hgo as [Hgroup Hkind].
    assert (Hheld : inside (pc th') = true → mu st' = true →
      Serial p0 (tr ++ [(tid, a) : Event]) (mkProcess st' (<[tid := th']> (goroutines p)))).
    { intros Hin' Hmu'.
      apply (serial_held _ _ _ done tid th0 th' st_d); cbn [shared goroutines];
        rewrite ?Hsame; try done.
      - by apply list_lookup_insert_eq.
      - intros tid' th2 Hne Hth2. cbn [goroutines] in Hth2.
        rewrite list_lookup_insert_ne in Hth2 by congruence.
        rewrite Hsame. by apply Hout. }
    destruct Hkind as
      [Hpc Hm -> -> Hpc'
      |f0 Hpc Hpres -> -> Hpc'
      |f0 Hpc Hpres -> -> Hpc'
      |f0 Hpc -> -> Hpc'
      |Hpast Hpast' Hnr Hnr' Hname Hact Hfam Hm
      |Hpc Hm -> -> Hpc'].
    + by rewrite Hpc in Hin.
    + apply Hheld; [|done]. rewrite Hpc'. by destruct f0.
    + apply Hheld; [|done]. by rewrite Hpc'.
    + apply Hheld; [|by rewrite mu_construct_family]. rewrite Hpc'. by destruct f0.
    + apply Hheld; [|congruence]. by apply (inside_passed _ Ops).
    + (* the holder releases the mutex and returns *)
      destruct (holder_finishes _ _ _ _ Hmud Hpc0 Hreach') as [Hst Hth'].
      { unfold goroutine_step. by rewrite Hpc'. }
      pose proof (run_in_turn_snoc _ th0 _ _ Hrun) as Hturn.
      destruct (registerMetrics (its_group th0) (its_ctx th0) st_d) as [[[]|e] s];
        cbn [fst snd] in *; [|by rewrite Hth' in Hpc'].
      apply serial_free; cbn [shared goroutines]; rewrite ?Hsame; try done.
      * by rewrite Hord, (goroutines_in_snoc _ _ _ _ Hth0), Hturn, Hst.
      * intros tid' th2 _ Hth2. cbn [goroutines] in Hth2.
        destruct (decide (tid' = tid)) as [->|Hne].
        -- rewrite list_lookup_insert_eq in Hth2 by done. injection Hth2 as <-.
           split.
           ++ rewrite Hth0. f_equal. rewrite Hth'. destruct th0 as [g ctx q].
              simpl in Hpc0. by subst q.
           ++ left. split; [done|]. rewrite Hord.
              apply elem_of_app. right. by apply list_elem_of_singleton.
        -- rewrite list_lookup_insert_ne in Hth2 by done.
           destruct (Hout tid' th2) as [Hp2 Hcase]; [congruence|done|]. split; [done|].
           rewrite ?Hsame.
           destruct Hcase as [[? Hd]|[? ?]]; [left|by right]. split; [done|].
           rewrite Hord. apply elem_of_app. by left.
Qed.

Lemma Serial_exec p0 tr p : starting p0 → exec p0 tr p → Serial p0 tr p.
Proof.
  intros Hstart. induction 1 as [|p0 tr p ev p' _ IH Hstep].
  - by apply Serial_start.
  - eapply Serial_step; [by apply IH|done].
Qed.

(** X6. Concurrent registration is registration in turn.  In every
    execution of goroutines that each run a register function, from a free
    mutex, no goroutine takes the mutex twice; whenever no goroutine is
    between taking and releasing the mutex, the shared state is exactly the
    state left by calling the register functions one after another on a
    single goroutine, in the order in which the goroutines took the mutex,
    and the goroutines that have returned are those that took it; and when
    a goroutine has ended the process, calling the register functions in
    that order ends it the same way in the same state. *)
Theorem concurrent_registration_is_sequential (p0 : Process) (tr : list Event) (p : Process) :
  starting p0 →
  exec p0 tr p →
  NoDup (lock_order tr) ∧
  ((∀ tid th, goroutines p !! tid = Some th → inside (pc th) = false) →
   run_in_turn (goroutines_in p0 (lock_order tr)) (shared p0) = (Ok tt, shared p) ∧
   ∀ tid th, goroutines p !! tid = Some th → (pc th = Returned ↔ tid ∈ lock_order tr)) ∧
  (∀ tid th e, goroutines p !! tid = Some th → pc th = Exited e →
     run_in_turn (goroutines_in p0 (lock_order tr)) (shared p0) = (Abort e, shared p)).
Proof.
  intros Hstart Hexec.
  destruct (Serial_exec _ _ _ Hstart Hexec) as
    [Hnd Hrun Hmu Hout
    |done tid0 th0 thh st_d Hnd Hord Hrun Hmud Hth0 Hpc0 Hthh Hin Hreach Hmu Hout].
  - split; [done|]. split.
    + intros _. split; [done|]. intros tid th Hth.
      destruct (Hout tid th) as [_ [[Hpc Hd]|[Hpc Hn]]]; [done|done|..].
      * done.
      * rewrite Hpc. split; [discriminate|done].
    + intros tid th e Hth Hpc.
      destruct (Hout tid th) as [_ [[Hpc' _]|[Hpc' _]]]; [done|done|..]; congruence.
  - split; [done|]. split.
    + intros Hnone. by rewrite (Hnone _ _ Hthh) in Hin.
    + intros tid th e Hth Hpc.
      assert (tid = tid0) as ->.
      { destruct (decide (tid = tid0)) as [|Hne]; [done|].
        destruct (Hout tid th) as [_ [[Hpc' _]|[Hpc' _]]]; [congruence|done|..]; congruence. }
      rewrite Hth in Hthh. injection Hthh as <-.
      destruct (holder_finishes _ _ _ _ Hmud Hpc0 Hreach) as [Hst Hth'].
      { unfold goroutine_step. by rewrite Hpc. }
      rewrite Hord, (goroutines_in_snoc _ _ _ _ Hth0), (run_in_turn_snoc _ th0 _ _ Hrun).
      destruct (registerMetrics (its_group th0) (its_ctx th0) st_d) as [[[]|e'] s];
        cbn [fst snd] in *; rewrite Hth' in Hpc; simpl in Hpc; [discriminate|].
      injection Hpc as ->. by rewrite Hst.
Qed.

(** ** Options in a list *)

Lemma foldl_options_keep {A} (field : Options → A) (opts : list Option) (o : Options) :
  Forall (λ opt : Option, ∀ x, field (opt x) = field x) opts →
  field (foldl (λ options opt, opt options) o opts) = field o.
Proof.
  intros Hall. revert o. induction Hall as [|opt opts Hopt _ IH]; intros o; simpl; [done|].
  by rewrite IH, Hopt.
Qed.

Lemma apply_options_later {A} (field : Options → A) (opts opts' : list Option) (o : Option) :
  Forall (λ opt : Option, ∀ x, field (opt x) = field x) opts' →
  field (apply_options (opts ++ o :: opts')) = field (o (apply_options opts)).
Proof.
  intros Hall. unfold apply_options. rewrite foldl_app. simpl.
  by rewrite foldl_options_keep.
Qed.

(** X7. Among the options of a constructor the last one that writes a
    field decides it: a [ServiceName], [ServiceVersion], [ServiceID] or
    [Context] option followed only by options that leave its field alone
    (any options, the caller's own included) gives the field its value,
    whatever the options before it did. *)
Theorem later_options_override_earlier :
  (∀ opts opts' name,
     Forall (λ opt : Option, ∀ x, Name (opt x) = Name x) opts' →
     Name (apply_options (opts ++ ServiceName name :: opts')) = name) ∧
  (∀ opts opts' version,
     Forall (λ opt : Option, ∀ x, Version (opt x) = Version x) opts' →
     Version (apply_options (opts ++ ServiceVersion version :: opts')) = version) ∧
  (∀ opts opts' id,
     Forall (λ opt : Option, ∀ x, ID (opt x) = ID x) opts' →
     ID (apply_options (opts ++ ServiceID id :: opts')) = id) ∧
  (∀ opts opts' ctx,
     Forall (λ opt : Option, ∀ x, Context (opt x) = Context x) opts' →
     Context (apply_options (opts ++ ContextOption ctx :: opts')) = ctx).
Proof.
  split; [|split; [|split]]; intros opts opts' v Hall;
    by rewrite apply_options_later.
Qed.

(** ** How a constructor ends *)

Lemma submit_outcome ctx r cs :
  (submit ctx r (Some <$> cs)).1 = Ok tt ∨
  ∃ msg, (submit ctx r (Some <$> cs)).1 = Abort (LoggerFatal ctx msg).
Proof. eapply registration_outcome, submit_registration. Qed.

Lemma registerMetrics_outcome g ctx st :
  mu st = false →
  (∃ st', registerMetrics g ctx st = (Ok tt, st') ∧ mu st' = false) ∨
  (∃ msg st', registerMetrics g ctx st = (Abort (LoggerFatal ctx msg), st') ∧ mu st' = true).
Proof.
  intros Hmu. rewrite registerMetrics_free by done. cbn zeta.
  destruct (registered_collectors g _ (ensure_registered g st)) as (c1 & c2 & c3 & ->).
  destruct (submit_outcome ctx (DefaultRegisterer st) [c1; c2; c3]) as [Hok|[msg Hfatal]];
    change (Some <$> [c1; c2; c3]) with [Some c1; Some c2; Some c3] in *.
  - left. rewrite Hok. eexists. split; [done|]. state_fields.
    by destruct (ensure_frame g st) as (-> & _).
  - right. rewrite Hfatal. by eexists _, _.
Qed.

Lemma register_all_outcome gs ctx st :
  mu st = false →
  (∃ st', for_range gs (λ g, registerMetrics g ctx) st = (Ok tt, st') ∧ mu st' = false) ∨
  (∃ msg st', for_range gs (λ g, registerMetrics g ctx) st =
     (Abort (LoggerFatal ctx msg), st') ∧ mu st' = true).
Proof.
  revert st. induction gs as [|g gs IH]; intros st Hmu; simpl.
  - left. by eexists.
  - unfold mbind, M_bind.
    destruct (registerMetrics_outcome g ctx st Hmu) as [(st1 & -> & Hmu1)|(msg & st1 & -> & Hmu1)].
    + by apply IH.
    + right. by eexists _, _.
Qed.

(** X8. A constructor called with the mutex free ends in one of two ways:
    it returns, and the mutex is free again; or the process is ended by
    [logger.Fatal], called with the context of the options (the one a
    [Context] option gave, the background context otherwise), the mutex
    still held.  It never returns an error, never panics on a nil family
    and never leaves the mutex held after it has returned. *)
Theorem constructor_returns_or_logs_fatal (k : Constructor) (opts : list Option) (st : State) :
  mu st = false →
  (∃ st', construct k opts st = (Ok tt, st') ∧ mu st' = false) ∨
  (∃ msg st',
     construct k opts st = (Abort (LoggerFatal (Context (apply_options opts)) msg), st') ∧
     mu st' = true).
Proof. intros Hmu. rewrite construct_run. by apply register_all_outcome. Qed.

(** ** Families that are registered stay registered *)

Lemma settled_decorated i st g :
  settled g (wrapped i st).2 → settled g (decorated i st).2.
Proof.
  intros (cs & Hcs & Hk). exists cs.
  destruct (decorated_changes i st) as (_ & _ & _ & _ & _ & _ & -> & _).
  split; [|done]. rewrite <- Hcs.
  pose proof (decorated_collector_of i st g Ops) as Hc.
  pose proof (decorated_collector_of i st g Summary) as Hs.
  pose proof (decorated_collector_of i st g Histogram) as Hh.
  cbn [collector_of] in Hc, Hs, Hh. unfold collectors. by rewrite Hc, Hs, Hh.
Qed.

(** X9. With a registerer that keeps what it accepted, the families a
    constructor has created and registered stay so: a constructor that
    returns leaves the families of its groups registered and those of
    every other group as registered as they were; a decorated invocation
    leaves them registered when its wrapped operation does; and a
    constructor all of whose groups are registered changes nothing at all,
    whatever its options, so that [NewCallWrapper] after [NewClientWrapper]
    is without effect on the state. *)
Theorem registered_families_stay_registered :
  lawful →
  (∀ k opts st st', mu st = false → construct k opts st = (Ok tt, st') →
     mu st' = false ∧ Forall (λ g, settled g st') (groups_of k) ∧
     ∀ g, settled g st → settled g st') ∧
  (∀ i st g, settled g (wrapped i st).2 → settled g (decorated i st).2) ∧
  (∀ k opts st, mu st = false → Forall (λ g, settled g st) (groups_of k) →
     construct k opts st = (Ok tt, st)).
Proof.
  intros Hlaw. split; [|split].
  - intros k opts st st' Hmu. rewrite construct_run. by apply register_all_settles.
  - exact settled_decorated.
  - intros k opts st Hmu Hall. rewrite construct_run. by apply register_all_settled_id.
Qed.

(** ** Decorations on top of each other *)


(** ** Invocations on a nil capability *)



(** ** Registration leaves the recorded values alone *)

Lemma same_values_refl st : same_values st st.
Proof. done. Qed.

Lemma same_values_trans st1 st2 st3 :
  same_values st1 st2 → same_values st2 st3 → same_values st1 st3.
Proof.
  intros (Hc & Hs & Hh) (Hc' & Hs' & Hh').
  split; [|split]; intros x lvs; [rewrite Hc'|rewrite Hs'|rewrite Hh']; done.
Qed.

(** A state that differs in the mutex and the registerer only. *)
Lemma same_values_fields (st st' : State) :
  counters st' = counters st → summaries st' = summaries st →
  histograms st' = histograms st → same_values st st'.
Proof.
  intros Hc Hs Hh. unfold same_values, counter_value, summary_values, histogram_values.
  by rewrite Hc, Hs, Hh.
Qed.

(** The construction of a family whose variable is nil: the new vector is
    empty, and a nil vector reads as empty. *)
Lemma same_values_construct g f st :
  present g f st = false → same_values st (construct_family g f st).
Proof.
  intros Hnil. unfold same_values, counter_value, summary_values, histogram_values.
  destruct f; apply bool_decide_eq_false in Hnil;
    unfold construct_family, construct_counter, construct_summary, construct_histogram;
    state_fields; (split; [|split]); intros x lvs; try done.
  - destruct (decide (x = ops_var g)) as [->|Hne].
    + rewrite lookup_insert_eq. cbn [prometheus.counter_values]. rewrite lookup_empty.
      destruct (counters st !! ops_var g) eqn:Hx; [|done]. destruct Hnil. eauto.
    + by rewrite lookup_insert_ne.
  - destruct (decide (x = summary_var g)) as [->|Hne].
    + rewrite lookup_insert_eq. cbn [prometheus.summary_observations]. rewrite lookup_empty.
      destruct (summaries st !! summary_var g) eqn:Hx; [|done]. destruct Hnil. eauto.
    + by rewrite lookup_insert_ne.
  - destruct (decide (x = histogram_var g)) as [->|Hne].
    + rewrite lookup_insert_eq. cbn [prometheus.histogram_observations]. rewrite lookup_empty.
      destruct (histograms st !! histogram_var g) eqn:Hx; [|done]. destruct Hnil. eauto.
    + by rewrite lookup_insert_ne.
Qed.

Lemma same_values_ensure_family g f st : same_values st (ensure_family g f st).
Proof.
  destruct (present g f st) eqn:Hp.
  - assert (ensure_family g f st = st) as ->; [|done].
    destruct f; apply bool_decide_eq_true in Hp as [v Hv];
      unfold ensure_family, ensure_counter, ensure_summary, ensure_histogram;
      by rewrite Hv.
  - assert (ensure_family g f st = construct_family g f st) as ->;
      [|by apply same_values_construct].
    destruct f; apply bool_decide_eq_false in Hp;
      unfold ensure_family, ensure_counter, ensure_summary, ensure_histogram,
        construct_family.
    + destruct (counters st !! ops_var g) eqn:Hx; [|done]. destruct Hp. eauto.
    + destruct (summaries st !! summary_var g) eqn:Hx; [|done]. destruct Hp. eauto.
    + destruct (histograms st !! histogram_var g) eqn:Hx; [|done]. destruct Hp. eauto.
Qed.

Lemma same_values_ensure g st : same_values st (ensure g st).
Proof.
  unfold ensure.
  eapply same_values_trans; [apply (same_values_ensure_family g Ops)|].
  eapply same_values_trans; [apply (same_values_ensure_family g Summary)|].
  apply (same_values_ensure_family g Histogram).
Qed.

Lemma same_values_registerMetrics g ctx st : same_values st (registerMetrics g ctx st).2.
Proof.
  rewrite registerMetrics_run. destruct (mu st); [done|]. cbn zeta.
  eapply same_values_trans; [apply (same_values_fields st (set_mu true st)); done|].
  eapply same_values_trans; [apply (same_values_ensure g)|].
  destruct (submit _ _ _) as [[[]|e] r']; cbn [fst snd]; by apply same_values_fields.
Qed.

Lemma same_values_for_range gs ctx st :
  same_values st (for_range gs (λ g, registerMetrics g ctx) st).2.
Proof.
  revert st. induction gs as [|g gs IH]; intros st; simpl; [done|].
  unfold mbind, M_bind.
  pose proof (same_values_registerMetrics g ctx st) as Hone.
  destruct (registerMetrics g ctx st) as [[[]|e] st1]; [|done].
  eapply same_values_trans; [exact Hone|apply IH].
Qed.

Lemma same_values_step p0 tr p ev p' :
  Invariant p0 tr p → step p ev p' → same_values (shared p) (shared p').
Proof.
  intros [_ _ Hnil _ _] Hstep.
  destruct Hstep as [p tid th a st' th' _ Hth Hgo]. cbn [shared].
  apply goroutine_step_kind in Hgo as [_ Hkind].
  destruct Hkind as
    [Hpc Hm -> -> Hpc'
    |f0 Hpc Hpres -> -> Hpc'
    |f0 Hpc Hpres -> -> Hpc'
    |f0 Hpc -> -> Hpc'
    |Hpast Hpast' Hnr Hnr' Hname Hact (Hc & Hs & Hh) Hm
    |Hpc Hm -> -> Hpc']; try done.
  - apply same_values_construct. by eapply Hnil.
  - by apply same_values_fields.
Qed.

Lemma same_values_exec p0 tr p :
  starting p0 → exec p0 tr p → same_values (shared p0) (shared p).
Proof.
  intros Hstart. induction 1 as [|p0 tr p ev p' Hexec IH Hstep]; [done|].
  eapply same_values_trans; [by apply IH|].
  eapply same_values_step; [|done]. by apply Invariant_exec.
Qed.

(** X12. Registration never touches a recorded value.  After a register
    function or a constructor, however it ends and whatever existed before,
    every count and every list of observations reads as it read before; a
    family that has just been created reads as the nil one did, empty.  The
    same holds of every execution of goroutines that register concurrently
    from a free mutex: no interleaving makes one goroutine replace the
    family another has created. *)
Theorem registration_keeps_recorded_values :
  (∀ g ctx st, same_values st (registerMetrics g ctx st).2) ∧
  (∀ k opts st, same_values st (construct k opts st).2) ∧
  (∀ p0 tr p, starting p0 → exec p0 tr p → same_values (shared p0) (shared p)).
Proof.
  split; [exact same_values_registerMetrics|]. split; [|exact same_values_exec].
  intros k opts st. rewrite construct_run. apply same_values_for_range.
Qed.

(** ** Registration is confined to its group *)

Lemma same_group_registerMetrics g ctx st g' :
  g' ≠ g → same_group g' st (registerMetrics g ctx st).2.
Proof.
  intros Hne. rewrite registerMetrics_run. destruct (mu st); [done|]. cbn zeta.
  assert (Hens : same_group g' st (ensure g (set_mu true st))).
  { by apply (ensure_other_group g g' (set_mu true st)). }
  by destruct (submit _ _ _) as [[[]|e] r'].
Qed.

Lemma same_group_for_range gs ctx st g :
  g ∉ gs → same_group g st (for_range gs (λ g, registerMetrics g ctx) st).2.
Proof.
  revert st. induction gs as [|g0 gs IH]; intros st Hnin; simpl; [done|].
  apply not_elem_of_cons in Hnin as [Hne Hnin].
  unfold mbind, M_bind.
  pose proof (same_group_registerMetrics g0 ctx st g Hne) as Hone.
  destruct (registerMetrics g0 ctx st) as [[[]|e] st1]; [|done].
  destruct Hone as (Hc & Hs & Hh), (IH st1 Hnin) as (Hc' & Hs' & Hh').
  cbn [snd] in *. split; [by rewrite Hc'|split; [by rewrite Hs'|by rewrite Hh']].
Qed.

Lemma registered_registerMetrics g ctx st :
  mu st = false → registered g (registerMetrics g ctx st).2.
Proof.
  intros Hmu. rewrite registerMetrics_free by done. cbn zeta.
  pose proof (ensure_registered g st) as Hreg.
  by destruct (submit _ _ _) as [[[]|e] r'].
Qed.

(** X13. Registration is confined to its group.  A register function
    leaves the variables of the three other groups as they are, however it
    ends; called with the mutex free it has made the three families of its
    own group before it submits any, so that they all exist afterwards even
    when a registration error ends the process; and a constructor leaves
    alone the variables of every group that is not its own:
    [NewHandlerWrapper] those of the client, publish and subscribe groups,
    [NewSubscriberWrapper] those of the client, publish and server groups,
    [NewClientWrapper] those of the server and subscribe groups. *)
Theorem registration_is_confined_to_its_group :
  (∀ g ctx st g', g' ≠ g → same_group g' st (registerMetrics g ctx st).2) ∧
  (∀ g ctx st, mu st = false → registered g (registerMetrics g ctx st).2) ∧
  (∀ k opts st g, g ∉ groups_of k → same_group g st (construct k opts st).2).
Proof.
  split; [exact same_group_registerMetrics|]. split; [exact registered_registerMetrics|].
  intros k opts st g Hnin. rewrite construct_run. by apply same_group_for_range.
Qed.

End Prometheus.

(** ** A registerer after prometheus's own registry

    The registry keeps the collectors it accepted.  A collector whose
    fully-qualified name is new is accepted; one whose descriptor is already
    held is answered with [AlreadyRegisteredError]; one whose name is held
    with other label names or another help string is refused. *)
Module registry.

Definition Registry : Type := list prometheus.Collector.

Fixpoint find_name (name : string) (r : Registry) : option prometheus.Collector :=
  match r with
  | [] => None
  | c :: r' =>
      if decide (prometheus.fqName (prometheus.Describe c) = name) then Some c
      else find_name name r'
  end.

Definition Register (r : Registry) (c : prometheus.Collector) : error * Registry :=
  match find_name (prometheus.fqName (prometheus.Describe c)) r with
  | Some c' =>
      if decide (prometheus.Describe c' = prometheus.Describe c) then
        (Some (AlreadyRegisteredError (prometheus.collector_addr c')
                 (prometheus.collector_addr c)), r)
      else
        (Some (errorString "a previously registered descriptor with the same fully-qualified name has different label names or a different help string"), r)
  | None => (None, r ++ [c])
  end.

#[global] Instance Registry_Registerer : prometheus.Registerer Registry := Register.

End registry.

(** ** A concrete process

    A process that starts with the default prefixes, no family, a free
    mutex and prometheus's registry empty; the rest of its memory is not
    looked at. *)
Import registry.

Definition st0 : State (World := unit) (R := Registry) :=
  mkState "micro_" "micro_" ∅ ∅ ∅ false 0 [] 0 tt.

(** A wrapped operation that takes [d] nanoseconds. *)
Definition elapse {World R E} (d : Z) : M (World := World) (R := R) E unit := λ st,
  (Ok tt,
   mkState (DefaultMetricPrefix st) (DefaultLabelPrefix st) (counters st) (summaries st)
     (histograms st) (mu st) (allocated st) (DefaultRegisterer st) (clock st + d) (world st)).

(** The same process, another component having registered a family under
    the name of the server ops counter. *)
Definition st_conflict : State (World := unit) (R := Registry) :=
  mkState "micro_" "micro_" ∅ ∅ ∅ false 0
    [prometheus.mkCollector 100%nat
       (prometheus.mkDesc "micro_server_request_total" "Requests of another component"
          ["micro_endpoint"])]
    0 tt.

Definition svc_options : list Option :=
  [ServiceName "svc"; ServiceVersion "v1"; ServiceID "i1"].

Definition svc_wrapper : wrapper (World := unit) (R := Registry) :=
  {| options := apply_options svc_options; callFunc := None; Client := None |}.

(** The process after each constructor. *)
Definition st_server : State := (construct HandlerWrapper svc_options st0).2.

Definition st_client : State := (construct ClientWrapper svc_options st0).2.

Definition st_call : State := (construct CallWrapper svc_options st0).2.


Definition hello_call : client.Request :=
  client.mkRequest "Greeter" "Hello" "Hello" "application/json".

Definition event : client.Message := client.mkMessage "events" "payload".




(** A client whose calls answer in 10ms and whose publishing fails. *)
Definition backend : client_Client (World := unit) (R := Registry) :=
  {| client_Call := λ ctx req rsp opts, elapse 10000000;; mret None;
     client_Stream := λ ctx req opts, elapse 2000000;; mret (Some 7%nat, None);
     client_Publish := λ ctx p opts,
       elapse 5000000;; mret (Some (errorString "broker unavailable")) |}.

Definition client_wrapper : wrapper (World := unit) (R := Registry) :=
  {| options := apply_options svc_options; callFunc := None; Client := Some backend |}.




Definition call_hello : Invocation :=
  InvokeCall client_wrapper context.Background hello_call 0%nat [].

Definition publish_event : Invocation :=
  InvokePublish client_wrapper context.Background event [].



(** ** Concurrent registration at the concrete process *)

Definition server_goroutine : Goroutine :=
  mkGoroutine ServerGroup context.Background AtLock.

(** One goroutine that constructs a handler wrapper, and two that race. *)
Definition lone : Process := mkProcess st0 [server_goroutine].

Definition race : Process := mkProcess st0 [server_goroutine; server_goroutine].

(** Goroutine 0 runs to its return. *)
Definition lone_schedule : list nat := replicate 13 0%nat.

(** Goroutine 1 takes the mutex first; goroutine 0 is scheduled again and
    again while goroutine 1 works, and runs when the mutex is free. *)
Definition race_schedule : list nat :=
  [1; 0; 1; 0; 1; 1; 0; 1; 1; 0; 1; 1; 1; 0; 1; 1; 1; 1; 0; 0; 0; 0; 0; 0; 0; 0; 0; 0]%nat.

(** Goroutine 0 has built the three server families and holds the mutex. *)
Definition race_held : Process := (run (replicate 7 0%nat) race).2.

(** ** The registry keeps what it accepted *)

Lemma Registry_find_name_app name r r' :
  find_name name (r ++ r') =
  match find_name name r with
  | Some c => Some c
  | None => find_name name r'
  end.
Proof.
  induction r as [|c r IH]; simpl; [done|].
  by destruct (decide _).
Qed.

Lemma Registry_known_iff r c :
  known r c ↔
  ∃ c', find_name (prometheus.fqName (prometheus.Describe c)) r = Some c' ∧
        prometheus.Describe c' = prometheus.Describe c.
Proof.
  unfold known, prometheus.Register, Registry_Registerer, Register. split.
  - intros (existing & new & Hr).
    destruct (find_name _ r) as [c'|]; [|discriminate].
    destruct (decide _); [eauto|discriminate].
  - intros (c' & -> & Hd). rewrite decide_True by done. eauto.
Qed.

Lemma Registry_lawful : lawful (R := Registry).
Proof.
  split; [|split].
  - intros r c r' Hr. apply Registry_known_iff.
    unfold prometheus.Register, Registry_Registerer, Register in Hr.
    destruct (find_name _ r) as [c'|] eqn:Hf.
    + destruct (decide _); discriminate.
    + injection Hr as <-. exists c. rewrite Registry_find_name_app, Hf. simpl.
      by rewrite decide_True.
  - intros r c existing new r' Hr. exists existing, new.
    assert (r' = r) as ->; [|done].
    unfold prometheus.Register, Registry_Registerer, Register in Hr.
    destruct (find_name _ r) as [c'|]; [|by injection Hr].
    destruct (decide _); by injection Hr.
  - intros r c c0 err r' [c' [Hf Hd]]%Registry_known_iff Hr. apply Registry_known_iff.
    unfold prometheus.Register, Registry_Registerer, Register in Hr.
    destruct (find_name (prometheus.fqName (prometheus.Describe c0)) r) as [c1|].
    + assert (r' = r) as -> by (destruct (decide _); by injection Hr). eauto.
    + injection Hr as _ <-. exists c'. by rewrite Registry_find_name_app, Hf.
Qed.

(** ** Scenarios *)

(** The scenario of a call that succeeds in 10ms: the counter of
    (svc, v1, i1, Greeter.Hello, success) is 1 and the histogram holds one
    observation of 0.01 seconds (0x1.47ae147ae147bp-7 as a float64), the summary one of 10000 microseconds. *)
Example call_scenario :
  (decorated call_hello st_client).1 = Ok (ResultError None) ∧
  counter_value clientOpsCounter ["svc"; "v1"; "i1"; "Greeter.Hello"; "success"]
    (decorated call_hello st_client).2 = 1%nat ∧
  histogram_values clientTimeCounterHistogram ["svc"; "v1"; "i1"; "Greeter.Hello"]
    (decorated call_hello st_client).2 = [0x1.47ae147ae147bp-7%float] ∧
  summary_values clientTimeCounterSummary ["svc"; "v1"; "i1"; "Greeter.Hello"]
    (decorated call_hello st_client).2 = [10000%float].
Proof. vm_compute. done. Qed.

(** The scenario of a publish that fails: the failure is counted once, the
    latency is recorded once, the error comes back. *)
Example publish_scenario :
  (decorated publish_event st_client).1 =
    Ok (ResultError (Some (errorString "broker unavailable"))) ∧
  counter_value publishOpsCounter ["svc"; "v1"; "i1"; "events"; "failure"]
    (decorated publish_event st_client).2 = 1%nat ∧
  counter_value publishOpsCounter ["svc"; "v1"; "i1"; "events"; "success"]
    (decorated publish_event st_client).2 = 0%nat ∧
  length (histogram_values publishTimeCounterHistogram ["svc"; "v1"; "i1"; "events"]
    (decorated publish_event st_client).2) = 1%nat ∧
  length (summary_values publishTimeCounterSummary ["svc"; "v1"; "i1"; "events"]
    (decorated publish_event st_client).2) = 1%nat.
Proof. vm_compute. done. Qed.

(** A registry that holds the name of the server ops counter under another
    help string: the first submission is refused, the process ends through
    [logger.Fatal] and the two other collectors are not submitted. *)
Example conflicting_schema_is_fatal :
  registerServerMetrics context.Background st_conflict =
    (Abort (LoggerFatal context.Background
       "a previously registered descriptor with the same fully-qualified name has different label names or a different help string"),
     (registerServerMetrics context.Background st_conflict).2) ∧
  DefaultRegisterer (registerServerMetrics context.Background st_conflict).2 =
    DefaultRegisterer st_conflict.
Proof. vm_compute. done. Qed.

(** After [NewCallWrapper] alone the publish families are nil, and
    publishing through a wrapper panics on the nil summary. *)
Example call_wrapper_leaves_publish_nil :
  (construct CallWrapper svc_options st0).1 = Ok tt ∧
  counters st_call !! publishOpsCounter = None ∧
  summaries st_call !! publishTimeCounterSummary = None ∧
  histograms st_call !! publishTimeCounterHistogram = None ∧
  (decorated publish_event st_call).1 = Abort NilPointerDereference.
Proof. vm_compute. done. Qed.

(** ** The properties at the concrete process *)







Lemma registration_errors_ignored_or_fatal_witness :
  mu st_server = false ∧
  ∃ c1 c2 c3,
    collectors ServerGroup (ensure ServerGroup st_server) = [Some c1; Some c2; Some c3] ∧
    registration context.Background (DefaultRegisterer st_server) [c1; c2; c3]
      (registerMetrics ServerGroup context.Background st_server).1
      (DefaultRegisterer (registerMetrics ServerGroup context.Background st_server).2) ∧
    ((registerMetrics ServerGroup context.Background st_server).1 = Ok tt ∨
     ∃ msg, (registerMetrics ServerGroup context.Background st_server).1 =
            Abort (LoggerFatal context.Background msg)).
Proof.
  split; [reflexivity|].
  apply (registration_errors_ignored_or_fatal ServerGroup context.Background st_server).
  reflexivity.
Defined.

Lemma registration_at_construction_idempotent_witness :
  lawful (R := Registry) ∧
  mu st0 = false ∧
  (construct ClientWrapper svc_options;; construct ClientWrapper []) st0 =
    construct ClientWrapper svc_options st0 ∧
  (construct ClientWrapper svc_options st0).1 = Ok tt.
Proof.
  split; [exact Registry_lawful|]. split; [reflexivity|]. split.
  - exact (proj1 (registration_at_construction_idempotent ClientWrapper svc_options [] st0
                    Registry_lawful eq_refl)).
  - by vm_compute.
Defined.

(** C7 as stated fails on the mechanism: the goroutine that constructs a
    family takes the steps lock, check-null, construct, unlock, which is not
    the double-checked sequence; and a goroutine that arrives while the
    mutex is held cannot take any step, not even a nil check, although the
    family exists. *)
Lemma registration_is_not_double_checked_locking :
  starting lone ∧
  exec lone (run lone_schedule lone).1 (run lone_schedule lone).2 ∧
  constructions ServerGroup Ops (run lone_schedule lone).1 = 1%nat ∧
  steps_of 0 Ops (run lone_schedule lone).1 =
    [StepLock; StepCheckNull; StepConstruct; StepUnlock] ∧
  steps_of 0 Ops (run lone_schedule lone).1 ≠ double_checked_locking ∧
  present ServerGroup Ops (shared race_held) = true ∧
  goroutines race_held !! 1%nat = Some server_goroutine ∧
  goroutine_step (shared race_held) server_goroutine = None.
Proof.
  split; [split; [done|by repeat constructor]|].
  split; [apply run_exec|].
  split; [by vm_compute|].
  split; [by vm_compute|].
  split; [by vm_compute|].
  split; [by vm_compute|].
  split; by vm_compute.
Qed.

Lemma one_construction_per_family_witness :
  starting race ∧
  exec race (run race_schedule race).1 (run race_schedule race).2 ∧
  (constructions ServerGroup Ops (run race_schedule race).1 +
   Nat.b2n (present ServerGroup Ops (shared race)))%nat =
    Nat.b2n (present ServerGroup Ops (shared (run race_schedule race).2)) ∧
  constructions ServerGroup Ops (run race_schedule race).1 = 1%nat ∧
  (pc <$> goroutines (run race_schedule race).2) = [Returned; Returned].
Proof.
  assert (Hstart : starting race) by (split; [done|by repeat constructor]).
  split; [exact Hstart|]. split; [apply run_exec|]. split.
  - exact (proj1 (one_construction_per_family race (run race_schedule race).1
                    (run race_schedule race).2 Hstart (run_exec race_schedule race))
             ServerGroup Ops).
  - split; by vm_compute.
Defined.

Lemma options_default_and_captured_witness :
  NewHandlerWrapper svc_options st0 = (Ok (HandlerFunc svc_wrapper), st_server) ∧
  HandlerFunc svc_wrapper =
    HandlerFunc {| options := apply_options svc_options; callFunc := None; Client := None |} ∧
  apply_options svc_options =
    {| Name := "svc"; Version := "v1"; ID := "i1"; Context := context.Background |}.
Proof.
  assert (Hreg : registerServerMetrics context.Background st0 = (Ok tt, st_server))
    by (by vm_compute).
  assert (Hnew : NewHandlerWrapper svc_options st0 = (Ok (HandlerFunc svc_wrapper), st_server)).
  { unfold NewHandlerWrapper, mbind, M_bind.
    change (Context (apply_options svc_options)) with context.Background.
    by rewrite Hreg. }
  split; [exact Hnew|]. split; [|reflexivity].
  pose proof (options_default_and_captured (World := unit) (R := Registry))
    as (_ & _ & _ & _ & _ & _ & _ & _ & Hhandler & _).
  exact (Hhandler svc_options st0 _ _ Hnew).
Defined.

Lemma client_wrapper_registers_publish_too_witness :
  NewCallWrapper svc_options st0 =
    (Ok (λ fn, CallFunc {| options := apply_options svc_options;
                           callFunc := Some fn; Client := None |}), st_call) ∧
  registered ClientGroup st_call ∧
  counters st_call !! ops_var PublishGroup = counters st0 !! ops_var PublishGroup ∧
  counters st0 !! ops_var PublishGroup = None.
Proof.
  assert (Hreg : registerClientMetrics context.Background st0 = (Ok tt, st_call))
    by (by vm_compute).
  assert (Hnew : NewCallWrapper svc_options st0 =
    (Ok (λ fn, CallFunc {| options := apply_options svc_options;
                           callFunc := Some fn; Client := None |}), st_call)).
  { unfold NewCallWrapper, mbind, M_bind.
    change (Context (apply_options svc_options)) with context.Background.
    by rewrite Hreg. }
  split; [exact Hnew|].
  destruct (proj2 (client_wrapper_registers_publish_too svc_options st0) _ _ Hnew)
    as (Hclient & _ & Hother).
  split; [exact Hclient|]. split; [|reflexivity].
  exact (proj1 (Hother PublishGroup ltac:(discriminate))).
Defined.

(** ** Further properties at the concrete process *)

Lemma family_names_never_collide_witness :
  described st_client ∧
  collector_of ClientGroup Ops st_client =
    Some (prometheus.mkCollector 0%nat
            (family_desc "micro_" "micro_" ClientGroup Ops)) ∧
  collector_of PublishGroup Ops st_client =
    Some (prometheus.mkCollector 3%nat
            (family_desc "micro_" "micro_" PublishGroup Ops)) ∧
  (ClientGroup, Ops) ≠ (PublishGroup, Ops) ∧
  "micro_request_total" ≠ "micro_publish_message_total".
Proof.
  assert (Hd : described st_client).
  { intros g f c. destruct g, f; vm_compute; intros [= <-]; reflexivity. }
  assert (Hc : collector_of ClientGroup Ops st_client =
    Some (prometheus.mkCollector 0%nat (family_desc "micro_" "micro_" ClientGroup Ops)))
    by (by vm_compute).
  assert (Hp : collector_of PublishGroup Ops st_client =
    Some (prometheus.mkCollector 3%nat (family_desc "micro_" "micro_" PublishGroup Ops)))
    by (by vm_compute).
  assert (Hne : (ClientGroup, Ops) ≠ (PublishGroup, Ops)) by discriminate.
  split; [exact Hd|]. split; [exact Hc|]. split; [exact Hp|]. split; [exact Hne|].
  exact (family_names_never_collide st_client ClientGroup PublishGroup Ops Ops _ _
           Hd Hc Hp Hne).
Defined.

Lemma label_values_match_label_names_witness :
  described (wrapped call_hello st_client).2 ∧
  registered (group call_hello) (wrapped call_hello st_client).2 ∧
  ∀ lvs c,
    collector_of (group call_hello) Ops (wrapped call_hello st_client).2 = Some c →
    counter_value (ops_var (group call_hello)) lvs (decorated call_hello st_client).2 ≠
    counter_value (ops_var (group call_hello)) lvs (wrapped call_hello st_client).2 →
    length lvs = length (prometheus.variableLabels (prometheus.Describe c)).
Proof.
  assert (Hd : described (wrapped call_hello st_client).2).
  { intros g f c. destruct g, f; vm_compute; intros [= <-]; reflexivity. }
  assert (Hreg : registered (group call_hello) (wrapped call_hello st_client).2).
  { apply (bool_decide_unpack _). vm_compute. exact I. }
  split; [exact Hd|]. split; [exact Hreg|].
  exact (proj1 (label_values_match_label_names call_hello st_client Hd Hreg)).
Defined.

Lemma concurrent_registration_completes_witness :
  starting race ∧
  exec race (run race_schedule race).1 (run race_schedule race).2 ∧
  (length (run race_schedule race).1 + remaining_steps (run race_schedule race).2 ≤
   13 * length (goroutines race))%nat ∧
  length (run race_schedule race).1 = 23%nat ∧
  remaining_steps (run race_schedule race).2 = 0%nat.
Proof.
  assert (Hstart : starting race) by (split; [done|by repeat constructor]).
  split; [exact Hstart|]. split; [apply run_exec|]. split.
  - exact (proj1 (concurrent_registration_completes race (run race_schedule race).1
                    (run race_schedule race).2 Hstart (run_exec race_schedule race))).
  - split; by vm_compute.
Defined.

Lemma concurrent_registration_is_sequential_witness :
  starting race ∧
  exec race (run race_schedule race).1 (run race_schedule race).2 ∧
  lock_order (run race_schedule race).1 = [1; 0]%nat ∧
  (pc <$> goroutines (run race_schedule race).2) = [Returned; Returned] ∧
  run_in_turn (goroutines_in race (lock_order (run race_schedule race).1)) (shared race) =
    (Ok tt, shared (run race_schedule race).2).
Proof.
  assert (Hstart : starting race) by (split; [done|by repeat constructor]).
  assert (Hnone : ∀ tid th,
    goroutines (run race_schedule race).2 !! tid = Some th → inside (pc th) = false).
  { assert (Hg : goroutines (run race_schedule race).2 =
      [at_pc server_goroutine Returned; at_pc server_goroutine Returned])
      by (by vm_compute).
    rewrite Hg. intros [|[|tid]] th; simpl; intros [= <-]; done. }
  split; [exact Hstart|]. split; [apply run_exec|].
  split; [by vm_compute|]. split; [by vm_compute|].
  exact (proj1 (proj1 (proj2 (concurrent_registration_is_sequential race
           (run race_schedule race).1 (run race_schedule race).2 Hstart
           (run_exec race_schedule race))) Hnone)).
Defined.

Lemma constructor_returns_or_logs_fatal_witness :
  mu st_conflict = false ∧
  ((∃ st', construct HandlerWrapper svc_options st_conflict = (Ok tt, st') ∧ mu st' = false) ∨
   (∃ msg st',
      construct HandlerWrapper svc_options st_conflict =
        (Abort (LoggerFatal (Context (apply_options svc_options)) msg), st') ∧
      mu st' = true)) ∧
  (construct HandlerWrapper svc_options st_conflict).1 =
    Abort (LoggerFatal context.Background
      "a previously registered descriptor with the same fully-qualified name has different label names or a different help string") ∧
  (construct HandlerWrapper svc_options st0).1 = Ok tt.
Proof.
  split; [reflexivity|]. split.
  - exact (constructor_returns_or_logs_fatal HandlerWrapper svc_options st_conflict eq_refl).
  - split; by vm_compute.
Defined.

Lemma registered_families_stay_registered_witness :
  lawful (R := Registry) ∧
  mu st0 = false ∧
  construct ClientWrapper svc_options st0 = (Ok tt, st_client) ∧
  Forall (λ g, settled g st_client) (groups_of ClientWrapper) ∧
  construct CallWrapper [] st_client = (Ok tt, st_client).
Proof.
  assert (Hrun : construct ClientWrapper svc_options st0 = (Ok tt, st_client))
    by (by vm_compute).
  destruct (registered_families_stay_registered (World := unit) Registry_lawful)
    as (Hkeep & _ & Hnoop).
  destruct (Hkeep ClientWrapper svc_options st0 st_client eq_refl Hrun) as (Hmu & Hall & _).
  split; [exact Registry_lawful|]. split; [reflexivity|]. split; [exact Hrun|].
  split; [exact Hall|].
  apply (Hnoop CallWrapper [] st_client Hmu).
  apply Forall_cons in Hall as [Hclient _]. by constructor.
Defined.


